(** * Boulder Dash clone: grid physics and game-state engine

    A shallow embedding of [Grid] (Grid.ts) and of the core of [Game]
    (Game.ts, in the revision that has the countdown timer, the exit and
    the camera): level generation, the movement resolver, diamond
    collection and exit reveal, reset, the physics scan, the explosion,
    the countdown timer, the camera follower, the frame loop and the
    delivery of key presses and frames to the game.

    Conventions.
    - Tile coordinates, scores and counters are JavaScript numbers that
      only ever hold integers; they are modelled as [Z].
    - Timestamps, camera positions and the results of [Math.random] are
      fractional JavaScript numbers, that is IEEE 754 doubles. A double
      is modelled as the rational [Q] it denotes, and an arithmetic
      operation on doubles as the exact operation followed by the
      rounding [round64] (to nearest, ties to even), so that
      [Math.floor(Math.random() * n)], the grace test of the physics
      step and the camera follower compute what the program computes.
      The four cadence tests of the frame loop ([timestamp - last >=
      interval] in [updateTime], [updateExplosion] and [gameLoop]) are
      written with the exact difference. The time they subtract is 0, the
      timestamp of an earlier frame that passed the same test, or, for
      the explosion, a clock reading taken in a physics step; none of
      these lies strictly between 0 and the interval, and for such a
      time the rounded difference passes the test exactly when the exact
      one does (lemma [cadence_test_exact]).
    - [Math.random()] and [performance.now()] are oracles: the state
      holds the two streams together with the number of values consumed
      so far, so each call site reads its own value.
    - Calls into the sound manager are recorded, most recent first. *)

From Stdlib Require Import ZArith QArith Qround Qabs Qminmax Qpower Lqa Lia Bool.
From stdpp Require Import base tactics option list list_numbers.

Local Open Scope Z_scope.

(** * The program *)

(** ** TileType

    The enumeration lives in TileType.ts; its members are the ones the
    game code names. *)

Inductive TileType : Set :=
  | EMPTY | DIRT | BOULDER | DIAMOND | WALL | PLAYER | EXIT.

#[global] Instance TileType_eq_dec : EqDecision TileType.
Proof. solve_decision. Defined.

#[global] Instance TileType_inhabited : Inhabited TileType := populate EMPTY.

(** [a === b] on tiles. *)
Definition tile_eqb (a b : TileType) : bool := bool_decide (a = b).

(** ** Grid *)

Record Grid : Type := mkGrid {
  cells : list (list TileType);   (* this.grid[y][x] *)
  width : Z;
  height : Z
}.

(** [height] rows of [width] EMPTY tiles. *)
Definition emptyGrid (w h : Z) : Grid :=
  {| cells := replicate (Z.to_nat h) (replicate (Z.to_nat w) EMPTY);
     width := w;
     height := h |}.

(** [Array(n)] throws a RangeError unless [n] is an array length: an
    integer from 0 to 2^32 - 1. *)
Definition arrayLength (n : Z) : bool := (0 <=? n) && (n <=? 2 ^ 32 - 1).

(** The constructor,
    [Array(height).fill(null).map(() => Array(width).fill(EMPTY))];
    [None] when it throws. [Array(width)] is evaluated once per row, so a
    bad width goes unnoticed when there is no row. *)
Definition newGrid (w h : Z) : option Grid :=
  if arrayLength h && ((h =? 0) || arrayLength w)
  then Some (emptyGrid w h)
  else None.

Definition getWidth (g : Grid) : Z := width g.
Definition getHeight (g : Grid) : Z := height g.

Definition isInBounds (g : Grid) (x y : Z) : bool :=
  (0 <=? x) && (x <? width g) && (0 <=? y) && (y <? height g).

(** [this.grid[y][x]]; inside the bounds of a well-formed grid the
    element always exists, so the fallback is never reached there. *)
Definition cellAt (g : Grid) (x y : Z) : TileType :=
  default EMPTY (cells g !! Z.to_nat y ≫= λ row, row !! Z.to_nat x).

Definition getTile (g : Grid) (x y : Z) : TileType :=
  if isInBounds g x y then cellAt g x y else WALL.

Definition setTile (g : Grid) (x y : Z) (type : TileType) : Grid :=
  if isInBounds g x y
  then {| cells := alter (λ row, <[Z.to_nat x := type]> row) (Z.to_nat y) (cells g);
          width := width g;
          height := height g |}
  else g.

(** The shape the constructor establishes and [setTile] keeps. *)
Definition Grid_wf (g : Grid) : Prop :=
  length (cells g) = Z.to_nat (height g) ∧
  Forall (λ row, length row = Z.to_nat (width g)) (cells g).

(** Number of cells holding tile [t]. *)
Definition countRow (t : TileType) (row : list TileType) : nat :=
  length (filter (λ c, c = t) row).

Definition countTile (t : TileType) (g : Grid) : nat :=
  sum_list (countRow t <$> cells g).

(** ** The sound manager seen from the game

    The game only calls [play], [stop] and [toggleMute] and never looks at
    the result, so the collaborator is the record of those calls. *)

Inductive Sound : Set :=
  | diamond | boulder | walk | explosion | victory | timeWarning | portal.

Inductive SoundCall : Set :=
  | Play (name : Sound)
  | Stop (name : Sound)
  | ToggleMute.

(** ** Game state

    The fields of class [Game] that the simulation reads or writes (the
    canvas, the drawing context and the pixel sizes are left out), the
    calls made to the sound manager, and the two oracles. *)

Record Game : Type := mkGame {
  lastTime : Q;
  lastPlayerMoveTime : Q;
  timeRemaining : Z;
  isTimeWarning : bool;
  lastTimeUpdate : Q;
  grid : Grid;
  playerX : Z;
  playerY : Z;
  playerAnimFrame : Z;
  playerFacingLeft : bool;
  lastAnimUpdate : Q;
  lastPhysicsUpdate : Q;
  gameOver : bool;
  score : Z;
  diamondsCollected : Z;
  gameWon : bool;
  explosionRadius : Z;
  explosionFrame : Z;
  lastExplosionUpdate : Q;
  explosionX : Z;
  explosionY : Z;
  exitX : Z;
  exitY : Z;
  exitRevealed : bool;
  exitAppearTime : Q;
  cameraX : Q;
  cameraY : Q;
  targetCameraX : Q;
  targetCameraY : Q;
  soundCalls : list SoundCall;
  randomStream : nat → Q;
  randomCalls : nat;
  clockStream : nat → Q;
  clockCalls : nat
}.

(** Field assignments [this.f = v]. *)
Definition set_lastTime (v : Q) (s : Game) : Game :=
  mkGame v (lastPlayerMoveTime s) (timeRemaining s) (isTimeWarning s)
    (lastTimeUpdate s) (grid s) (playerX s) (playerY s) (playerAnimFrame s)
    (playerFacingLeft s) (lastAnimUpdate s) (lastPhysicsUpdate s) (gameOver s)
    (score s) (diamondsCollected s) (gameWon s) (explosionRadius s)
    (explosionFrame s) (lastExplosionUpdate s) (explosionX s) (explosionY s)
    (exitX s) (exitY s) (exitRevealed s) (exitAppearTime s) (cameraX s)
    (cameraY s) (targetCameraX s) (targetCameraY s) (soundCalls s)
    (randomStream s) (randomCalls s) (clockStream s) (clockCalls s).
Definition set_lastPlayerMoveTime (v : Q) (s : Game) : Game :=
  mkGame (lastTime s) v (timeRemaining s) (isTimeWarning s) (lastTimeUpdate s)
    (grid s) (playerX s) (playerY s) (playerAnimFrame s) (playerFacingLeft s)
    (lastAnimUpdate s) (lastPhysicsUpdate s) (gameOver s) (score s)
    (diamondsCollected s) (gameWon s) (explosionRadius s) (explosionFrame s)
    (lastExplosionUpdate s) (explosionX s) (explosionY s) (exitX s) (exitY s)
    (exitRevealed s) (exitAppearTime s) (cameraX s) (cameraY s)
    (targetCameraX s) (targetCameraY s) (soundCalls s) (randomStream s)
    (randomCalls s) (clockStream s) (clockCalls s).
Definition set_timeRemaining (v : Z) (s : Game) : Game :=
  mkGame (lastTime s) (lastPlayerMoveTime s) v (isTimeWarning s)
    (lastTimeUpdate s) (grid s) (playerX s) (playerY s) (playerAnimFrame s)
    (playerFacingLeft s) (lastAnimUpdate s) (lastPhysicsUpdate s) (gameOver s)
    (score s) (diamondsCollected s) (gameWon s) (explosionRadius s)
    (explosionFrame s) (lastExplosionUpdate s) (explosionX s) (explosionY s)
    (exitX s) (exitY s) (exitRevealed s) (exitAppearTime s) (cameraX s)
    (cameraY s) (targetCameraX s) (targetCameraY s) (soundCalls s)
    (randomStream s) (randomCalls s) (clockStream s) (clockCalls s).
Definition set_isTimeWarning (v : bool) (s : Game) : Game :=
  mkGame (lastTime s) (lastPlayerMoveTime s) (timeRemaining s) v
    (lastTimeUpdate s) (grid s) (playerX s) (playerY s) (playerAnimFrame s)
    (playerFacingLeft s) (lastAnimUpdate s) (lastPhysicsUpdate s) (gameOver s)
    (score s) (diamondsCollected s) (gameWon s) (explosionRadius s)
    (explosionFrame s) (lastExplosionUpdate s) (explosionX s) (explosionY s)
    (exitX s) (exitY s) (exitRevealed s) (exitAppearTime s) (cameraX s)
    (cameraY s) (targetCameraX s) (targetCameraY s) (soundCalls s)
    (randomStream s) (randomCalls s) (clockStream s) (clockCalls s).
Definition set_lastTimeUpdate (v : Q) (s : Game) : Game :=
  mkGame (lastTime s) (lastPlayerMoveTime s) (timeRemaining s)
    (isTimeWarning s) v (grid s) (playerX s) (playerY s) (playerAnimFrame s)
    (playerFacingLeft s) (lastAnimUpdate s) (lastPhysicsUpdate s) (gameOver s)
    (score s) (diamondsCollected s) (gameWon s) (explosionRadius s)
    (explosionFrame s) (lastExplosionUpdate s) (explosionX s) (explosionY s)
    (exitX s) (exitY s) (exitRevealed s) (exitAppearTime s) (cameraX s)
    (cameraY s) (targetCameraX s) (targetCameraY s) (soundCalls s)
    (randomStream s) (randomCalls s) (clockStream s) (clockCalls s).
Definition set_grid (v : Grid) (s : Game) : Game :=
  mkGame (lastTime s) (lastPlayerMoveTime s) (timeRemaining s)
    (isTimeWarning s) (lastTimeUpdate s) v (playerX s) (playerY s)
    (playerAnimFrame s) (playerFacingLeft s) (lastAnimUpdate s)
    (lastPhysicsUpdate s) (gameOver s) (score s) (diamondsCollected s)
    (gameWon s) (explosionRadius s) (explosionFrame s) (lastExplosionUpdate s)
    (explosionX s) (explosionY s) (exitX s) (exitY s) (exitRevealed s)
    (exitAppearTime s) (cameraX s) (cameraY s) (targetCameraX s)
    (targetCameraY s) (soundCalls s) (randomStream s) (randomCalls s)
    (clockStream s) (clockCalls s).
Definition set_playerX (v : Z) (s : Game) : Game :=
  mkGame (lastTime s) (lastPlayerMoveTime s) (timeRemaining s)
    (isTimeWarning s) (lastTimeUpdate s) (grid s) v (playerY s)
    (playerAnimFrame s) (playerFacingLeft s) (lastAnimUpdate s)
    (lastPhysicsUpdate s) (gameOver s) (score s) (diamondsCollected s)
    (gameWon s) (explosionRadius s) (explosionFrame s) (lastExplosionUpdate s)
    (explosionX s) (explosionY s) (exitX s) (exitY s) (exitRevealed s)
    (exitAppearTime s) (cameraX s) (cameraY s) (targetCameraX s)
    (targetCameraY s) (soundCalls s) (randomStream s) (randomCalls s)
    (clockStream s) (clockCalls s).
Definition set_playerY (v : Z) (s : Game) : Game :=
  mkGame (lastTime s) (lastPlayerMoveTime s) (timeRemaining s)
    (isTimeWarning s) (lastTimeUpdate s) (grid s) (playerX s) v
    (playerAnimFrame s) (playerFacingLeft s) (lastAnimUpdate s)
    (lastPhysicsUpdate s) (gameOver s) (score s) (diamondsCollected s)
    (gameWon s) (explosionRadius s) (explosionFrame s) (lastExplosionUpdate s)
    (explosionX s) (explosionY s) (exitX s) (exitY s) (exitRevealed s)
    (exitAppearTime s) (cameraX s) (cameraY s) (targetCameraX s)
    (targetCameraY s) (soundCalls s) (randomStream s) (randomCalls s)
    (clockStream s) (clockCalls s).
Definition set_playerAnimFrame (v : Z) (s : Game) : Game :=
  mkGame (lastTime s) (lastPlayerMoveTime s) (timeRemaining s)
    (isTimeWarning s) (lastTimeUpdate s) (grid s) (playerX s) (playerY s) v
    (playerFacingLeft s) (lastAnimUpdate s) (lastPhysicsUpdate s) (gameOver s)
    (score s) (diamondsCollected s) (gameWon s) (explosionRadius s)
    (explosionFrame s) (lastExplosionUpdate s) (explosionX s) (explosionY s)
    (exitX s) (exitY s) (exitRevealed s) (exitAppearTime s) (cameraX s)
    (cameraY s) (targetCameraX s) (targetCameraY s) (soundCalls s)
    (randomStream s) (randomCalls s) (clockStream s) (clockCalls s).
Definition set_playerFacingLeft (v : bool) (s : Game) : Game :=
  mkGame (lastTime s) (lastPlayerMoveTime s) (timeRemaining s)
    (isTimeWarning s) (lastTimeUpdate s) (grid s) (playerX s) (playerY s)
    (playerAnimFrame s) v (lastAnimUpdate s) (lastPhysicsUpdate s)
    (gameOver s) (score s) (diamondsCollected s) (gameWon s)
    (explosionRadius s) (explosionFrame s) (lastExplosionUpdate s)
    (explosionX s) (explosionY s) (exitX s) (exitY s) (exitRevealed s)
    (exitAppearTime s) (cameraX s) (cameraY s) (targetCameraX s)
    (targetCameraY s) (soundCalls s) (randomStream s) (randomCalls s)
    (clockStream s) (clockCalls s).
Definition set_lastAnimUpdate (v : Q) (s : Game) : Game :=
  mkGame (lastTime s) (lastPlayerMoveTime s) (timeRemaining s)
    (isTimeWarning s) (lastTimeUpdate s) (grid s) (playerX s) (playerY s)
    (playerAnimFrame s) (playerFacingLeft s) v (lastPhysicsUpdate s)
    (gameOver s) (score s) (diamondsCollected s) (gameWon s)
    (explosionRadius s) (explosionFrame s) (lastExplosionUpdate s)
    (explosionX s) (explosionY s) (exitX s) (exitY s) (exitRevealed s)
    (exitAppearTime s) (cameraX s) (cameraY s) (targetCameraX s)
    (targetCameraY s) (soundCalls s) (randomStream s) (randomCalls s)
    (clockStream s) (clockCalls s).
Definition set_lastPhysicsUpdate (v : Q) (s : Game) : Game :=
  mkGame (lastTime s) (lastPlayerMoveTime s) (timeRemaining s)
    (isTimeWarning s) (lastTimeUpdate s) (grid s) (playerX s) (playerY s)
    (playerAnimFrame s) (playerFacingLeft s) (lastAnimUpdate s) v (gameOver s)
    (score s) (diamondsCollected s) (gameWon s) (explosionRadius s)
    (explosionFrame s) (lastExplosionUpdate s) (explosionX s) (explosionY s)
    (exitX s) (exitY s) (exitRevealed s) (exitAppearTime s) (cameraX s)
    (cameraY s) (targetCameraX s) (targetCameraY s) (soundCalls s)
    (randomStream s) (randomCalls s) (clockStream s) (clockCalls s).
Definition set_gameOver (v : bool) (s : Game) : Game :=
  mkGame (lastTime s) (lastPlayerMoveTime s) (timeRemaining s)
    (isTimeWarning s) (lastTimeUpdate s) (grid s) (playerX s) (playerY s)
    (playerAnimFrame s) (playerFacingLeft s) (lastAnimUpdate s)
    (lastPhysicsUpdate s) v (score s) (diamondsCollected s) (gameWon s)
    (explosionRadius s) (explosionFrame s) (lastExplosionUpdate s)
    (explosionX s) (explosionY s) (exitX s) (exitY s) (exitRevealed s)
    (exitAppearTime s) (cameraX s) (cameraY s) (targetCameraX s)
    (targetCameraY s) (soundCalls s) (randomStream s) (randomCalls s)
    (clockStream s) (clockCalls s).
Definition set_score (v : Z) (s : Game) : Game :=
  mkGame (lastTime s) (lastPlayerMoveTime s) (timeRemaining s)
    (isTimeWarning s) (lastTimeUpdate s) (grid s) (playerX s) (playerY s)
    (playerAnimFrame s) (playerFacingLeft s) (lastAnimUpdate s)
    (lastPhysicsUpdate s) (gameOver s) v (diamondsCollected s) (gameWon s)
    (explosionRadius s) (explosionFrame s) (lastExplosionUpdate s)
    (explosionX s) (explosionY s) (exitX s) (exitY s) (exitRevealed s)
    (exitAppearTime s) (cameraX s) (cameraY s) (targetCameraX s)
    (targetCameraY s) (soundCalls s) (randomStream s) (randomCalls s)
    (clockStream s) (clockCalls s).
Definition set_diamondsCollected (v : Z) (s : Game) : Game :=
  mkGame (lastTime s) (lastPlayerMoveTime s) (timeRemaining s)
    (isTimeWarning s) (lastTimeUpdate s) (grid s) (playerX s) (playerY s)
    (playerAnimFrame s) (playerFacingLeft s) (lastAnimUpdate s)
    (lastPhysicsUpdate s) (gameOver s) (score s) v (gameWon s)
    (explosionRadius s) (explosionFrame s) (lastExplosionUpdate s)
    (explosionX s) (explosionY s) (exitX s) (exitY s) (exitRevealed s)
    (exitAppearTime s) (cameraX s) (cameraY s) (targetCameraX s)
    (targetCameraY s) (soundCalls s) (randomStream s) (randomCalls s)
    (clockStream s) (clockCalls s).
Definition set_gameWon (v : bool) (s : Game) : Game :=
  mkGame (lastTime s) (lastPlayerMoveTime s) (timeRemaining s)
    (isTimeWarning s) (lastTimeUpdate s) (grid s) (playerX s) (playerY s)
    (playerAnimFrame s) (playerFacingLeft s) (lastAnimUpdate s)
    (lastPhysicsUpdate s) (gameOver s) (score s) (diamondsCollected s) v
    (explosionRadius s) (explosionFrame s) (lastExplosionUpdate s)
    (explosionX s) (explosionY s) (exitX s) (exitY s) (exitRevealed s)
    (exitAppearTime s) (cameraX s) (cameraY s) (targetCameraX s)
    (targetCameraY s) (soundCalls s) (randomStream s) (randomCalls s)
    (clockStream s) (clockCalls s).
Definition set_explosionRadius (v : Z) (s : Game) : Game :=
  mkGame (lastTime s) (lastPlayerMoveTime s) (timeRemaining s)
    (isTimeWarning s) (lastTimeUpdate s) (grid s) (playerX s) (playerY s)
    (playerAnimFrame s) (playerFacingLeft s) (lastAnimUpdate s)
    (lastPhysicsUpdate s) (gameOver s) (score s) (diamondsCollected s)
    (gameWon s) v (explosionFrame s) (lastExplosionUpdate s) (explosionX s)
    (explosionY s) (exitX s) (exitY s) (exitRevealed s) (exitAppearTime s)
    (cameraX s) (cameraY s) (targetCameraX s) (targetCameraY s) (soundCalls s)
    (randomStream s) (randomCalls s) (clockStream s) (clockCalls s).
Definition set_explosionFrame (v : Z) (s : Game) : Game :=
  mkGame (lastTime s) (lastPlayerMoveTime s) (timeRemaining s)
    (isTimeWarning s) (lastTimeUpdate s) (grid s) (playerX s) (playerY s)
    (playerAnimFrame s) (playerFacingLeft s) (lastAnimUpdate s)
    (lastPhysicsUpdate s) (gameOver s) (score s) (diamondsCollected s)
    (gameWon s) (explosionRadius s) v (lastExplosionUpdate s) (explosionX s)
    (explosionY s) (exitX s) (exitY s) (exitRevealed s) (exitAppearTime s)
    (cameraX s) (cameraY s) (targetCameraX s) (targetCameraY s) (soundCalls s)
    (randomStream s) (randomCalls s) (clockStream s) (clockCalls s).
Definition set_lastExplosionUpdate (v : Q) (s : Game) : Game :=
  mkGame (lastTime s) (lastPlayerMoveTime s) (timeRemaining s)
    (isTimeWarning s) (lastTimeUpdate s) (grid s) (playerX s) (playerY s)
    (playerAnimFrame s) (playerFacingLeft s) (lastAnimUpdate s)
    (lastPhysicsUpdate s) (gameOver s) (score s) (diamondsCollected s)
    (gameWon s) (explosionRadius s) (explosionFrame s) v (explosionX s)
    (explosionY s) (exitX s) (exitY s) (exitRevealed s) (exitAppearTime s)
    (cameraX s) (cameraY s) (targetCameraX s) (targetCameraY s) (soundCalls s)
    (randomStream s) (randomCalls s) (clockStream s) (clockCalls s).
Definition set_explosionX (v : Z) (s : Game) : Game :=
  mkGame (lastTime s) (lastPlayerMoveTime s) (timeRemaining s)
    (isTimeWarning s) (lastTimeUpdate s) (grid s) (playerX s) (playerY s)
    (playerAnimFrame s) (playerFacingLeft s) (lastAnimUpdate s)
    (lastPhysicsUpdate s) (gameOver s) (score s) (diamondsCollected s)
    (gameWon s) (explosionRadius s) (explosionFrame s) (lastExplosionUpdate s)
    v (explosionY s) (exitX s) (exitY s) (exitRevealed s) (exitAppearTime s)
    (cameraX s) (cameraY s) (targetCameraX s) (targetCameraY s) (soundCalls s)
    (randomStream s) (randomCalls s) (clockStream s) (clockCalls s).
Definition set_explosionY (v : Z) (s : Game) : Game :=
  mkGame (lastTime s) (lastPlayerMoveTime s) (timeRemaining s)
    (isTimeWarning s) (lastTimeUpdate s) (grid s) (playerX s) (playerY s)
    (playerAnimFrame s) (playerFacingLeft s) (lastAnimUpdate s)
    (lastPhysicsUpdate s) (gameOver s) (score s) (diamondsCollected s)
    (gameWon s) (explosionRadius s) (explosionFrame s) (lastExplosionUpdate s)
    (explosionX s) v (exitX s) (exitY s) (exitRevealed s) (exitAppearTime s)
    (cameraX s) (cameraY s) (targetCameraX s) (targetCameraY s) (soundCalls s)
    (randomStream s) (randomCalls s) (clockStream s) (clockCalls s).
Definition set_exitX (v : Z) (s : Game) : Game :=
  mkGame (lastTime s) (lastPlayerMoveTime s) (timeRemaining s)
    (isTimeWarning s) (lastTimeUpdate s) (grid s) (playerX s) (playerY s)
    (playerAnimFrame s) (playerFacingLeft s) (lastAnimUpdate s)
    (lastPhysicsUpdate s) (gameOver s) (score s) (diamondsCollected s)
    (gameWon s) (explosionRadius s) (explosionFrame s) (lastExplosionUpdate s)
    (explosionX s) (explosionY s) v (exitY s) (exitRevealed s)
    (exitAppearTime s) (cameraX s) (cameraY s) (targetCameraX s)
    (targetCameraY s) (soundCalls s) (randomStream s) (randomCalls s)
    (clockStream s) (clockCalls s).
Definition set_exitY (v : Z) (s : Game) : Game :=
  mkGame (lastTime s) (lastPlayerMoveTime s) (timeRemaining s)
    (isTimeWarning s) (lastTimeUpdate s) (grid s) (playerX s) (playerY s)
    (playerAnimFrame s) (playerFacingLeft s) (lastAnimUpdate s)
    (lastPhysicsUpdate s) (gameOver s) (score s) (diamondsCollected s)
    (gameWon s) (explosionRadius s) (explosionFrame s) (lastExplosionUpdate s)
    (explosionX s) (explosionY s) (exitX s) v (exitRevealed s)
    (exitAppearTime s) (cameraX s) (cameraY s) (targetCameraX s)
    (targetCameraY s) (soundCalls s) (randomStream s) (randomCalls s)
    (clockStream s) (clockCalls s).
Definition set_exitRevealed (v : bool) (s : Game) : Game :=
  mkGame (lastTime s) (lastPlayerMoveTime s) (timeRemaining s)
    (isTimeWarning s) (lastTimeUpdate s) (grid s) (playerX s) (playerY s)
    (playerAnimFrame s) (playerFacingLeft s) (lastAnimUpdate s)
    (lastPhysicsUpdate s) (gameOver s) (score s) (diamondsCollected s)
    (gameWon s) (explosionRadius s) (explosionFrame s) (lastExplosionUpdate s)
    (explosionX s) (explosionY s) (exitX s) (exitY s) v (exitAppearTime s)
    (cameraX s) (cameraY s) (targetCameraX s) (targetCameraY s) (soundCalls s)
    (randomStream s) (randomCalls s) (clockStream s) (clockCalls s).
Definition set_exitAppearTime (v : Q) (s : Game) : Game :=
  mkGame (lastTime s) (lastPlayerMoveTime s) (timeRemaining s)
    (isTimeWarning s) (lastTimeUpdate s) (grid s) (playerX s) (playerY s)
    (playerAnimFrame s) (playerFacingLeft s) (lastAnimUpdate s)
    (lastPhysicsUpdate s) (gameOver s) (score s) (diamondsCollected s)
    (gameWon s) (explosionRadius s) (explosionFrame s) (lastExplosionUpdate s)
    (explosionX s) (explosionY s) (exitX s) (exitY s) (exitRevealed s) v
    (cameraX s) (cameraY s) (targetCameraX s) (targetCameraY s) (soundCalls s)
    (randomStream s) (randomCalls s) (clockStream s) (clockCalls s).
Definition set_cameraX (v : Q) (s : Game) : Game :=
  mkGame (lastTime s) (lastPlayerMoveTime s) (timeRemaining s)
    (isTimeWarning s) (lastTimeUpdate s) (grid s) (playerX s) (playerY s)
    (playerAnimFrame s) (playerFacingLeft s) (lastAnimUpdate s)
    (lastPhysicsUpdate s) (gameOver s) (score s) (diamondsCollected s)
    (gameWon s) (explosionRadius s) (explosionFrame s) (lastExplosionUpdate s)
    (explosionX s) (explosionY s) (exitX s) (exitY s) (exitRevealed s)
    (exitAppearTime s) v (cameraY s) (targetCameraX s) (targetCameraY s)
    (soundCalls s) (randomStream s) (randomCalls s) (clockStream s)
    (clockCalls s).
Definition set_cameraY (v : Q) (s : Game) : Game :=
  mkGame (lastTime s) (lastPlayerMoveTime s) (timeRemaining s)
    (isTimeWarning s) (lastTimeUpdate s) (grid s) (playerX s) (playerY s)
    (playerAnimFrame s) (playerFacingLeft s) (lastAnimUpdate s)
    (lastPhysicsUpdate s) (gameOver s) (score s) (diamondsCollected s)
    (gameWon s) (explosionRadius s) (explosionFrame s) (lastExplosionUpdate s)
    (explosionX s) (explosionY s) (exitX s) (exitY s) (exitRevealed s)
    (exitAppearTime s) (cameraX s) v (targetCameraX s) (targetCameraY s)
    (soundCalls s) (randomStream s) (randomCalls s) (clockStream s)
    (clockCalls s).
Definition set_targetCameraX (v : Q) (s : Game) : Game :=
  mkGame (lastTime s) (lastPlayerMoveTime s) (timeRemaining s)
    (isTimeWarning s) (lastTimeUpdate s) (grid s) (playerX s) (playerY s)
    (playerAnimFrame s) (playerFacingLeft s) (lastAnimUpdate s)
    (lastPhysicsUpdate s) (gameOver s) (score s) (diamondsCollected s)
    (gameWon s) (explosionRadius s) (explosionFrame s) (lastExplosionUpdate s)
    (explosionX s) (explosionY s) (exitX s) (exitY s) (exitRevealed s)
    (exitAppearTime s) (cameraX s) (cameraY s) v (targetCameraY s)
    (soundCalls s) (randomStream s) (randomCalls s) (clockStream s)
    (clockCalls s).
Definition set_targetCameraY (v : Q) (s : Game) : Game :=
  mkGame (lastTime s) (lastPlayerMoveTime s) (timeRemaining s)
    (isTimeWarning s) (lastTimeUpdate s) (grid s) (playerX s) (playerY s)
    (playerAnimFrame s) (playerFacingLeft s) (lastAnimUpdate s)
    (lastPhysicsUpdate s) (gameOver s) (score s) (diamondsCollected s)
    (gameWon s) (explosionRadius s) (explosionFrame s) (lastExplosionUpdate s)
    (explosionX s) (explosionY s) (exitX s) (exitY s) (exitRevealed s)
    (exitAppearTime s) (cameraX s) (cameraY s) (targetCameraX s) v
    (soundCalls s) (randomStream s) (randomCalls s) (clockStream s)
    (clockCalls s).
Definition set_soundCalls (v : list SoundCall) (s : Game) : Game :=
  mkGame (lastTime s) (lastPlayerMoveTime s) (timeRemaining s)
    (isTimeWarning s) (lastTimeUpdate s) (grid s) (playerX s) (playerY s)
    (playerAnimFrame s) (playerFacingLeft s) (lastAnimUpdate s)
    (lastPhysicsUpdate s) (gameOver s) (score s) (diamondsCollected s)
    (gameWon s) (explosionRadius s) (explosionFrame s) (lastExplosionUpdate s)
    (explosionX s) (explosionY s) (exitX s) (exitY s) (exitRevealed s)
    (exitAppearTime s) (cameraX s) (cameraY s) (targetCameraX s)
    (targetCameraY s) v (randomStream s) (randomCalls s) (clockStream s)
    (clockCalls s).
Definition set_randomStream (v : nat → Q) (s : Game) : Game :=
  mkGame (lastTime s) (lastPlayerMoveTime s) (timeRemaining s)
    (isTimeWarning s) (lastTimeUpdate s) (grid s) (playerX s) (playerY s)
    (playerAnimFrame s) (playerFacingLeft s) (lastAnimUpdate s)
    (lastPhysicsUpdate s) (gameOver s) (score s) (diamondsCollected s)
    (gameWon s) (explosionRadius s) (explosionFrame s) (lastExplosionUpdate s)
    (explosionX s) (explosionY s) (exitX s) (exitY s) (exitRevealed s)
    (exitAppearTime s) (cameraX s) (cameraY s) (targetCameraX s)
    (targetCameraY s) (soundCalls s) v (randomCalls s) (clockStream s)
    (clockCalls s).
Definition set_randomCalls (v : nat) (s : Game) : Game :=
  mkGame (lastTime s) (lastPlayerMoveTime s) (timeRemaining s)
    (isTimeWarning s) (lastTimeUpdate s) (grid s) (playerX s) (playerY s)
    (playerAnimFrame s) (playerFacingLeft s) (lastAnimUpdate s)
    (lastPhysicsUpdate s) (gameOver s) (score s) (diamondsCollected s)
    (gameWon s) (explosionRadius s) (explosionFrame s) (lastExplosionUpdate s)
    (explosionX s) (explosionY s) (exitX s) (exitY s) (exitRevealed s)
    (exitAppearTime s) (cameraX s) (cameraY s) (targetCameraX s)
    (targetCameraY s) (soundCalls s) (randomStream s) v (clockStream s)
    (clockCalls s).
Definition set_clockStream (v : nat → Q) (s : Game) : Game :=
  mkGame (lastTime s) (lastPlayerMoveTime s) (timeRemaining s)
    (isTimeWarning s) (lastTimeUpdate s) (grid s) (playerX s) (playerY s)
    (playerAnimFrame s) (playerFacingLeft s) (lastAnimUpdate s)
    (lastPhysicsUpdate s) (gameOver s) (score s) (diamondsCollected s)
    (gameWon s) (explosionRadius s) (explosionFrame s) (lastExplosionUpdate s)
    (explosionX s) (explosionY s) (exitX s) (exitY s) (exitRevealed s)
    (exitAppearTime s) (cameraX s) (cameraY s) (targetCameraX s)
    (targetCameraY s) (soundCalls s) (randomStream s) (randomCalls s) v
    (clockCalls s).
Definition set_clockCalls (v : nat) (s : Game) : Game :=
  mkGame (lastTime s) (lastPlayerMoveTime s) (timeRemaining s)
    (isTimeWarning s) (lastTimeUpdate s) (grid s) (playerX s) (playerY s)
    (playerAnimFrame s) (playerFacingLeft s) (lastAnimUpdate s)
    (lastPhysicsUpdate s) (gameOver s) (score s) (diamondsCollected s)
    (gameWon s) (explosionRadius s) (explosionFrame s) (lastExplosionUpdate s)
    (explosionX s) (explosionY s) (exitX s) (exitY s) (exitRevealed s)
    (exitAppearTime s) (cameraX s) (cameraY s) (targetCameraX s)
    (targetCameraY s) (soundCalls s) (randomStream s) (randomCalls s)
    (clockStream s) v.

(** *** Doubles *)

(** JavaScript numbers are IEEE 754 doubles. [round64 x] is the double an
    arithmetic operation returns when its exact result is [x]: the
    nearest number of the form [m * 2^e] with [|m| <= 2^53] and
    [e >= -1074], ties going to the even [m]. Results beyond the largest
    double, where JavaScript returns [Infinity], are not modelled: no
    time or coordinate of the game comes near them. *)

(** Round to the nearest integer, ties to the even one. *)
Definition roundHalfEven (y : Q) : Z :=
  let f := Qfloor y in
  match Qcompare (y - inject_Z f) (1 # 2) with
  | Lt => f
  | Gt => f + 1
  | Eq => if Z.even f then f else f + 1
  end.

(** [floor (log2 x)] for [x > 0]. *)
Definition floorLog2 (x : Q) : Z :=
  let l := Z.log2 (Qnum x) - Z.log2 (Zpos (Qden x)) in
  if Qle_bool (2 ^ l) x then l else l - 1.

(** The exponent of the last mantissa bit of the doubles around [x > 0]. *)
Definition ulpExponent (x : Q) : Z := Z.max (floorLog2 x - 52) (-1074).

Definition roundPos (x : Q) : Q :=
  let e := ulpExponent x in
  (inject_Z (roundHalfEven (x * 2 ^ (- e))) * 2 ^ e)%Q.

Definition round64 (x : Q) : Q :=
  match Qcompare x 0 with
  | Eq => 0%Q
  | Gt => roundPos x
  | Lt => (- roundPos (- x))%Q
  end.

(** [a + b], [a - b], [a * b] and [a / b] on doubles. *)
Definition jsAdd (a b : Q) : Q := round64 (a + b).
Definition jsSub (a b : Q) : Q := round64 (a - b).
Definition jsMul (a b : Q) : Q := round64 (a * b).
Definition jsDiv (a b : Q) : Q := round64 (a / b).

(** The double a decimal literal such as [0.7] denotes. *)
Definition literal (q : Q) : Q := round64 q.

(** *** Configuration constants *)

Definition GRID_WIDTH : Z := 100.
Definition GRID_HEIGHT : Z := 60.
Definition VIEWPORT_WIDTH : Z := 32.
Definition VIEWPORT_HEIGHT : Z := 20.
Definition TIME_LIMIT : Z := 300.
Definition TIME_WARNING_THRESHOLD : Z := 60.
Definition PHYSICS_UPDATE_INTERVAL : Q := 225.
Definition DIAMONDS_REQUIRED : Z := 25.
Definition POINTS_PER_DIAMOND : Z := 100.
Definition CAMERA_LERP_SPEED : Q := 5.
Definition CAMERA_DEADZONE : Q := literal (1 # 100).

(** *** Number helpers *)

(** [a < b] and [a <= b] on fractional numbers. *)
Definition Qleb (a b : Q) : bool := Qle_bool a b.
Definition Qltb (a b : Q) : bool := negb (Qle_bool b a).

(** [Math.max(0, Math.min(v, hi))]. *)
Definition clampQ (v hi : Q) : Q := Qmax 0 (Qmin v hi).

(** [n - 1, n - 2, ..., 0]: the values of [i] in
    [for (i = n - 1; i >= 0; i--)]. *)
Fixpoint countDown (n : nat) : list Z :=
  match n with
  | O => []
  | S k => Z.of_nat k :: countDown k
  end.

(** The values of [i] in [for (i = hi; i >= 0; i--)]. *)
Definition downFrom (hi : Z) : list Z := countDown (Z.to_nat (hi + 1)).

(** The values of [i] in [for (i = lo; i < hi; i++)]. *)
Definition upTo (lo hi : Z) : list Z := seqZ lo (hi - lo).

(** *** Oracles and sound calls *)

(** [Math.random()]. *)
Definition Math_random (s : Game) : Q * Game :=
  (randomStream s (randomCalls s), set_randomCalls (S (randomCalls s)) s).

(** [performance.now()]. *)
Definition performance_now (s : Game) : Q * Game :=
  (clockStream s (clockCalls s), set_clockCalls (S (clockCalls s)) s).

Definition soundPlay (name : Sound) (s : Game) : Game :=
  set_soundCalls (Play name :: soundCalls s) s.

Definition soundStop (name : Sound) (s : Game) : Game :=
  set_soundCalls (Stop name :: soundCalls s) s.

Definition soundToggleMute (s : Game) : Game :=
  set_soundCalls (ToggleMute :: soundCalls s) s.

(** [Math.floor(Math.random() * n) + k]. *)
Definition randomCell (n k : Z) (s : Game) : Z * Game :=
  let '(r, s1) := Math_random s in
  (Qfloor (jsMul r (inject_Z n)) + k, s1).

(** *** updateCameraPosition *)

Definition updateCameraPosition (s : Game) : Game :=
  let s1 := set_cameraX (inject_Z (playerX s - VIEWPORT_WIDTH / 2)) s in
  let s2 := set_cameraY (inject_Z (playerY s1 - VIEWPORT_HEIGHT / 2)) s1 in
  let s3 := set_cameraX (clampQ (cameraX s2) (inject_Z (GRID_WIDTH - VIEWPORT_WIDTH))) s2 in
  set_cameraY (clampQ (cameraY s3) (inject_Z (GRID_HEIGHT - VIEWPORT_HEIGHT))) s3.

(** *** initializeLevel *)

Definition setTileG (x y : Z) (type : TileType) (s : Game) : Game :=
  set_grid (setTile (grid s) x y type) s.

(** [Math.abs(x - playerX) <= d && Math.abs(y - playerY) <= d]. *)
Definition nearPlayer (d x y : Z) (s : Game) : bool :=
  (Z.abs (x - playerX s) <=? d) && (Z.abs (y - playerY s) <=? d).

Definition wallRows (s : Game) : Game :=
  foldl (λ s x,
           setTileG x (getHeight (grid s) - 1) WALL (setTileG x 0 WALL s))
        s (upTo 0 (getWidth (grid s))).

Definition wallColumns (s : Game) : Game :=
  foldl (λ s y,
           setTileG (getWidth (grid s) - 1) y WALL (setTileG 0 y WALL s))
        s (upTo 0 (getHeight (grid s))).

Definition placePlayer (s : Game) : Game :=
  let '(px, s1) := randomCell (getWidth (grid s) - 4) 2 s in
  let s2 := set_playerX px s1 in
  let '(py, s3) := randomCell (getHeight (grid s2) - 4) 2 s2 in
  set_playerY py s3.

(** Body of the terrain loops. A cell that draws neither dirt nor a
    boulder is not written. *)
Definition terrainCell (s : Game) (c : Z * Z) : Game :=
  let '(x, y) := c in
  if nearPlayer 1 x y s then s
  else
    let '(r1, s1) := Math_random s in
    if Qltb r1 (literal (7 # 10)) then setTileG x y DIRT s1
    else
      let '(r2, s2) := Math_random s1 in
      if Qltb r2 (literal (3 # 10)) then setTileG x y BOULDER s2 else s2.

(** Cells in the order of
    [for (y = 1; y < h - 1; y++) for (x = 1; x < w - 1; x++)]. *)
Definition interiorCells (g : Grid) : list (Z * Z) :=
  y ← upTo 1 (getHeight g - 1); x ← upTo 1 (getWidth g - 1); [(x, y)].

Definition addTerrain (s : Game) : Game :=
  foldl terrainCell s (interiorCells (grid s)).

(** The [do ... while] that draws a diamond cell away from the player.
    [fuel] bounds the number of rounds. *)
Fixpoint pickDiamondCell (fuel : nat) (s : Game) : option (Z * Z * Game) :=
  match fuel with
  | O => None
  | S fuel' =>
      let '(x, s1) := randomCell (getWidth (grid s) - 2) 1 s in
      let '(y, s2) := randomCell (getHeight (grid s1) - 2) 1 s1 in
      if nearPlayer 1 x y s2 then pickDiamondCell fuel' s2
      else Some (x, y, s2)
  end.

(** Number of rounds of [for (i = 0; i < DIAMONDS_REQUIRED * 1.5; i++)]. *)
Definition diamondRounds : nat :=
  Z.to_nat (Qceiling (inject_Z DIAMONDS_REQUIRED * (3 # 2))).

Fixpoint addDiamonds (rounds fuel : nat) (s : Game) : option Game :=
  match rounds with
  | O => Some s
  | S rounds' =>
      match pickDiamondCell fuel s with
      | None => None
      | Some (x, y, s1) => addDiamonds rounds' fuel (setTileG x y DIAMOND s1)
      end
  end.

Definition clearSpawn (s : Game) : Game :=
  foldl (λ s d, setTileG (playerX s + snd d) (playerY s + fst d) EMPTY s) s
        (dy ← upTo (-1) 2; dx ← upTo (-1) 2; [(dy, dx)]).

Definition initializeLevel (fuel : nat) (s : Game) : option Game :=
  let s1 := wallColumns (wallRows s) in
  let s2 := placePlayer s1 in
  let s3 := updateCameraPosition s2 in
  let s4 := addTerrain s3 in
  match addDiamonds diamondRounds fuel s4 with
  | None => None
  | Some s5 => Some (clearSpawn s5)
  end.

(** *** revealExit and collectDiamond *)

(** A candidate the loop of [revealExit] draws again. *)
Definition exitRejected (s : Game) : bool :=
  nearPlayer 2 (exitX s) (exitY s) s
  || tile_eqb (getTile (grid s) (exitX s) (exitY s - 1)) BOULDER.

(** Body of the [do ... while] of [revealExit]: one candidate. *)
Definition drawExit (s : Game) : Game :=
  let '(ex, s1) := randomCell (getWidth (grid s) - 4) 2 s in
  let s2 := set_exitX ex s1 in
  let '(ey, s3) := randomCell (getHeight (grid s2) - 4) 2 s2 in
  set_exitY ey s3.

(** The loop; [fuel] bounds the number of rounds. *)
Fixpoint pickExit (fuel : nat) (s : Game) : option Game :=
  match fuel with
  | O => None
  | S fuel' =>
      let s1 := drawExit s in
      if exitRejected s1 then pickExit fuel' s1 else Some s1
  end.

Definition revealExit (fuel : nat) (s : Game) : option Game :=
  match pickExit fuel s with
  | None => None
  | Some s1 =>
      let s2 := set_exitRevealed true s1 in
      let '(now, s3) := performance_now s2 in
      let s4 := set_exitAppearTime now s3 in
      let s5 := setTileG (exitX s4) (exitY s4) EXIT s4 in
      Some (soundPlay portal s5)
  end.

Definition collectDiamond (fuel : nat) (s : Game) : option Game :=
  let s1 := set_score (score s + POINTS_PER_DIAMOND) s in
  let s2 := set_diamondsCollected (diamondsCollected s1 + 1) s1 in
  if (DIAMONDS_REQUIRED <=? diamondsCollected s2) && negb (exitRevealed s2)
  then
    match revealExit fuel s2 with
    | None => None
    | Some s3 => Some (soundPlay diamond s3)
    end
  else Some s2.

(** *** resetGame *)

Definition resetGame (fuel : nat) (s : Game) : option Game :=
  let s := soundStop timeWarning s in
  let s := setTileG (playerX s) (playerY s) EMPTY s in
  let s := set_score 0 s in
  let s := set_diamondsCollected 0 s in
  let s := set_gameOver false s in
  let s := set_gameWon false s in
  let s := set_playerX 1 s in
  let s := set_playerY 1 s in
  let s := set_playerAnimFrame 0 s in
  let s := set_playerFacingLeft false s in
  let s := set_lastAnimUpdate 0%Q s in
  let s := set_lastPhysicsUpdate 0%Q s in
  let s := set_lastPlayerMoveTime 0%Q s in
  let s := set_lastTime 0%Q s in
  let s := set_timeRemaining TIME_LIMIT s in
  let s := set_isTimeWarning false s in
  let s := set_lastTimeUpdate 0%Q s in
  let s := set_exitRevealed false s in
  let s := set_exitX (-1) s in
  let s := set_exitY (-1) s in
  let s := set_exitAppearTime 0%Q s in
  initializeLevel fuel s.

(** *** tryPushBoulder and canMoveTo *)

Definition tryPushBoulder (x y direction : Z) (s : Game) : Game :=
  let nextX := x + direction in
  if tile_eqb (getTile (grid s) x y) BOULDER
     && tile_eqb (getTile (grid s) nextX y) EMPTY
  then soundPlay boulder (setTileG nextX y BOULDER (setTileG x y EMPTY s))
  else s.

Definition canMoveTo (x y : Z) (s : Game) : bool :=
  let tile := getTile (grid s) x y in
  tile_eqb tile EMPTY || tile_eqb tile DIRT || tile_eqb tile DIAMOND
  || tile_eqb tile EXIT.

(** *** handleInput *)

(** [event.key]: m or M, r or R, the four arrows, anything else. *)
Inductive Key : Set :=
  | KeyM | KeyR | ArrowLeft | ArrowRight | ArrowUp | ArrowDown | OtherKey.

#[global] Instance Key_eq_dec : EqDecision Key.
Proof. solve_decision. Defined.

(** The [switch]: the destination, and the facing it leaves. *)
Definition applyKey (key : Key) (s : Game) : Z * Z * Game :=
  match key with
  | ArrowLeft => (playerX s - 1, playerY s, set_playerFacingLeft true s)
  | ArrowRight => (playerX s + 1, playerY s, set_playerFacingLeft false s)
  | ArrowUp => (playerX s, playerY s - 1, s)
  | ArrowDown => (playerX s, playerY s + 1, s)
  | _ => (playerX s, playerY s, s)
  end.

(** The tail of [handleInput] once the tile effects are done. *)
Definition stepTo (key : Key) (newX newY : Z) (s : Game) : Game :=
  let s1 := setTileG newX newY EMPTY s in
  let s2 := set_playerX newX s1 in
  let s3 := set_playerY newY s2 in
  let s4 := set_playerAnimFrame ((playerAnimFrame s3 + 1) mod 4) s3 in
  let '(now, s5) := performance_now s4 in
  let s6 := set_lastPlayerMoveTime now s5 in
  let s7 := updateCameraPosition s6 in
  match key with
  | ArrowLeft => tryPushBoulder newX newY (-1) s7
  | ArrowRight => tryPushBoulder newX newY 1 s7
  | _ => s7
  end.

Definition handleInput (fuel : nat) (key : Key) (s : Game) : option Game :=
  match key with
  | KeyM => Some (soundToggleMute s)
  | KeyR => resetGame fuel s
  | _ =>
      if gameOver s || gameWon s then Some s
      else
        let '(newX, newY, s1) := applyKey key s in
        if canMoveTo newX newY s1 then
          let targetTile := getTile (grid s1) newX newY in
          if tile_eqb targetTile DIAMOND then
            match collectDiamond fuel s1 with
            | None => None
            | Some s2 => Some (stepTo key newX newY (soundPlay diamond s2))
            end
          else if tile_eqb targetTile DIRT then
            Some (stepTo key newX newY (soundPlay walk s1))
          else if tile_eqb targetTile EXIT && exitRevealed s1 then
            Some (soundPlay victory (soundStop timeWarning (set_gameWon true s1)))
          else Some (stepTo key newX newY s1)
        else Some s1
  end.

(** *** startExplosion and updatePhysics *)

Definition startExplosion (s : Game) : Game :=
  if gameOver s then s
  else
    let s1 := set_gameOver true s in
    let s2 := set_explosionRadius 0 s1 in
    let s3 := set_explosionFrame 0 s2 in
    let s4 := set_explosionX (playerX s3) s3 in
    let s5 := set_explosionY (playerY s4) s4 in
    let '(now, s6) := performance_now s5 in
    soundPlay explosion (set_lastExplosionUpdate now s6).

(** The grace-period test guarding both crush checks. *)
Definition crushAfterGrace (s : Game) : Game :=
  let '(now, s1) := performance_now s in
  let timeSinceLastMove := jsSub now (lastPlayerMoveTime s1) in
  if Qleb PHYSICS_UPDATE_INTERVAL timeSinceLastMove then startExplosion s1
  else s1.

Definition canFall (x y : Z) (s : Game) : bool :=
  tile_eqb (getTile (grid s) x (y + 1)) EMPTY
  && negb ((x =? playerX s) && (y + 1 =? playerY s)).

(** Roll towards [x + d]: [d = -1] is left, [d = 1] is right. *)
Definition canRoll (d x y : Z) (s : Game) : bool :=
  negb (tile_eqb (getTile (grid s) x (y + 1)) EMPTY)
  && tile_eqb (getTile (grid s) (x + d) y) EMPTY
  && tile_eqb (getTile (grid s) (x + d) (y + 1)) EMPTY
  && negb ((x + d =? playerX s) && (y =? playerY s))
  && negb ((x + d =? playerX s) && (y + 1 =? playerY s)).

(** Body of the scan for the cell (x, y). The local [somethingMoved] is
    only ever written, so it is not carried. *)
Definition physicsCell (s : Game) (c : Z * Z) : Game :=
  let '(x, y) := c in
  let currentTile := getTile (grid s) x y in
  if tile_eqb currentTile BOULDER || tile_eqb currentTile DIAMOND then
    if canFall x y s then
      let s1 := setTileG x y EMPTY s in
      let s2 := setTileG x (y + 1) currentTile s1 in
      let s3 :=
        if tile_eqb currentTile BOULDER
           && negb (tile_eqb (getTile (grid s2) x (y + 2)) EMPTY)
        then soundPlay boulder s2 else s2 in
      if (playerX s3 =? x) && (playerY s3 =? y + 2)
      then crushAfterGrace s3
      else s3
    else if tile_eqb currentTile BOULDER then
      if canRoll (-1) x y s then
        setTileG (x - 1) (y + 1) BOULDER (setTileG x y EMPTY s)
      else if canRoll 1 x y s then
        setTileG (x + 1) (y + 1) BOULDER (setTileG x y EMPTY s)
      else s
    else s
  else s.

(** Cells in the order of
    [for (y = h - 2; y >= 0; y--) for (x = w - 2; x >= 0; x--)]. *)
Definition scanOrder (g : Grid) : list (Z * Z) :=
  y ← downFrom (getHeight g - 2); x ← downFrom (getWidth g - 2); [(x, y)].

Definition scan (cs : list (Z * Z)) (s : Game) : Game := foldl physicsCell s cs.

(** The check after the loops. *)
Definition checkPlayerTile (s : Game) : Game :=
  let tileAtPlayer := getTile (grid s) (playerX s) (playerY s) in
  if tile_eqb tileAtPlayer BOULDER || tile_eqb tileAtPlayer DIAMOND
  then crushAfterGrace s
  else s.

Definition updatePhysics (s : Game) : Game :=
  checkPlayerTile (scan (scanOrder (grid s)) s).

(** *** updateTime *)

Definition updateTime (timestamp : Q) (s : Game) : Game :=
  if gameOver s || gameWon s then
    if isTimeWarning s
    then set_isTimeWarning false (soundStop timeWarning s)
    else s
  else if Qleb 1000 (timestamp - lastTimeUpdate s) then
    let s1 := set_timeRemaining (timeRemaining s - 1) s in
    let s2 := set_lastTimeUpdate timestamp s1 in
    let s3 :=
      if (timeRemaining s2 <=? TIME_WARNING_THRESHOLD) && negb (isTimeWarning s2)
      then soundPlay timeWarning (set_isTimeWarning true s2)
      else s2 in
    if timeRemaining s3 <=? 0 then
      let s4 := set_timeRemaining 0 s3 in
      let s5 := set_gameOver true s4 in
      let s6 := soundStop timeWarning s5 in
      let s7 := set_isTimeWarning false s6 in
      soundPlay explosion s7
    else s3
  else s.

(** *** updateCamera *)

(** One axis of the move: lerp by [d * moveSpeed], then clamp against the
    target. *)
Definition approach (current d target moveSpeed : Q) : Q :=
  let new := jsAdd current (jsMul d moveSpeed) in
  if Qltb 0 d then Qmin new target else Qmax new target.

Definition updateCamera (deltaTime : Q) (s : Game) : Game :=
  let s1 := set_targetCameraX (inject_Z (playerX s - VIEWPORT_WIDTH / 2)) s in
  let s2 := set_targetCameraY (inject_Z (playerY s1 - VIEWPORT_HEIGHT / 2)) s1 in
  let s3 := set_targetCameraX
              (clampQ (targetCameraX s2) (inject_Z (GRID_WIDTH - VIEWPORT_WIDTH))) s2 in
  let s4 := set_targetCameraY
              (clampQ (targetCameraY s3) (inject_Z (GRID_HEIGHT - VIEWPORT_HEIGHT))) s3 in
  let dx := jsSub (targetCameraX s4) (cameraX s4) in
  let dy := jsSub (targetCameraY s4) (cameraY s4) in
  if Qltb CAMERA_DEADZONE (Qabs dx) || Qltb CAMERA_DEADZONE (Qabs dy) then
    let moveSpeed := jsMul CAMERA_LERP_SPEED (jsDiv deltaTime 1000) in
    let newX := approach (cameraX s4) dx (targetCameraX s4) moveSpeed in
    let newY := approach (cameraY s4) dy (targetCameraY s4) moveSpeed in
    let s5 := set_cameraX newX s4 in
    let s6 := set_cameraY newY s5 in
    let s7 := set_cameraX
                (clampQ (cameraX s6) (inject_Z (GRID_WIDTH - VIEWPORT_WIDTH))) s6 in
    set_cameraY (clampQ (cameraY s7) (inject_Z (GRID_HEIGHT - VIEWPORT_HEIGHT))) s7
  else s4.


(** *** updateExplosion *)

Definition EXPLOSION_DURATION : Q := 50.
Definition explosionMaxRadius : Z := 3.

(** Body of the two loops of [updateExplosion] for the offset [(y, x)].
    The offsets and the radius are integers, so
    [Math.sqrt(x * x + y * y) <= radius] is [x * x + y * y <= radius²]. *)
Definition explosionCell (s : Game) (d : Z * Z) : Game :=
  let '(y, x) := d in
  if x * x + y * y <=? explosionRadius s * explosionRadius s then
    let tileX := explosionX s + x in
    let tileY := explosionY s + y in
    if isInBounds (grid s) tileX tileY
       && negb (tile_eqb (getTile (grid s) tileX tileY) WALL)
    then setTileG tileX tileY EMPTY s
    else s
  else s.

(** Offsets in the order of
    [for (y = -r; y <= r; y++) for (x = -r; x <= r; x++)]. *)
Definition explosionOffsets (r : Z) : list (Z * Z) :=
  y ← upTo (- r) (r + 1); x ← upTo (- r) (r + 1); [(y, x)].

Definition updateExplosion (timestamp : Q) (s : Game) : Game :=
  if negb (gameOver s) || (explosionMaxRadius <=? explosionRadius s) then s
  else if Qleb EXPLOSION_DURATION (timestamp - lastExplosionUpdate s) then
    let s1 := set_explosionFrame (explosionFrame s + 1) s in
    let s2 := set_explosionRadius (explosionFrame s1 / 2) s1 in
    let s3 := set_lastExplosionUpdate timestamp s2 in
    if explosionRadius s3 <? explosionMaxRadius
    then foldl explosionCell s3 (explosionOffsets (explosionRadius s3))
    else s3
  else s.

(** *** gameLoop *)

Definition ANIM_FRAME_DURATION : Q := 150.

(** [render] writes no field of the game; it reads [performance.now()]
    once or more per Exit tile it draws. [reads] is the number of those
    readings. *)
Definition render (reads : nat) (s : Game) : Game :=
  set_clockCalls (clockCalls s + reads)%nat s.

(** The animation step of the frame. *)
Definition updateAnimation (timestamp : Q) (s : Game) : Game :=
  if Qleb ANIM_FRAME_DURATION (timestamp - lastAnimUpdate s) then
    let s1 :=
      if 0 <? playerAnimFrame s
      then set_playerAnimFrame ((playerAnimFrame s + 1) mod 4) s
      else s in
    set_lastAnimUpdate timestamp s1
  else s.

(** The physics step of the frame. *)
Definition physicsIfDue (timestamp : Q) (s : Game) : Game :=
  if Qleb PHYSICS_UPDATE_INTERVAL (timestamp - lastPhysicsUpdate s)
  then set_lastPhysicsUpdate timestamp (updatePhysics s)
  else s.

(** One frame. The local [deltaTime] is computed and not used. *)
Definition gameLoop (timestamp : Q) (reads : nat) (s : Game) : Game :=
  let s1 := set_lastTime timestamp s in
  let s2 := updateTime timestamp s1 in
  let s3 := updateExplosion timestamp s2 in
  let s4 := updateAnimation timestamp s3 in
  let s5 := physicsIfDue timestamp s4 in
  render reads s5.


(** *** The event loop

    The constructor registers [handleInput] for key presses and [start]
    schedules [gameLoop] for every animation frame; the browser then calls
    the two in some interleaving. *)

Inductive Event : Type :=
  | Press (key : Key)
  | Frame (timestamp : Q) (reads : nat).

Definition dispatch (fuel : nat) (e : Event) (s : Game) : option Game :=
  match e with
  | Press key => handleInput fuel key s
  | Frame timestamp reads => Some (gameLoop timestamp reads s)
  end.

Fixpoint play (fuel : nat) (events : list Event) (s : Game) : option Game :=
  match events with
  | [] => Some s
  | e :: events' =>
      match dispatch fuel e s with
      | None => None
      | Some s1 => play fuel events' s1
      end
  end.

(** * Notions used in the statements *)

(** [x] is a double: rounding leaves it as it is. *)
Definition isDouble (x : Q) : Prop := (round64 x == x)%Q.

(** A single object moving from [(x, y)] to the empty cell [(x', y + 1)]. *)
Definition moved (g : Grid) (x y x' : Z) (t : TileType) : Grid :=
  setTile (setTile g x y EMPTY) x' (y + 1) t.

(** The three ways a visit can change the grid. *)
Inductive visit_effect (s : Game) (x y : Z) : Grid → Prop :=
  | visit_none :
      visit_effect s x y (grid s)
  | visit_fall t :
      t = BOULDER ∨ t = DIAMOND →
      getTile (grid s) x y = t →
      getTile (grid s) x (y + 1) = EMPTY →
      ¬ (x = playerX s ∧ y + 1 = playerY s) →
      visit_effect s x y (moved (grid s) x y x t)
  | visit_roll d :
      d = -1 ∨ d = 1 →
      getTile (grid s) x y = BOULDER →
      getTile (grid s) x (y + 1) ≠ EMPTY →
      getTile (grid s) (x + d) y = EMPTY →
      getTile (grid s) (x + d) (y + 1) = EMPTY →
      visit_effect s x y (moved (grid s) x y (x + d) BOULDER).

(** One object moves one row down: the Boulder or Diamond of the cell
    [(x, y)] goes to the cell [(x', y + 1)] straight or diagonally below
    it, which holds Empty at that moment. *)
Inductive oneMove (g : Grid) : Grid → Prop :=
  | one_move x y x' t :
      t = BOULDER ∨ t = DIAMOND →
      getTile g x y = t →
      getTile g x' (y + 1) = EMPTY →
      x - 1 <= x' <= x + 1 →
      oneMove g (moved g x y x' t).

(** A sequence of such moves, one after the other. *)
Inductive moves : Grid → Grid → Prop :=
  | moves_none g : moves g g
  | moves_step g g' g'' : moves g g' → oneMove g' g'' → moves g g''.

(** A cell that holds neither an object nor nothing is never written. *)
Definition static (t : TileType) : Prop :=
  t ≠ EMPTY ∧ t ≠ BOULDER ∧ t ≠ DIAMOND.

(** [c1] is visited before [c2]. *)
Definition earlier (c1 c2 : Z * Z) : Prop :=
  c2.2 < c1.2 ∨ (c1.2 = c2.2 ∧ c2.1 < c1.1).

(** The roll towards [x + d] is legal: both cells on that side are Empty
    and the player is in neither. *)
Definition rollLegal (d x y : Z) (s : Game) : Prop :=
  getTile (grid s) (x + d) y = EMPTY ∧
  getTile (grid s) (x + d) (y + 1) = EMPTY ∧
  ¬ (x + d = playerX s ∧ y = playerY s) ∧
  ¬ (x + d = playerX s ∧ y + 1 = playerY s).

(** The time since the player's last move at the clock reading [now], as
    the game computes it: a subtraction of doubles, rounded. *)
Definition timeSinceLastMove (now : Q) (s : Game) : Q :=
  jsSub now (lastPlayerMoveTime s).




(** Successive calls of [updateTime], one per frame. *)
Definition runTimer (ts : list Q) (s : Game) : Game :=
  foldl (λ s t, updateTime t s) s ts.





Definition cameraInBounds (s : Game) : Prop :=
  (0 <= cameraX s ∧ cameraX s <= inject_Z (GRID_WIDTH - VIEWPORT_WIDTH) ∧
   0 <= cameraY s ∧ cameraY s <= inject_Z (GRID_HEIGHT - VIEWPORT_HEIGHT))%Q.

(** A camera position the game stores: a whole number of tiles on each
    axis, within the level. The camera starts at (0,0) and is written
    only by the snap of [updateCameraPosition]. *)
Definition cameraOnTiles (s : Game) : Prop :=
  ∃ cx cy : Z,
    (cameraX s == inject_Z cx)%Q ∧ (cameraY s == inject_Z cy)%Q ∧
    0 <= cx <= GRID_WIDTH - VIEWPORT_WIDTH ∧
    0 <= cy <= GRID_HEIGHT - VIEWPORT_HEIGHT.

(** The camera is where the snap puts it for the player's position. *)
Definition cameraSnapped (s : Game) : Prop :=
  cameraX s = clampQ (inject_Z (playerX s - VIEWPORT_WIDTH / 2))
                     (inject_Z (GRID_WIDTH - VIEWPORT_WIDTH)) ∧
  cameraY s = clampQ (inject_Z (playerY s - VIEWPORT_HEIGHT / 2))
                     (inject_Z (GRID_HEIGHT - VIEWPORT_HEIGHT)).

(** The target the update computes: the player-centred view, clamped. *)
Definition cameraTargetX (s : Game) : Q :=
  clampQ (inject_Z (playerX s - VIEWPORT_WIDTH / 2))
         (inject_Z (GRID_WIDTH - VIEWPORT_WIDTH)).

Definition cameraTargetY (s : Game) : Q :=
  clampQ (inject_Z (playerY s - VIEWPORT_HEIGHT / 2))
         (inject_Z (GRID_HEIGHT - VIEWPORT_HEIGHT)).

(** The [k]-th candidate the loop of [revealExit] would draw. *)
Definition exitCandidate (s : Game) (k : nat) : Z * Z :=
  (Qfloor (jsMul (randomStream s (randomCalls s + 2 * k)%nat)
                  (inject_Z (getWidth (grid s) - 4))) + 2,
   Qfloor (jsMul (randomStream s (randomCalls s + 2 * k + 1)%nat)
                  (inject_Z (getHeight (grid s) - 4))) + 2).

(** A candidate the loop accepts: outside the 2-cell box around the player
    and with no Boulder directly above. *)
Definition candidateOk (s : Game) (c : Z * Z) : Prop :=
  ¬ (Z.abs (c.1 - playerX s) <= 2 ∧ Z.abs (c.2 - playerY s) <= 2) ∧
  getTile (grid s) c.1 (c.2 - 1) ≠ BOULDER.

(** What a round of the loop leaves alone. *)
Definition sameButExit (s s' : Game) : Prop :=
  grid s' = grid s ∧ playerX s' = playerX s ∧ playerY s' = playerY s ∧
  exitRevealed s' = exitRevealed s ∧ score s' = score s ∧
  diamondsCollected s' = diamondsCollected s ∧
  randomStream s' = randomStream s ∧ soundCalls s' = soundCalls s ∧
  clockStream s' = clockStream s ∧ clockCalls s' = clockCalls s.

(** The test in [collectDiamond], on the state before the call. *)
Definition revealDue (s : Game) : bool :=
  (DIAMONDS_REQUIRED <=? diamondsCollected s + 1) && negb (exitRevealed s).


(** The fields of the explosion sequence. *)
Definition explosionFields (s : Game) : Z * Z * Z * Z * Q :=
  (explosionX s, explosionY s, explosionRadius s, explosionFrame s,
   lastExplosionUpdate s).

(** From [s] to [s'] the explosion was either left alone or started, at
    the player's position of [s]. *)
Definition explosionStep (s s' : Game) : Prop :=
  (gameOver s' = gameOver s ∧ explosionFields s' = explosionFields s) ∨
  (gameOver s = false ∧ gameOver s' = true ∧
   explosionX s' = playerX s ∧ explosionY s' = playerY s ∧
   explosionRadius s' = 0 ∧ explosionFrame s' = 0).


(** [g'] comes from [g] by clearing cells that are not Wall and lie within
    distance [r] of [(ex, ey)]. *)
Definition clearedAround (r ex ey : Z) (g g' : Grid) : Prop :=
  Grid_wf g' ∧ width g' = width g ∧ height g' = height g ∧
  ∀ a b, getTile g' a b = getTile g a b
         ∨ (getTile g' a b = EMPTY ∧ getTile g a b ≠ WALL
            ∧ (a - ex) * (a - ex) + (b - ey) * (b - ey) <= r * r).

(** The relation between frame counter and radius that the sequence
    keeps. *)
Definition explosionInv (s : Game) : Prop :=
  0 <= explosionFrame s <= 2 * explosionMaxRadius ∧
  explosionRadius s = explosionFrame s / 2.

(** Successive calls of [updateExplosion], one per frame. *)
Definition runExplosion (ts : list Q) (s : Game) : Game :=
  foldl (λ s t, updateExplosion t s) s ts.


(** The fields [initializeLevel] does not write: everything but the grid,
    the player position, the camera position and the count of random
    numbers drawn. *)
Definition levelFields (s : Game) :=
  (lastTime s, lastPlayerMoveTime s, timeRemaining s, isTimeWarning s,
   lastTimeUpdate s, playerAnimFrame s, playerFacingLeft s, lastAnimUpdate s,
   lastPhysicsUpdate s, gameOver s, score s, diamondsCollected s, gameWon s,
   explosionFields s, exitX s, exitY s, exitRevealed s, exitAppearTime s,
   targetCameraX s, targetCameraY s, soundCalls s, randomStream s,
   clockStream s, clockCalls s).

(** [g'] comes from [g] by writing tiles that satisfy [P] into cells that
    satisfy [R]; the shape is kept, and no other kind of tile has become
    more frequent. *)
Definition wroteIn (R : Z → Z → Prop) (P : TileType → Prop) (g g' : Grid) : Prop :=
  Grid_wf g' ∧ width g' = width g ∧ height g' = height g ∧
  (∀ a b, getTile g' a b = getTile g a b ∨ (R a b ∧ P (getTile g' a b))) ∧
  (∀ t, ¬ P t → (countTile t g' <= countTile t g)%nat).

(** The cell is on the outer ring of the grid. *)
Definition onRing (g : Grid) (a b : Z) : Prop :=
  (0 <= a < width g ∧ 0 <= b < height g) ∧
  (a = 0 ∨ a = width g - 1 ∨ b = 0 ∨ b = height g - 1).

(** The cell is within [d] cells of [(px, py)] on both axes. *)
Definition nearCell (d px py a b : Z) : Prop :=
  Z.abs (a - px) <= d ∧ Z.abs (b - py) <= d.

(** A tile the level generator writes. *)
Definition generated (t : TileType) : Prop :=
  t = WALL ∨ t = DIRT ∨ t = BOULDER ∨ t = DIAMOND ∨ t = EMPTY.

(** [Math.random()] keeps its contract: every value is a double in
    [0, 1). *)
Definition unitDouble (r : Q) : Prop := isDouble r ∧ (0 <= r ∧ r < 1)%Q.

Definition randomInRange (s : Game) : Prop :=
  ∀ n, unitDouble (randomStream s n).


(** A stage of the level generator: it writes tiles satisfying [P] into
    cells satisfying [R] and leaves the player, the camera and
    [levelFields] alone. *)
Definition gridStage (R : Z → Z → Prop) (P : TileType → Prop) (s s' : Game) : Prop :=
  levelFields s' = levelFields s ∧
  playerX s' = playerX s ∧ playerY s' = playerY s ∧
  cameraX s' = cameraX s ∧ cameraY s' = cameraY s ∧
  wroteIn R P (grid s) (grid s').

(** An interior cell of a [w] × [h] grid outside the 3 × 3 box around
    [(px, py)]. *)
Definition awayInside (w h px py a b : Z) : Prop :=
  (1 <= a <= w - 2 ∧ 1 <= b <= h - 2) ∧ ¬ nearCell 1 px py a b.


(** The spawn point [initializeLevel] draws: the next two random numbers
    scaled to columns [2 .. w - 3] and rows [2 .. h - 3]. *)
Definition spawnDraw (s : Game) : Z * Z :=
  (Qfloor (jsMul (randomStream s (randomCalls s))
                  (inject_Z (getWidth (grid s) - 4))) + 2,
   Qfloor (jsMul (randomStream s (S (randomCalls s)))
                  (inject_Z (getHeight (grid s) - 4))) + 2).

(** The cell the diamond loop draws from the random numbers [n] and
    [n + 1]. *)
Definition diamondDraw (s : Game) (n : nat) : Z * Z :=
  (Qfloor (jsMul (randomStream s n) (inject_Z (getWidth (grid s) - 2))) + 1,
   Qfloor (jsMul (randomStream s (S n)) (inject_Z (getHeight (grid s) - 2))) + 1).

(** From any point of the random stream on, one of the next [tries]
    diamond draws falls outside the 3 × 3 box around the spawn point. *)
Definition diamondsPlaceable (tries : nat) (s : Game) : Prop :=
  ∀ n, ∃ k, (k < tries)%nat ∧
            ¬ nearCell 1 (spawnDraw s).1 (spawnDraw s).2
                (diamondDraw s (n + 2 * k)).1 (diamondDraw s (n + 2 * k)).2.


(** The score is the number of diamonds collected times the points per
    diamond. *)
Definition scoreInv (s : Game) : Prop :=
  score s = POINTS_PER_DIAMOND * diamondsCollected s.


(** The fields no frame of the game loop writes: the player, the score
    and the diamond count, the win flag, the exit, the camera, the random
    numbers and the time of the last move. *)
Definition frameFields (s : Game) :=
  (playerX s, playerY s, playerFacingLeft s, lastPlayerMoveTime s,
   score s, diamondsCollected s, gameWon s,
   exitX s, exitY s, exitRevealed s, exitAppearTime s,
   cameraX s, cameraY s, targetCameraX s, targetCameraY s,
   randomStream s, randomCalls s, clockStream s).


(** The fields neither the physics step nor the explosion writes. *)
Definition quietFields (s : Game) :=
  (frameFields s, lastTime s, playerAnimFrame s, lastAnimUpdate s,
   timeRemaining s, isTimeWarning s, lastTimeUpdate s).


(** The player stands on an Empty cell. A cell outside the grid reads as
    Wall, so this puts the player inside the grid. *)
Definition playerCellEmpty (s : Game) : Prop :=
  getTile (grid s) (playerX s) (playerY s) = EMPTY.

(** Every cell of the outer ring is Wall. *)
Definition ringWalled (g : Grid) : Prop :=
  ∀ a b, onRing g a b → getTile g a b = WALL.

(** The same, checked cell by cell. *)
Definition ringWalledb (g : Grid) : bool :=
  forallb (λ a,
    forallb (λ b,
      implb ((a =? 0) || (a =? width g - 1) || (b =? 0) || (b =? height g - 1))
            (tile_eqb (getTile g a b) WALL))
      (seqZ 0 (height g)))
    (seqZ 0 (width g)).

(** The fields the session invariant reads. *)
Definition invFields (s : Game) :=
  (grid s, playerX s, playerY s, randomStream s, score s, diamondsCollected s,
   explosionFrame s, explosionRadius s, timeRemaining s, playerAnimFrame s).

(** What holds of every state of a session on a [w] × [h] grid: the
    shape of the grid, the wall ring, the counters in their ranges ... *)
Definition levelInv (w h : Z) (s : Game) : Prop :=
  Grid_wf (grid s) ∧ width (grid s) = w ∧ height (grid s) = h ∧
  ringWalled (grid s) ∧ randomInRange s ∧
  scoreInv s ∧ 0 <= diamondsCollected s ∧ explosionInv s ∧
  0 <= timeRemaining s <= TIME_LIMIT ∧ 0 <= playerAnimFrame s <= 3.

(** ... and the player on an Empty cell. *)
Definition sessionInv (w h : Z) (s : Game) : Prop :=
  levelInv w h s ∧ playerCellEmpty s.


(** A won game has the exit revealed, and a revealed exit was paid for
    with the required number of diamonds. *)
Definition winInv (s : Game) : Prop :=
  (gameWon s = true → exitRevealed s = true) ∧
  (exitRevealed s = true → DIAMONDS_REQUIRED <= diamondsCollected s).

(** * Sample sessions *)

(** The state the field initialisers of [Game] give, around a grid and a
    player position. *)
Definition session (g : Grid) (px py : Z) (random clock : nat → Q) : Game :=
  {| lastTime := 0; lastPlayerMoveTime := 0; timeRemaining := TIME_LIMIT;
     isTimeWarning := false; lastTimeUpdate := 0; grid := g;
     playerX := px; playerY := py; playerAnimFrame := 0;
     playerFacingLeft := false; lastAnimUpdate := 0; lastPhysicsUpdate := 0;
     gameOver := false; score := 0; diamondsCollected := 0; gameWon := false;
     explosionRadius := 0; explosionFrame := 0; lastExplosionUpdate := 0;
     explosionX := 0; explosionY := 0; exitX := -1; exitY := -1;
     exitRevealed := false; exitAppearTime := 0;
     cameraX := 0; cameraY := 0; targetCameraX := 0; targetCameraY := 0;
     soundCalls := []; randomStream := random; randomCalls := 0;
     clockStream := clock; clockCalls := 0 |}.

(** The constructor of [Game]: a fresh grid, then [initializeLevel]. *)
Definition newGame (fuel : nat) (random clock : nat → Q) : option Game :=
  match newGrid GRID_WIDTH GRID_HEIGHT with
  | None => None
  | Some g => initializeLevel fuel (session g 1 1 random clock)
  end.

(** A 100 × 60 cave: the wall ring, dirt everywhere inside, then the
    listed tiles. *)
Definition solidCave : Grid :=
  {| cells :=
       (λ y, (λ x, if (x =? 0) || (x =? GRID_WIDTH - 1)
                      || (y =? 0) || (y =? GRID_HEIGHT - 1)
                   then WALL else DIRT) <$> seqZ 0 GRID_WIDTH)
       <$> seqZ 0 GRID_HEIGHT;
     width := GRID_WIDTH;
     height := GRID_HEIGHT |}.

Definition cave (tiles : list (Z * Z * TileType)) : Grid :=
  foldl (λ g c, setTile g c.1.1 c.1.2 c.2) solidCave tiles.

Definition zeros : nat → Q := λ _, 0%Q.

(** A clock that reads 1000 ms and one that reads 100 ms. *)
Definition lateClock : nat → Q := λ _, 1000%Q.

(** A Boulder at (3,3) over an empty cell, the player far away. *)
Definition fallingBoulder : Game :=
  session (cave [(3, 3, BOULDER); (3, 4, EMPTY)]) 10 10 zeros lateClock.

(** A Boulder at (3,2) about to drop into (3,3), right above a player who
    stands at (3,4). *)
Definition boulderOverhead (clock : nat → Q) : Game :=
  session (cave [(3, 2, BOULDER); (3, 3, EMPTY); (3, 4, EMPTY)]) 3 4 zeros clock.

(** The Boulder over the player's head when the last move was at 127.7 ms
    and the clock reads 352.7 ms: the two doubles are less than 225 apart,
    and their difference rounds to 225. *)
Definition graceEdge : Game :=
  set_lastPlayerMoveTime (literal (1277 # 10))
    (boulderOverhead (λ _, literal (3527 # 10))).


(** A Boulder at (5,5) resting on dirt with both sides free. *)
Definition boulderOnDirt : Game :=
  session (cave [(5, 5, BOULDER); (4, 5, EMPTY); (4, 6, EMPTY);
                 (6, 5, EMPTY); (6, 6, EMPTY)]) 10 10 zeros lateClock.

(** A Boulder at (5,5) resting on a Boulder at (5,6) that itself hangs
    over the empty cell (5,7); both sides of the upper one are free. *)
Definition stackedBoulders : Game :=
  session (cave [(5, 5, BOULDER); (5, 6, BOULDER); (5, 7, EMPTY);
                 (4, 5, EMPTY); (4, 6, EMPTY);
                 (6, 5, EMPTY); (6, 6, EMPTY)]) 10 10 zeros lateClock.

(** A fresh level before the first frame. *)
Definition freshTimer : Game := session (cave []) 10 10 zeros zeros.

(** Frames 1500 ms apart, the last one at 240 000 ms. *)
Definition slowFrames : list Q :=
  (λ k : nat, (1500 * inject_Z (Z.of_nat k))%Q) <$> seq 1 160.

(** One diamond short of the quota; every random draw is 1/2. *)
Definition lastDiamond : Game :=
  set_diamondsCollected 24
    (set_score 2400 (session (cave [(5, 5, EMPTY)]) 5 5 (λ _, 1 # 2)%Q lateClock)).

(** The camera at the origin while the player stands at (50,30). *)
Definition cameraBehind : Game := session (cave [(50, 30, EMPTY)]) 50 30 zeros zeros.

(** The double [0.99]. *)
Definition nearlyOne : Q := Eval vm_compute in literal (99 # 100).

(** A session that has just been won: the exit was revealed at (4,2) and
    the player stepped onto it from (3,2). The next two random draws are
    0, all later ones 0.99. *)
Definition wonSession : Game :=
  set_gameWon true
    (set_exitRevealed true
       (set_exitX 4
          (set_exitY 2
             (set_score 2500
                (set_diamondsCollected 25
                   (session (cave [(4, 2, EXIT); (3, 2, EMPTY); (60, 40, DIAMOND)])
                      3 2
                      (λ n, if (n <? 2)%nat then 0%Q else nearlyOne)
                      lateClock)))))).

(** What is looked at after the reset. *)
Definition afterReset (s : Game) : Z * Z * bool * bool * bool * TileType * TileType :=
  (score s, diamondsCollected s, gameOver s, gameWon s, exitRevealed s,
   getTile (grid s) 4 2, getTile (grid s) 60 40).

(** What is looked at after a move. *)
Definition afterMove (s : Game) : Z * Z * bool * bool * TileType :=
  (playerX s, playerY s, gameWon s, exitRevealed s, getTile (grid s) 4 2).


(** A game that has just been lost at (10,10), with a Boulder and a
    Diamond next to the player and the wall ring far away. *)
Definition lostSession : Game :=
  startExplosion
    (session (cave [(10, 10, EMPTY); (11, 10, BOULDER); (10, 11, DIAMOND)])
       10 10 zeros lateClock).


(** Random numbers that put the spawn point in the top-left corner and
    every later draw near the bottom-right one. *)
Definition spawnCorner : nat → Q := λ n, if (n <? 2)%nat then 0%Q else nearlyOne.

(** The state the constructor hands to [initializeLevel], and the level it
    makes of it. *)
Definition blankSession : Game :=
  session (emptyGrid GRID_WIDTH GRID_HEIGHT) 1 1 spawnCorner zeros.

Definition firstLevel : Game :=
  default blankSession (initializeLevel 2 blankSession).


(** The won session after the R key. *)
Definition resetLevel : Game := default wonSession (resetGame 1 wonSession).


(** A running game with one second left on the timer. *)
Definition lastSecond : Game := set_timeRemaining 1 (session (cave []) 10 10 zeros zeros).


(** A short session on the first level: a step to the right, a frame, the
    mute key and a key outside the switch. *)
Definition shortSession : list Event :=
  [Press ArrowRight; Frame 1000 0; Press KeyM; Press OtherKey].


(** Random numbers stuck at 0.99, and the state the constructor would hand
    to [initializeLevel] with them. *)
Definition stuckStream : nat → Q := λ _, nearlyOne.

Definition stuckSession : Game :=
  session (emptyGrid GRID_WIDTH GRID_HEIGHT) 1 1 stuckStream zeros.

(** * Lemmas and theorems *)

(** ** Doubles *)

Local Open Scope Q_scope.

Lemma pow2_pos e : 0 < 2 ^ e.
Proof. by apply Qpower_0_lt. Qed.

Lemma pow2_plus a b : 2 ^ (a + b) == 2 ^ a * 2 ^ b.
Proof. by apply Qpower_plus. Qed.

Lemma pow2_le a b : (a <= b)%Z → 2 ^ a <= 2 ^ b.
Proof. intros. apply Qpower_le_compat_l; [done|lra]. Qed.

Lemma pow2_lt a b : (a < b)%Z → 2 ^ a < 2 ^ b.
Proof. intros. apply Qpower_lt_compat_l; [done|lra]. Qed.

Lemma pow2_lt_inv a b : 2 ^ a < 2 ^ b → (a < b)%Z.
Proof. intros. eapply Qpower_lt_compat_l_inv; [eassumption|lra]. Qed.

Lemma pow2_Z e : (0 <= e)%Z → 2 ^ e == inject_Z (2 ^ e).
Proof. intros. by rewrite Zpower_Qpower. Qed.

Lemma pow2_cancel e : 2 ^ e * 2 ^ (- e) == 1.
Proof. rewrite <- pow2_plus. by replace (e + - e)%Z with 0%Z by lia. Qed.

Lemma roundHalfEven_floor y :
  (Qfloor y <= roundHalfEven y <= Qfloor y + 1)%Z.
Proof.
  unfold roundHalfEven.
  destruct (Qcompare _ _); [destruct (Z.even _)|..]; lia.
Qed.

Lemma roundHalfEven_near y :
  inject_Z (roundHalfEven y) - y <= 1 # 2 ∧
  y - inject_Z (roundHalfEven y) <= 1 # 2.
Proof.
  pose proof (Qfloor_le y) as Hlo. pose proof (Qlt_floor y) as Hhi.
  rewrite inject_Z_plus in Hhi. change (inject_Z 1) with 1 in Hhi.
  unfold roundHalfEven.
  destruct (Qcompare_spec (y - inject_Z (Qfloor y)) (1 # 2)) as [E|E|E];
    [destruct (Z.even _)|..]; rewrite ?inject_Z_plus;
    change (inject_Z 1) with 1; split; lra.
Qed.

Lemma roundHalfEven_Z y z : y == inject_Z z → roundHalfEven y = z.
Proof.
  intros E. unfold roundHalfEven.
  assert (Qfloor y = z) as -> by (rewrite <- (Qfloor_Z z); by apply Qfloor_comp).
  destruct (Qcompare_spec (y - inject_Z z) (1 # 2)) as [H|H|H];
    [lra|done|lra].
Qed.

#[global] Instance roundHalfEven_comp : Proper (Qeq ==> eq) roundHalfEven.
Proof.
  intros x y E. unfold roundHalfEven.
  rewrite (Qfloor_comp _ _ E).
  by rewrite (Qcompare_comp (x - inject_Z (Qfloor y)) (y - inject_Z (Qfloor y))
                (Qminus_comp _ _ E _ _ (Qeq_refl _)) _ _ (Qeq_refl (1 # 2))).
Qed.

Lemma roundHalfEven_ge y k : inject_Z k <= y → (k <= roundHalfEven y)%Z.
Proof.
  intros H. apply Qfloor_resp_le in H. rewrite Qfloor_Z in H.
  pose proof (roundHalfEven_floor y). lia.
Qed.

Lemma roundHalfEven_le y k : y <= inject_Z k → (roundHalfEven y <= k)%Z.
Proof.
  intros H. pose proof (roundHalfEven_floor y) as [_ Hc].
  destruct (Z_le_gt_dec (roundHalfEven y) k) as [|Hgt]; [done|exfalso].
  assert (Hf : Qfloor y = k).
  { apply Qfloor_resp_le in H. rewrite Qfloor_Z in H. lia. }
  assert (Hy : y == inject_Z k).
  { pose proof (Qfloor_le y) as Hl. rewrite Hf in Hl. lra. }
  rewrite (roundHalfEven_Z y k Hy) in Hgt. lia.
Qed.

Lemma roundHalfEven_mono x y : x <= y → (roundHalfEven x <= roundHalfEven y)%Z.
Proof.
  intros H.
  pose proof (Qfloor_resp_le _ _ H) as Hf.
  destruct (Z.eq_dec (Qfloor x) (Qfloor y)) as [E|NE].
  - unfold roundHalfEven. rewrite <- E.
    destruct (Qcompare_spec (x - inject_Z (Qfloor x)) (1 # 2)) as [Hx|Hx|Hx];
    destruct (Qcompare_spec (y - inject_Z (Qfloor x)) (1 # 2)) as [Hy|Hy|Hy];
    try destruct (Z.even _); try lia; lra.
  - pose proof (roundHalfEven_floor x). pose proof (roundHalfEven_floor y). lia.
Qed.

Lemma Qfrac_below x d n u v w :
  0 < d → 0 < u → x * d == n → u * v == w → n < w → v <= d → x < u.
Proof.
  intros Hd Hu Hx Hw Hn Hv.
  destruct (Qlt_le_dec x u) as [|Hc]; [done|exfalso].
  assert (u * d <= x * d) by (apply Qmult_le_compat_r; lra).
  assert (u * v <= u * d) by (apply Qmult_le_l; lra).
  lra.
Qed.

Lemma Qfrac_above x d n u v w :
  0 < d → 0 < u → x * d == n → u * v == w → w <= n → d < v → u < x.
Proof.
  intros Hd Hu Hx Hw Hn Hv.
  destruct (Qlt_le_dec u x) as [|Hc]; [done|exfalso].
  assert (x * d <= u * d) by (apply Qmult_le_compat_r; lra).
  assert (u * d < u * v) by (apply Qmult_lt_l; lra).
  lra.
Qed.

Lemma floorLog2_spec x :
  0 < x → 2 ^ floorLog2 x <= x ∧ x < 2 ^ (floorLog2 x + 1).
Proof.
  intros Hx. destruct x as [n d].
  assert (Hn : (0 < n)%Z).
  { unfold Qlt in Hx. simpl in Hx. lia. }
  pose proof (Z.log2_spec n Hn) as [Hn1 Hn2].
  pose proof (Z.log2_spec (Z.pos d) (Pos2Z.is_pos d)) as [Hd1 Hd2].
  pose proof (Z.log2_nonneg n) as Ha. pose proof (Z.log2_nonneg (Z.pos d)) as Hb.
  set (a := Z.log2 n) in *. set (b := Z.log2 (Z.pos d)) in *.
  assert (Hxd : (n # d) * inject_Z (Z.pos d) == inject_Z n).
  { rewrite (Qmake_Qdiv n d). field. unfold Qeq. simpl. lia. }
  assert (Hdpos : 0 < inject_Z (Z.pos d)).
  { unfold Qlt. simpl. lia. }
  rewrite Zle_Qle in Hn1, Hd1. rewrite Zlt_Qlt in Hn2, Hd2.
  rewrite <- pow2_Z in Hn1, Hn2, Hd1, Hd2 by lia.
  assert (Hlo : 2 ^ (a - b - 1) < n # d).
  { eapply (Qfrac_above _ _ _ _ (2 ^ Z.succ b) (2 ^ a)); try eassumption.
    - apply pow2_pos.
    - rewrite <- pow2_plus. by replace (a - b - 1 + Z.succ b)%Z with a by lia. }
  assert (Hhi : n # d < 2 ^ (a - b + 1)).
  { eapply (Qfrac_below _ _ _ _ (2 ^ b) (2 ^ Z.succ a)); try eassumption.
    - apply pow2_pos.
    - rewrite <- pow2_plus. by replace (a - b + 1 + b)%Z with (Z.succ a) by lia. }
  unfold floorLog2. cbn [Qnum Qden]. fold a b.
  destruct (Qle_bool (2 ^ (a - b)) (n # d)) eqn:E.
  - apply Qle_bool_iff in E. done.
  - split; [by apply Qlt_le_weak|].
    replace (a - b - 1 + 1)%Z with (a - b)%Z by lia.
    apply Qnot_le_lt. intros H. apply Qle_bool_iff in H. congruence.
Qed.

Lemma floorLog2_unique x k : 2 ^ k <= x → x < 2 ^ (k + 1) → floorLog2 x = k.
Proof.
  intros Hlo Hhi.
  assert (Hx : 0 < x) by (pose proof (pow2_pos k); lra).
  destruct (floorLog2_spec x Hx) as [Hl Hh].
  assert (2 ^ k < 2 ^ (floorLog2 x + 1)) as H1%pow2_lt_inv by lra.
  assert (2 ^ floorLog2 x < 2 ^ (k + 1)) as H2%pow2_lt_inv by lra.
  lia.
Qed.

Lemma floorLog2_mono x y : 0 < x → x <= y → (floorLog2 x <= floorLog2 y)%Z.
Proof.
  intros Hx Hxy.
  destruct (floorLog2_spec x Hx) as [Hl _].
  destruct (floorLog2_spec y) as [_ Hh]; [lra|].
  assert (2 ^ floorLog2 x < 2 ^ (floorLog2 y + 1)) as H%pow2_lt_inv by lra.
  lia.
Qed.

Lemma floorLog2_comp x y : 0 < x → x == y → floorLog2 x = floorLog2 y.
Proof.
  intros Hx E. destruct (floorLog2_spec x Hx) as [Hl Hh].
  symmetry. apply floorLog2_unique; lra.
Qed.

Lemma ulpExponent_comp x y : 0 < x → x == y → ulpExponent x = ulpExponent y.
Proof. intros. unfold ulpExponent. by rewrite (floorLog2_comp x y). Qed.

Lemma scaled_back x e : x * 2 ^ (- e) * 2 ^ e == x.
Proof.
  rewrite <- Qmult_assoc, (Qmult_comm (2 ^ (- e))), pow2_cancel. ring.
Qed.

Lemma roundPos_comp x y : 0 < x → x == y → roundPos x == roundPos y.
Proof.
  intros Hx E. unfold roundPos. rewrite (ulpExponent_comp x y Hx E).
  assert (x * 2 ^ (- ulpExponent y) == y * 2 ^ (- ulpExponent y)) as ->
    by (by apply Qmult_comp).
  reflexivity.
Qed.

Lemma roundPos_nonneg x : 0 < x → 0 <= roundPos x.
Proof.
  intros Hx. unfold roundPos. apply Qmult_le_0_compat.
  - change 0 with (inject_Z 0). rewrite <- Zle_Qle.
    apply roundHalfEven_ge. change (inject_Z 0) with 0.
    apply Qmult_le_0_compat; [lra|]. apply Qlt_le_weak, pow2_pos.
  - apply Qlt_le_weak, pow2_pos.
Qed.

Lemma half_ulp e : 2 ^ (e - 1) == (1 # 2) * 2 ^ e.
Proof.
  replace (e - 1)%Z with (-1 + e)%Z by lia. rewrite pow2_plus.
  apply Qmult_comp; reflexivity.
Qed.

Lemma roundPos_near x :
  roundPos x - x <= 2 ^ (ulpExponent x - 1) ∧
  x - roundPos x <= 2 ^ (ulpExponent x - 1).
Proof.
  unfold roundPos. set (e := ulpExponent x).
  destruct (roundHalfEven_near (x * 2 ^ (- e))) as [H1 H2].
  pose proof (pow2_pos e) as He. pose proof (scaled_back x e) as Hb.
  rewrite half_ulp.
  set (m := inject_Z (roundHalfEven (x * 2 ^ (- e)))) in *.
  set (y := x * 2 ^ (- e)) in *. set (p := 2 ^ e) in *.
  assert (G1 : (m - y) * p <= (1 # 2) * p) by (apply Qmult_le_compat_r; lra).
  assert (G2 : (y - m) * p <= (1 # 2) * p) by (apply Qmult_le_compat_r; lra).
  split; lra.
Qed.

Lemma ulp_below x : 0 < x → 2 ^ (ulpExponent x + 52) <= Qmax x (2 ^ (-1022)).
Proof.
  intros Hx. destruct (floorLog2_spec x Hx) as [Hl _].
  unfold ulpExponent.
  destruct (Z.max_spec (floorLog2 x - 52) (-1074)) as [[_ ->]|[_ ->]].
  - apply Q.max_le_iff. right. apply Qle_refl.
  - apply Q.max_le_iff. left.
    by replace (floorLog2 x - 52 + 52)%Z with (floorLog2 x) by lia.
Qed.

Lemma round64_zero x : x == 0 → round64 x = 0.
Proof. intros E. unfold round64. by apply Qeq_alt in E as ->. Qed.

Lemma round64_pos x : 0 < x → round64 x = roundPos x.
Proof. intros H. unfold round64. by apply Qgt_alt in H as ->. Qed.

Lemma round64_neg x : x < 0 → round64 x = - roundPos (- x).
Proof. intros H. unfold round64. by apply Qlt_alt in H as ->. Qed.

Lemma round64_nonneg x : 0 <= x → 0 <= round64 x.
Proof.
  intros H. destruct (Qlt_le_dec 0 x) as [Hp|Hz].
  - rewrite round64_pos by done. by apply roundPos_nonneg.
  - rewrite round64_zero by lra. lra.
Qed.

Lemma round64_nonpos x : x <= 0 → round64 x <= 0.
Proof.
  intros H. destruct (Qlt_le_dec x 0) as [Hn|Hz].
  - rewrite round64_neg by done.
    pose proof (roundPos_nonneg (- x)). lra.
  - rewrite round64_zero by lra. lra.
Qed.

#[global] Instance round64_comp : Proper (Qeq ==> Qeq) round64.
Proof.
  intros x y E. destruct (Qcompare_spec x 0) as [H|H|H].
  - rewrite (round64_zero x), (round64_zero y) by lra. reflexivity.
  - rewrite (round64_neg x), (round64_neg y) by lra.
    apply Qopp_comp, roundPos_comp; lra.
  - rewrite (round64_pos x), (round64_pos y) by lra.
    apply roundPos_comp; lra.
Qed.

Lemma round64_opp x : round64 (- x) == - round64 x.
Proof.
  destruct (Qcompare_spec x 0) as [H|H|H].
  - rewrite (round64_zero x), (round64_zero (- x)) by lra. reflexivity.
  - rewrite (round64_neg x), (round64_pos (- x)) by lra. ring.
  - rewrite (round64_pos x), (round64_neg (- x)) by lra.
    apply Qopp_comp, roundPos_comp; [lra|ring].
Qed.

(** A positive number [m * 2^e] with [m < 2^53] and [e] no less than the
    smallest exponent is a double. *)
Lemma roundPos_exact x m e :
  0 < x → x == inject_Z m * 2 ^ e → (m < 2 ^ 53)%Z → (-1074 <= e)%Z →
  roundPos x == x.
Proof.
  intros Hx E Hm He.
  destruct (floorLog2_spec x Hx) as [Hl _].
  assert (Hxe : x < 2 ^ (53 + e)).
  { rewrite E, pow2_plus. apply Qmult_lt_compat_r; [apply pow2_pos|].
    rewrite pow2_Z by lia. by rewrite <- Zlt_Qlt. }
  assert (2 ^ floorLog2 x < 2 ^ (53 + e)) as Hf%pow2_lt_inv by lra.
  assert (Hu : (ulpExponent x <= e)%Z) by (unfold ulpExponent; lia).
  unfold roundPos. set (u := ulpExponent x) in *.
  assert (Hs : x * 2 ^ (- u) == inject_Z (m * 2 ^ (e - u))).
  { rewrite E, inject_Z_mult, <- pow2_Z by lia.
    replace (e - u)%Z with (e + - u)%Z by lia. rewrite pow2_plus. ring. }
  rewrite (roundHalfEven_Z _ _ Hs), <- Hs. apply scaled_back.
Qed.


(** The largest double below 1 is [1 - 2^-53]. *)
Lemma double_below_one r : isDouble r → r < 1 → r <= 1 - 2 ^ (-53).
Proof.
  intros Hd H1.
  assert (Heps : 2 ^ (-53) <= 1 # 2) by (apply (pow2_le (-53) (-1)); lia).
  destruct (Qlt_le_dec 0 r) as [Hp|Hz]; [|lra].
  unfold isDouble in Hd. rewrite round64_pos in Hd by done.
  destruct (floorLog2_spec r Hp) as [Hl Hh].
  assert (2 ^ floorLog2 r < 2 ^ 0) as Hf%pow2_lt_inv by (change (2 ^ 0) with 1; lra).
  set (f := floorLog2 r) in *.
  assert (Hf1 : 2 ^ (f + 1) <= 1) by (apply (pow2_le (f + 1) 0); lia).
  unfold ulpExponent in Hd |- *. unfold roundPos, ulpExponent in Hd. fold f in Hd.
  destruct (Z.max_spec (f - 52) (-1074)) as [[Hc He]|[Hc He]]; rewrite He in Hd.
  - assert (2 ^ (f + 1) <= 2 ^ (-1)) by (apply pow2_le; lia).
    change (2 ^ (-1)) with (1 # 2) in *. lra.
  - set (m := roundHalfEven (r * 2 ^ (- (f - 52)))) in *.
    assert (Hm : (m < 2 ^ 53)%Z).
    { rewrite Zlt_Qlt, <- pow2_Z by lia.
      apply (Qmult_lt_r _ _ (2 ^ (f - 52))); [apply pow2_pos|].
      rewrite <- pow2_plus. replace (53 + (f - 52))%Z with (f + 1)%Z by lia.
      lra. }
    assert (Hm' : inject_Z m <= 2 ^ 53 - 1).
    { rewrite pow2_Z by lia. unfold Qminus. change (- (1)) with (inject_Z (-1)).
      rewrite <- inject_Z_plus, <- Zle_Qle. lia. }
    assert (Hr : r <= (2 ^ 53 - 1) * 2 ^ (f - 52)).
    { rewrite <- Hd. apply Qmult_le_compat_r; [done|]. apply Qlt_le_weak, pow2_pos. }
    assert (E1 : 2 ^ 53 * 2 ^ (f - 52) == 2 ^ (f + 1)).
    { rewrite <- pow2_plus. by replace (53 + (f - 52))%Z with (f + 1)%Z by lia. }
    assert (E2 : 2 ^ (f - 52) == 2 ^ (f + 1) * 2 ^ (-53)).
    { rewrite <- pow2_plus. by replace (f + 1 + -53)%Z with (f - 52)%Z by lia. }
    assert (Hr' : r <= 2 ^ (f + 1) * (1 - 2 ^ (-53))).
    { set (p := 2 ^ (f - 52)) in *. set (q := 2 ^ (f + 1)) in *.
      set (K := 2 ^ 53) in *. set (eps := 2 ^ (-53)) in *. lra. }
    pose proof (pow2_pos (-53)).
    assert ((1 - 2 ^ (f + 1)) * (1 - 2 ^ (-53)) >= 0)
      by (apply Qmult_le_0_compat; lra).
    lra.
Qed.

(** [Math.floor(r * n)] stays below [n] in doubles. *)
Lemma floor_jsMul_range r n :
  isDouble r → 0 <= r → r < 1 → (1 <= n)%Z →
  (0 <= Qfloor (jsMul r (inject_Z n)) <= n - 1)%Z.
Proof.
  intros Hd H0 H1 Hn. unfold jsMul.
  assert (Hn' : 1 <= inject_Z n) by (change 1 with (inject_Z 1); by rewrite <- Zle_Qle).
  assert (Hlo : 0 <= round64 (r * inject_Z n)).
  { apply round64_nonneg, Qmult_le_0_compat; lra. }
  assert (Hhi : round64 (r * inject_Z n) < inject_Z n).
  { destruct (Qlt_le_dec 0 r) as [Hp|Hz]; [|rewrite round64_zero; [lra|]].
    2:{ assert (r == 0) as -> by lra. ring. }
    pose proof (double_below_one r Hd H1) as Hr.
    set (x := r * inject_Z n).
    assert (Hx : 0 < x) by (apply Qmult_lt_0_compat; lra).
    assert (Hxn : x <= inject_Z n - inject_Z n * 2 ^ (-53)).
    { assert (r * inject_Z n <= (1 - 2 ^ (-53)) * inject_Z n)
        by (apply Qmult_le_compat_r; lra).
      unfold x. set (eps := 2 ^ (-53)) in *. lra. }
    pose proof (pow2_pos (-53)) as Heps.
    assert (Hxn' : x < inject_Z n).
    { assert (0 < inject_Z n * 2 ^ (-53)) by (apply Qmult_lt_0_compat; lra). lra. }
    rewrite round64_pos by done.
    destruct (roundPos_near x) as [Hnear _].
    pose proof (ulp_below x Hx) as Hu.
    assert (Hu' : 2 ^ (ulpExponent x + 52) < inject_Z n).
    { eapply Qle_lt_trans; [exact Hu|]. apply Q.max_lub_lt; [done|].
      assert (2 ^ (-1022) <= 2 ^ (-1)) by (apply pow2_le; lia).
      change (2 ^ (-1)) with (1 # 2) in *. lra. }
    assert (E : 2 ^ (ulpExponent x - 1) == 2 ^ (ulpExponent x + 52) * 2 ^ (-53)).
    { rewrite <- pow2_plus.
      by replace (ulpExponent x + 52 + -53)%Z with (ulpExponent x - 1)%Z by lia. }
    assert (2 ^ (ulpExponent x + 52) * 2 ^ (-53) < inject_Z n * 2 ^ (-53))
      by (apply Qmult_lt_compat_r; lra).
    lra. }
  split.
  - apply Qfloor_resp_le in Hlo. by change (Qfloor 0) with 0%Z in Hlo.
  - pose proof (Qfloor_le (round64 (r * inject_Z n))) as Hf.
    assert (H : inject_Z (Qfloor (round64 (r * inject_Z n))) < inject_Z n) by lra.
    rewrite <- Zlt_Qlt in H. lia.
Qed.

Lemma roundPos_le_pow2 x k :
  0 < x → x <= 2 ^ k → (ulpExponent x <= k)%Z → roundPos x <= 2 ^ k.
Proof.
  intros Hx Hk Hu. unfold roundPos. set (e := ulpExponent x) in *.
  assert (E : 2 ^ k == inject_Z (2 ^ (k - e)) * 2 ^ e).
  { rewrite <- pow2_Z, <- pow2_plus by lia. by replace (k - e + e)%Z with k by lia. }
  rewrite E. apply Qmult_le_compat_r; [|apply Qlt_le_weak, pow2_pos].
  rewrite <- Zle_Qle. apply roundHalfEven_le.
  rewrite <- pow2_Z by lia. replace (k - e)%Z with (k + - e)%Z by lia.
  rewrite pow2_plus. apply Qmult_le_compat_r; [done|apply Qlt_le_weak, pow2_pos].
Qed.

Lemma roundPos_ge_pow2 x k :
  2 ^ k <= x → (ulpExponent x <= k)%Z → 2 ^ k <= roundPos x.
Proof.
  intros Hk Hu. unfold roundPos. set (e := ulpExponent x) in *.
  assert (E : 2 ^ k == inject_Z (2 ^ (k - e)) * 2 ^ e).
  { rewrite <- pow2_Z, <- pow2_plus by lia. by replace (k - e + e)%Z with k by lia. }
  rewrite E. apply Qmult_le_compat_r; [|apply Qlt_le_weak, pow2_pos].
  rewrite <- Zle_Qle. apply roundHalfEven_ge.
  rewrite <- pow2_Z by lia. replace (k - e)%Z with (k + - e)%Z by lia.
  rewrite pow2_plus. apply Qmult_le_compat_r; [done|apply Qlt_le_weak, pow2_pos].
Qed.

Lemma roundPos_mono x y : 0 < x → x <= y → roundPos x <= roundPos y.
Proof.
  intros Hx Hxy. assert (Hy : 0 < y) by lra.
  pose proof (floorLog2_mono x y Hx Hxy) as Hf.
  destruct (floorLog2_spec x Hx) as [_ Hxh].
  destruct (floorLog2_spec y Hy) as [Hyl _].
  destruct (Z.eq_dec (ulpExponent x) (ulpExponent y)) as [E|NE].
  - unfold roundPos. rewrite E. set (e := ulpExponent y).
    apply Qmult_le_compat_r; [|apply Qlt_le_weak, pow2_pos].
    rewrite <- Zle_Qle. apply roundHalfEven_mono.
    apply Qmult_le_compat_r; [done|apply Qlt_le_weak, pow2_pos].
  - assert (Hk : (floorLog2 x + 1 <= floorLog2 y)%Z)
      by (unfold ulpExponent in NE; lia).
    apply Qle_trans with (2 ^ floorLog2 y).
    + apply roundPos_le_pow2; [done| |unfold ulpExponent in *; lia].
      pose proof (pow2_le _ _ Hk). lra.
    + apply roundPos_ge_pow2; [done|unfold ulpExponent in *; lia].
Qed.

(** Rounding keeps the order. *)
Lemma round64_mono x y : x <= y → round64 x <= round64 y.
Proof.
  intros Hxy.
  destruct (Qlt_le_dec 0 x) as [Hx|Hx].
  - rewrite (round64_pos x), (round64_pos y) by lra. by apply roundPos_mono.
  - destruct (Qlt_le_dec 0 y) as [Hy|Hy].
    + apply Qle_trans with 0; [by apply round64_nonpos|apply round64_nonneg; lra].
    + destruct (Qlt_le_dec y 0) as [Hy'|Hy'].
      * rewrite (round64_neg x), (round64_neg y) by lra.
        apply Qopp_le_compat, roundPos_mono; lra.
      * rewrite (round64_zero y) by lra. by apply round64_nonpos.
Qed.

(** What rounding returns is a double. *)
Lemma roundPos_idem x : 0 < x → round64 (roundPos x) == roundPos x.
Proof.
  intros Hx. pose proof (roundPos_nonneg x Hx) as H0.
  destruct (Qlt_le_dec 0 (roundPos x)) as [Hp|Hz]; [|rewrite round64_zero; lra].
  rewrite round64_pos by done.
  set (e := ulpExponent x). set (m := roundHalfEven (x * 2 ^ (- e))).
  assert (Er : roundPos x == inject_Z m * 2 ^ e) by reflexivity.
  assert (Hm : (m <= 2 ^ 53)%Z).
  { apply roundHalfEven_le. rewrite <- pow2_Z by lia.
    apply (Qmult_le_r _ _ (2 ^ e)); [apply pow2_pos|].
    rewrite scaled_back, <- pow2_plus.
    destruct (floorLog2_spec x Hx) as [_ Hh].
    assert (2 ^ (floorLog2 x + 1) <= 2 ^ (53 + e))
      by (apply pow2_le; unfold e, ulpExponent; lia).
    lra. }
  assert (He : (-1074 <= e)%Z) by (unfold e, ulpExponent; lia).
  destruct (Z.eq_dec m (2 ^ 53)%Z) as [E|NE].
  - apply (roundPos_exact _ 1 (53 + e)); [done| |lia|lia].
    rewrite Er, E, pow2_plus, <- pow2_Z by lia. ring.
  - apply (roundPos_exact _ m e); [done|done|lia|done].
Qed.

Lemma round64_idem x : isDouble (round64 x).
Proof.
  unfold isDouble. destruct (Qcompare_spec x 0) as [H|H|H].
  - by rewrite (round64_zero x H).
  - rewrite (round64_neg x H), round64_opp. apply Qopp_comp, roundPos_idem. lra.
  - rewrite (round64_pos x H). by apply roundPos_idem.
Qed.

Lemma mantissa_bound x :
  0 < x → (roundHalfEven (x * 2 ^ (- ulpExponent x)) <= 2 ^ 53)%Z.
Proof.
  intros Hx. set (e := ulpExponent x).
  apply roundHalfEven_le. rewrite <- pow2_Z by lia.
  apply (Qmult_le_r _ _ (2 ^ e)); [apply pow2_pos|].
  rewrite scaled_back, <- pow2_plus.
  destruct (floorLog2_spec x Hx) as [_ Hh].
  assert (2 ^ (floorLog2 x + 1) <= 2 ^ (53 + e))
    by (apply pow2_le; unfold e, ulpExponent; lia).
  lra.
Qed.

(** A positive double is a whole multiple of the last bit of its
    neighbourhood. *)
Lemma double_mantissa x :
  isDouble x → 0 < x →
  ∃ m, x == inject_Z m * 2 ^ ulpExponent x ∧ (0 < m <= 2 ^ 53)%Z.
Proof.
  intros Hd Hx. unfold isDouble in Hd. rewrite round64_pos in Hd by done.
  exists (roundHalfEven (x * 2 ^ (- ulpExponent x))).
  split; [symmetry; exact Hd|]. split; [|by apply mantissa_bound].
  unfold roundPos in Hd.
  set (m := roundHalfEven (x * 2 ^ (- ulpExponent x))) in *.
  assert (0 < inject_Z m) as Hm.
  { pose proof (pow2_pos (ulpExponent x)) as Hp.
    destruct (Qlt_le_dec 0 (inject_Z m)) as [|Hle]; [done|exfalso].
    assert (inject_Z m * 2 ^ ulpExponent x <= 0 * 2 ^ ulpExponent x)
      by (apply Qmult_le_compat_r; lra).
    lra. }
  change 0 with (inject_Z 0) in Hm. by rewrite <- Zlt_Qlt in Hm.
Qed.

(** Sterbenz: the difference of two doubles within a factor of two of
    each other is a double. *)
Lemma sterbenz a b : isDouble a → isDouble b → 0 < b → b <= a → a <= 2 * b → isDouble (a - b).
Proof.
  intros Ha Hb Hb0 Hba Hab.
  assert (Ha0 : 0 < a) by lra.
  destruct (double_mantissa a Ha Ha0) as (ma & Ea & Hma).
  destruct (double_mantissa b Hb Hb0) as (mb & Eb & Hmb).
  assert (He : (ulpExponent b <= ulpExponent a)%Z).
  { unfold ulpExponent. pose proof (floorLog2_mono b a Hb0 Hba). lia. }
  set (ea := ulpExponent a) in *. set (eb := ulpExponent b) in *.
  set (k := (ma * 2 ^ (ea - eb) - mb)%Z).
  assert (Ek : a - b == inject_Z k * 2 ^ eb).
  { unfold k. unfold Zminus at 1. rewrite inject_Z_plus, inject_Z_opp, inject_Z_mult.
    rewrite <- pow2_Z by lia. rewrite Ea, Eb at 1.
    replace ea with ((ea - eb) + eb)%Z at 1 by lia. rewrite pow2_plus. ring. }
  pose proof (pow2_pos eb) as Hp.
  assert (Hk : (0 <= k <= mb)%Z).
  { split.
    - rewrite Zle_Qle. apply (Qmult_le_r _ _ (2 ^ eb)); [done|].
      rewrite <- Ek. change (inject_Z 0) with 0. lra.
    - rewrite Zle_Qle. apply (Qmult_le_r _ _ (2 ^ eb)); [done|].
      rewrite <- Ek, <- Eb. lra. }
  assert (Heb : (-1074 <= eb)%Z) by (unfold eb, ulpExponent; lia).
  unfold isDouble.
  destruct (Z.eq_dec k 0%Z) as [K0|K0].
  { assert (a - b == 0) as E0 by (rewrite Ek, K0; ring).
    rewrite (round64_zero _ E0). by rewrite E0. }
  assert (Hd0 : 0 < a - b).
  { rewrite Ek. apply Qmult_lt_0_compat; [|done].
    change 0 with (inject_Z 0). rewrite <- Zlt_Qlt. lia. }
  rewrite round64_pos by done.
  destruct (Z.eq_dec k (2 ^ 53)%Z) as [K|K].
  - apply (roundPos_exact _ 1 (53 + eb)); [done| |lia|lia].
    rewrite Ek, K, pow2_plus, <- pow2_Z by lia. ring.
  - apply (roundPos_exact _ k eb); [done|done|lia|done].
Qed.

(** A test [now - last >= interval] comes out in doubles as it does
    exactly, when the stored time is 0 or at least one interval. *)
Lemma cadence_test_exact now last interval :
  isDouble now → isDouble last → isDouble interval → 0 < interval →
  last == 0 ∨ interval <= last →
  Qleb interval (jsSub now last) = Qleb interval (now - last).
Proof.
  intros Hn Hl Hi Hi0 Hlast. unfold Qleb, jsSub.
  destruct (Qlt_le_dec (now - last) interval) as [Hlt|Hge].
  - assert (Hr : round64 (now - last) < interval).
    { destruct Hlast as [H0|Hbig].
      - assert (E : now - last == now) by (rewrite H0; ring).
        rewrite (round64_comp _ _ E). unfold isDouble in Hn. lra.
      - destruct (Qlt_le_dec 0 (now - last)) as [Hpos|Hneg].
        + assert (Hs : isDouble (now - last)) by (apply sterbenz; try done; lra).
          unfold isDouble in Hs. lra.
        + pose proof (round64_nonpos _ Hneg). lra. }
    destruct (Qle_bool interval (round64 (now - last))) eqn:E1;
      destruct (Qle_bool interval (now - last)) eqn:E2; try done;
      apply Qle_bool_iff in E1 || apply Qle_bool_iff in E2; lra.
  - assert (Hr : interval <= round64 (now - last)).
    { apply Qle_trans with (round64 interval); [unfold isDouble in Hi; lra|].
      by apply round64_mono. }
    apply Qle_bool_iff in Hr, Hge. by rewrite Hr, Hge.
Qed.

Local Close Scope Q_scope.

(** *** Grid lemmas *)

Lemma isInBounds_true g x y :
  isInBounds g x y = true ↔ 0 <= x < width g ∧ 0 <= y < height g.
Proof. unfold isInBounds. rewrite !andb_true_iff. lia. Qed.

Lemma isInBounds_false g x y :
  isInBounds g x y = false ↔ ¬ (0 <= x < width g ∧ 0 <= y < height g).
Proof.
  rewrite <- isInBounds_true. destruct (isInBounds g x y); split; congruence.
Qed.

Lemma emptyGrid_wf w h : Grid_wf (emptyGrid w h).
Proof.
  split; simpl.
  - apply length_replicate.
  - apply Forall_replicate, length_replicate.
Qed.

Lemma setTile_width g x y t : width (setTile g x y t) = width g.
Proof. unfold setTile. by destruct (isInBounds g x y). Qed.

Lemma setTile_height g x y t : height (setTile g x y t) = height g.
Proof. unfold setTile. by destruct (isInBounds g x y). Qed.

Lemma setTile_wf g x y t : Grid_wf g → Grid_wf (setTile g x y t).
Proof.
  intros [Hl Hr]. unfold setTile. destruct (isInBounds g x y); [|done].
  split; simpl.
  - by rewrite length_alter.
  - apply Forall_alter; [done|]. intros row _ Hrow. by rewrite length_insert.
Qed.

Lemma isInBounds_setTile g x y t x' y' :
  isInBounds (setTile g x y t) x' y' = isInBounds g x' y'.
Proof. unfold isInBounds. by rewrite setTile_width, setTile_height. Qed.

Lemma getTile_outside g x y :
  ¬ (0 <= x < width g ∧ 0 <= y < height g) → getTile g x y = WALL.
Proof. intros H. unfold getTile. by rewrite (proj2 (isInBounds_false g x y) H). Qed.

Lemma getTile_not_WALL_inside g x y :
  getTile g x y ≠ WALL → 0 <= x < width g ∧ 0 <= y < height g.
Proof.
  intros H. apply isInBounds_true. unfold getTile in H.
  by destruct (isInBounds g x y).
Qed.

Lemma setTile_outside g x y t :
  ¬ (0 <= x < width g ∧ 0 <= y < height g) → setTile g x y t = g.
Proof. intros H. unfold setTile. by rewrite (proj2 (isInBounds_false g x y) H). Qed.

Lemma getTile_setTile_eq g x y t :
  Grid_wf g → 0 <= x < width g → 0 <= y < height g →
  getTile (setTile g x y t) x y = t.
Proof.
  intros [Hl Hr] Hx Hy. unfold getTile. rewrite isInBounds_setTile.
  assert (Hb : isInBounds g x y = true) by (apply isInBounds_true; lia).
  rewrite Hb. unfold setTile, cellAt. rewrite Hb. simpl.
  rewrite list_lookup_alter_eq.
  destruct (lookup_lt_is_Some_2 (cells g) (Z.to_nat y)) as [row Hrow]; [lia|].
  rewrite Hrow. simpl.
  rewrite list_lookup_insert_eq; [done|].
  rewrite Forall_lookup in Hr. rewrite (Hr _ _ Hrow). lia.
Qed.

Lemma getTile_setTile_ne g x y t x' y' :
  (x', y') ≠ (x, y) → getTile (setTile g x y t) x' y' = getTile g x' y'.
Proof.
  intros Hne. unfold getTile. rewrite isInBounds_setTile.
  destruct (isInBounds g x' y') eqn:Hb'; [|done].
  unfold setTile. destruct (isInBounds g x y) eqn:Hb; [|done].
  apply isInBounds_true in Hb, Hb'. unfold cellAt. simpl.
  destruct (decide (y' = y)) as [->|Hy].
  - rewrite list_lookup_alter_eq.
    destruct (cells g !! Z.to_nat y) as [row|]; [|done]. simpl.
    rewrite list_lookup_insert_ne; [done|].
    intros Heq. apply Hne. f_equal. lia.
  - rewrite list_lookup_alter_ne; [done|]. lia.
Qed.

Lemma getTile_setTile g x y t x' y' :
  Grid_wf g →
  getTile (setTile g x y t) x' y' =
    if decide ((x', y') = (x, y) ∧ 0 <= x < width g ∧ 0 <= y < height g)
    then t else getTile g x' y'.
Proof.
  intros Hwf. case_decide as H.
  - destruct H as [[= -> ->] [Hx Hy]]. by apply getTile_setTile_eq.
  - destruct (decide ((x', y') = (x, y))) as [[= -> ->]|Hne].
    + rewrite setTile_outside; [done|]. intros ?. apply H. done.
    + by apply getTile_setTile_ne.
Qed.

(** ** C8: grid accesses are total *)

(** C8. For every pair of integers (x,y) outside [0,width)×[0,height),
    [getTile] returns WALL, and [setTile] leaves the grid as it is: every
    in-bounds cell (indeed the whole grid) is unchanged. *)
Theorem grid_out_of_bounds_total (g : Grid) (x y : Z) (t : TileType) :
  ¬ (0 <= x < width g ∧ 0 <= y < height g) →
  getTile g x y = WALL ∧
  setTile g x y t = g ∧
  ∀ x' y', 0 <= x' < width g → 0 <= y' < height g →
           getTile (setTile g x y t) x' y' = getTile g x' y'.
Proof.
  intros H. split; [by apply getTile_outside|].
  split; [by apply setTile_outside|].
  intros x' y' _ _. by rewrite setTile_outside.
Qed.

Lemma grid_out_of_bounds_total_witness :
  getTile (emptyGrid 4 3) 4 1 = WALL ∧
  setTile (emptyGrid 4 3) 4 1 BOULDER = emptyGrid 4 3 ∧
  ∀ x' y', 0 <= x' < width (emptyGrid 4 3) → 0 <= y' < height (emptyGrid 4 3) →
           getTile (setTile (emptyGrid 4 3) 4 1 BOULDER) x' y' =
           getTile (emptyGrid 4 3) x' y'.
Proof. apply (grid_out_of_bounds_total (emptyGrid 4 3) 4 1 BOULDER). simpl. lia. Defined.

(** ** Physics: what one visit of the scan does *)

Lemma tile_eqb_true a b : tile_eqb a b = true ↔ a = b.
Proof. unfold tile_eqb. apply bool_decide_eq_true. Qed.

Lemma tile_eqb_false a b : tile_eqb a b = false ↔ a ≠ b.
Proof. unfold tile_eqb. apply bool_decide_eq_false. Qed.

Lemma tile_eqb_refl a : tile_eqb a a = true.
Proof. by apply tile_eqb_true. Qed.

(** Turn boolean tests found in hypotheses into propositions. *)
Ltac bool_hyps :=
  repeat match goal with
  | H : _ && _ = true |- _ => apply andb_true_iff in H; destruct H
  | H : _ || _ = false |- _ => apply orb_false_iff in H; destruct H
  | H : negb _ = true |- _ => apply negb_true_iff in H
  | H : negb _ = false |- _ => apply negb_false_iff in H
  | H : tile_eqb _ _ = true |- _ => apply tile_eqb_true in H
  | H : tile_eqb _ _ = false |- _ => apply tile_eqb_false in H
  | H : (_ =? _) = true |- _ => apply Z.eqb_eq in H
  | H : (_ =? _) = false |- _ => apply Z.eqb_neq in H
  | H : (_ <=? _) = true |- _ => apply Z.leb_le in H
  | H : (_ <=? _) = false |- _ => apply Z.leb_gt in H
  end.

Lemma grid_startExplosion s : grid (startExplosion s) = grid s.
Proof. unfold startExplosion. by destruct (gameOver s). Qed.

Lemma grid_crushAfterGrace s : grid (crushAfterGrace s) = grid s.
Proof.
  unfold crushAfterGrace. simpl.
  destruct (Qleb _ _); [by rewrite grid_startExplosion|done].
Qed.

Lemma playerX_startExplosion s : playerX (startExplosion s) = playerX s.
Proof. unfold startExplosion. by destruct (gameOver s). Qed.

Lemma playerY_startExplosion s : playerY (startExplosion s) = playerY s.
Proof. unfold startExplosion. by destruct (gameOver s). Qed.

Lemma playerX_crushAfterGrace s : playerX (crushAfterGrace s) = playerX s.
Proof.
  unfold crushAfterGrace. simpl.
  destruct (Qleb _ _); [by rewrite playerX_startExplosion|done].
Qed.

Lemma playerY_crushAfterGrace s : playerY (crushAfterGrace s) = playerY s.
Proof.
  unfold crushAfterGrace. simpl.
  destruct (Qleb _ _); [by rewrite playerY_startExplosion|done].
Qed.

Lemma physicsCell_effect s x y : visit_effect s x y (grid (physicsCell s (x, y))).
Proof.
  unfold physicsCell.
  destruct (tile_eqb (getTile (grid s) x y) BOULDER
            || tile_eqb (getTile (grid s) x y) DIAMOND) eqn:Hobj;
    [|constructor].
  destruct (canFall x y s) eqn:Hfall.
  - assert (Hg : ∀ s', grid s' = moved (grid s) x y x (getTile (grid s) x y) →
                       visit_effect s x y (grid s')).
    { intros s' ->. unfold canFall in Hfall. apply orb_true_iff in Hobj.
      bool_hyps. apply visit_fall; try done.
      - destruct Hobj as [H1|H1]; apply tile_eqb_true in H1; auto.
      - intros [-> Hy]. rewrite Hy in *. rewrite !Z.eqb_refl in *. done. }
    repeat case_match; apply Hg; rewrite ?grid_crushAfterGrace; done.
  - destruct (tile_eqb (getTile (grid s) x y) BOULDER) eqn:Hb; [|constructor].
    apply tile_eqb_true in Hb.
    destruct (canRoll (-1) x y s) eqn:Hl.
    + unfold canRoll in Hl. bool_hyps.
      change (grid _) with (moved (grid s) x y (x + -1) BOULDER).
      apply visit_roll; auto.
    + destruct (canRoll 1 x y s) eqn:Hr; [|constructor].
      unfold canRoll in Hr. bool_hyps.
      change (grid _) with (moved (grid s) x y (x + 1) BOULDER).
      apply visit_roll; auto.
Qed.

Lemma playerX_physicsCell s c : playerX (physicsCell s c) = playerX s.
Proof.
  destruct c as [x y]. unfold physicsCell.
  repeat case_match; rewrite ?playerX_crushAfterGrace; done.
Qed.

Lemma playerY_physicsCell s c : playerY (physicsCell s c) = playerY s.
Proof.
  destruct c as [x y]. unfold physicsCell.
  repeat case_match; rewrite ?playerY_crushAfterGrace; done.
Qed.

Lemma moved_wf g x y x' t : Grid_wf g → Grid_wf (moved g x y x' t).
Proof. intros. unfold moved. by do 2 apply setTile_wf. Qed.

Lemma moved_width g x y x' t : width (moved g x y x' t) = width g.
Proof. unfold moved. by rewrite !setTile_width. Qed.

Lemma moved_height g x y x' t : height (moved g x y x' t) = height g.
Proof. unfold moved. by rewrite !setTile_height. Qed.

Lemma physicsCell_wf s c : Grid_wf (grid s) → Grid_wf (grid (physicsCell s c)).
Proof.
  destruct c as [x y]. intros Hwf.
  destruct (physicsCell_effect s x y); auto using moved_wf.
Qed.

Lemma physicsCell_width s c : width (grid (physicsCell s c)) = width (grid s).
Proof.
  destruct c as [x y].
  destruct (physicsCell_effect s x y); auto using moved_width.
Qed.

Lemma physicsCell_height s c : height (grid (physicsCell s c)) = height (grid s).
Proof.
  destruct c as [x y].
  destruct (physicsCell_effect s x y); auto using moved_height.
Qed.

(** Reading the grid after a move. *)
Lemma getTile_moved g x y x' t a b :
  Grid_wf g →
  getTile g x y ≠ WALL → getTile g x' (y + 1) = EMPTY →
  getTile (moved g x y x' t) a b =
    if decide ((a, b) = (x', y + 1)) then t
    else if decide ((a, b) = (x, y)) then EMPTY
    else getTile g a b.
Proof.
  intros Hwf Hsrc Hdst. unfold moved.
  apply getTile_not_WALL_inside in Hsrc.
  assert (Hd : 0 <= x' < width g ∧ 0 <= y + 1 < height g).
  { apply getTile_not_WALL_inside. by rewrite Hdst. }
  rewrite getTile_setTile by by apply setTile_wf.
  rewrite setTile_width, setTile_height.
  case_decide as H1.
  - destruct H1 as [-> _]. by rewrite decide_True.
  - rewrite decide_False by (intros ?; apply H1; done).
    rewrite getTile_setTile by done.
    case_decide as H2.
    + destruct H2 as [-> _]. by rewrite decide_True.
    + rewrite decide_False by (intros ?; apply H2; done). done.
Qed.

(** ** Physics: counting tiles *)

Lemma countRow_cons t c row :
  countRow t (c :: row) = (Nat.b2n (bool_decide (c = t)) + countRow t row)%nat.
Proof.
  unfold countRow. rewrite filter_cons.
  case_decide; [rewrite bool_decide_eq_true_2|rewrite bool_decide_eq_false_2];
    done.
Qed.

Lemma countRow_insert t row i old v :
  row !! i = Some old →
  (countRow t (<[i:=v]> row) + Nat.b2n (bool_decide (old = t)) =
   countRow t row + Nat.b2n (bool_decide (v = t)))%nat.
Proof.
  revert i. induction row as [|c row IH]; intros [|i] Hi; simplify_eq/=.
  - rewrite !countRow_cons. lia.
  - rewrite !countRow_cons. specialize (IH _ Hi). lia.
Qed.

Lemma countRows_alter t (f : list TileType → list TileType) rows j row :
  rows !! j = Some row →
  (sum_list (countRow t <$> alter f j rows) + countRow t row =
   sum_list (countRow t <$> rows) + countRow t (f row))%nat.
Proof.
  revert j. induction rows as [|r rows IH]; intros [|j] Hj; simplify_eq/=.
  - lia.
  - specialize (IH _ Hj). lia.
Qed.

Lemma countTile_setTile t g x y v :
  Grid_wf g → 0 <= x < width g → 0 <= y < height g →
  (countTile t (setTile g x y v) + Nat.b2n (bool_decide (getTile g x y = t)) =
   countTile t g + Nat.b2n (bool_decide (v = t)))%nat.
Proof.
  intros [Hl Hr] Hx Hy.
  assert (Hb : isInBounds g x y = true) by (apply isInBounds_true; lia).
  unfold countTile, getTile, setTile, cellAt. rewrite Hb. simpl.
  destruct (lookup_lt_is_Some_2 (cells g) (Z.to_nat y)) as [row Hrow]; [lia|].
  assert (Hlen : length row = Z.to_nat (width g)).
  { rewrite Forall_lookup in Hr. by apply (Hr _ _ Hrow). }
  destruct (lookup_lt_is_Some_2 row (Z.to_nat x)) as [old Hold]; [lia|].
  rewrite Hrow. simpl. rewrite Hold. simpl.
  pose proof (countRows_alter t (λ r, <[Z.to_nat x:=v]> r) _ _ _ Hrow) as H1.
  pose proof (countRow_insert t _ _ _ v Hold) as H2.
  simpl in H1. lia.
Qed.

Lemma countTile_moved t g x y x' t0 :
  Grid_wf g →
  getTile g x y = t0 → t0 ≠ WALL → getTile g x' (y + 1) = EMPTY →
  countTile t (moved g x y x' t0) = countTile t g.
Proof.
  intros Hwf Hsrc Ht0 Hdst. unfold moved.
  assert (Hs : 0 <= x < width g ∧ 0 <= y < height g).
  { apply getTile_not_WALL_inside. by rewrite Hsrc. }
  assert (Hd : 0 <= x' < width g ∧ 0 <= y + 1 < height g).
  { apply getTile_not_WALL_inside. by rewrite Hdst. }
  pose proof (countTile_setTile t g x y EMPTY Hwf (proj1 Hs) (proj2 Hs)) as H1.
  pose proof (countTile_setTile t (setTile g x y EMPTY) x' (y + 1) t0) as H2.
  rewrite setTile_width, setTile_height in H2.
  specialize (H2 (setTile_wf _ _ _ _ Hwf) (proj1 Hd) (proj2 Hd)).
  rewrite getTile_setTile_ne in H2 by (intros [= ? ?]; lia).
  rewrite Hdst, Hsrc in *. lia.
Qed.

Lemma visit_effect_count s x y g' t :
  Grid_wf (grid s) → visit_effect s x y g' → countTile t g' = countTile t (grid s).
Proof.
  intros Hwf [|t0 Ht0 Hsrc Hdst _|d _ Hsrc _ _ Hdst]; [done| |].
  - apply countTile_moved; try done. by destruct Ht0 as [->| ->].
  - by apply countTile_moved.
Qed.

Lemma visit_effect_static s x y g' a b :
  Grid_wf (grid s) → visit_effect s x y g' →
  static (getTile (grid s) a b) → getTile g' a b = getTile (grid s) a b.
Proof.
  intros Hwf Heff (HnE & HnB & HnD).
  destruct Heff as [|t0 Ht0 Hsrc Hdst _|d _ Hsrc _ _ Hdst]; [done| |].
  - rewrite getTile_moved; [|done| |done].
    + repeat case_decide; simplify_eq; try done.
      destruct Ht0; congruence.
    + rewrite Hsrc. by destruct Ht0 as [->| ->].
  - rewrite getTile_moved; [|done| |done].
    + repeat case_decide; simplify_eq; done.
    + by rewrite Hsrc.
Qed.

(** What a whole scan keeps. *)
Lemma scan_keeps cs s :
  Grid_wf (grid s) →
  Grid_wf (grid (scan cs s)) ∧
  width (grid (scan cs s)) = width (grid s) ∧
  height (grid (scan cs s)) = height (grid s) ∧
  playerX (scan cs s) = playerX s ∧
  playerY (scan cs s) = playerY s ∧
  (∀ t, countTile t (grid (scan cs s)) = countTile t (grid s)) ∧
  (∀ a b, static (getTile (grid s) a b) →
          getTile (grid (scan cs s)) a b = getTile (grid s) a b).
Proof.
  unfold scan. revert s. induction cs as [|[x y] cs IH]; intros s Hwf; [done|].
  simpl. pose proof (physicsCell_effect s x y) as Heff.
  destruct (IH (physicsCell s (x, y)) (physicsCell_wf _ _ Hwf))
    as (Hw & Hwd & Hht & Hpx & Hpy & Hcnt & Hst).
  rewrite physicsCell_width in Hwd. rewrite physicsCell_height in Hht.
  rewrite playerX_physicsCell in Hpx. rewrite playerY_physicsCell in Hpy.
  do 5 (split; [done|]). split.
  - intros t. rewrite Hcnt. by eapply visit_effect_count.
  - intros a b Hs.
    pose proof (visit_effect_static _ _ _ _ a b Hwf Heff Hs) as Heq.
    rewrite <- Heq. apply Hst. by rewrite Heq.
Qed.

Lemma grid_checkPlayerTile s : grid (checkPlayerTile s) = grid s.
Proof.
  unfold checkPlayerTile. case_match; [apply grid_crushAfterGrace|done].
Qed.

Lemma grid_updatePhysics s :
  grid (updatePhysics s) = grid (scan (scanOrder (grid s)) s).
Proof. unfold updatePhysics. apply grid_checkPlayerTile. Qed.

Lemma moves_first g g' g'' : oneMove g g' → moves g' g'' → moves g g''.
Proof.
  intros Hone Hrest. induction Hrest as [g'|g' g1 g2 _ IH Hlast].
  - eapply moves_step; [apply moves_none|done].
  - eapply moves_step; [by apply IH|done].
Qed.

(** What a visit does to the grid is nothing or one move. *)
Lemma physicsCell_moves s c :
  grid (physicsCell s c) = grid s ∨ oneMove (grid s) (grid (physicsCell s c)).
Proof.
  destruct c as [x y].
  destruct (physicsCell_effect s x y) as [|t Ht Hsrc Hdst _|d Hd Hsrc _ _ Hdst].
  - by left.
  - right. apply one_move; [done|done|done|lia].
  - right. apply one_move; [by left|done|done|lia].
Qed.

Lemma scan_moves cs s : moves (grid s) (grid (scan cs s)).
Proof.
  unfold scan. revert s. induction cs as [|c cs IH]; intros s; [apply moves_none|].
  cbn [foldl]. destruct (physicsCell_moves s c) as [Heq|Hone].
  - rewrite <- Heq. apply IH.
  - eapply moves_first; [exact Hone|apply IH].
Qed.

(** C10. One physics update leaves every Wall, Dirt and Exit cell as it
    was and keeps the number of Boulder tiles and the number of Diamond
    tiles. What it does to the grid is a sequence of moves of a single
    Boulder or Diamond each, one row down, straight or diagonally, into a
    cell that holds Empty when the object moves in: nothing is created,
    destroyed or merged. *)
Theorem updatePhysics_conserves (s : Game) :
  Grid_wf (grid s) →
  (∀ x y, getTile (grid s) x y = WALL ∨ getTile (grid s) x y = DIRT
          ∨ getTile (grid s) x y = EXIT →
          getTile (grid (updatePhysics s)) x y = getTile (grid s) x y) ∧
  countTile BOULDER (grid (updatePhysics s)) = countTile BOULDER (grid s) ∧
  countTile DIAMOND (grid (updatePhysics s)) = countTile DIAMOND (grid s) ∧
  moves (grid s) (grid (updatePhysics s)).
Proof.
  intros Hwf. rewrite grid_updatePhysics.
  destruct (scan_keeps (scanOrder (grid s)) s Hwf)
    as (_ & _ & _ & _ & _ & Hcnt & Hst).
  split; [|split; [apply Hcnt|split; [apply Hcnt|apply scan_moves]]].
  intros x y H. apply Hst. unfold static.
  destruct H as [H|[H|H]]; rewrite H; done.
Qed.

(** ** Physics: the order of the scan *)

Lemma elem_of_countDown z n : z ∈ countDown n ↔ 0 <= z < Z.of_nat n.
Proof.
  induction n as [|n IH]; simpl.
  - rewrite elem_of_nil. lia.
  - rewrite elem_of_cons, IH. lia.
Qed.

Lemma countDown_split n k :
  (k < n)%nat →
  ∃ hi, countDown n = hi ++ Z.of_nat k :: countDown k ∧
        ∀ z, z ∈ hi → Z.of_nat k < z.
Proof.
  induction n as [|n IH]; intros Hk; [lia|].
  destruct (decide (k = n)) as [->|Hne].
  - exists []. split; [done|]. intros z Hz. by apply elem_of_nil in Hz.
  - destruct IH as (hi & Heq & Hhi); [lia|].
    exists (Z.of_nat n :: hi). split; [simpl; by rewrite Heq|].
    intros z [->|Hz]%elem_of_cons; [lia|by apply Hhi].
Qed.

Lemma downFrom_split hi k :
  0 <= k <= hi →
  ∃ above, downFrom hi = above ++ k :: downFrom (k - 1) ∧
           ∀ z, z ∈ above → k < z.
Proof.
  intros Hk. unfold downFrom.
  destruct (countDown_split (Z.to_nat (hi + 1)) (Z.to_nat k)) as (above & Heq & Habove);
    [lia|].
  exists above. rewrite Z2Nat.id in * by lia.
  replace (k - 1 + 1) with k by lia. done.
Qed.

Lemma elem_of_downFrom z hi : z ∈ downFrom hi ↔ 0 <= z <= hi.
Proof. unfold downFrom. rewrite elem_of_countDown. lia. Qed.

Lemma scanOrder_split g x y :
  0 <= x <= getWidth g - 2 → 0 <= y <= getHeight g - 2 →
  ∃ pre post,
    scanOrder g = pre ++ (x, y) :: post ∧
    (∀ c, c ∈ pre → earlier c (x, y)) ∧
    (∀ c, c ∈ post → earlier (x, y) c).
Proof.
  intros Hx Hy. unfold scanOrder.
  destruct (downFrom_split _ _ Hy) as (ys1 & -> & Hys1).
  destruct (downFrom_split _ _ Hx) as (xs1 & Hxs & Hxs1).
  set (row := λ y : Z, x ← downFrom (getWidth g - 2); [(x, y)]).
  exists ((ys1 ≫= row) ++ (xs1 ≫= λ x, [(x, y)])),
         ((downFrom (x - 1) ≫= λ x, [(x, y)]) ++ (downFrom (y - 1) ≫= row)).
  split; [|split].
  - rewrite bind_app, bind_cons. unfold row at 2. rewrite Hxs.
    rewrite bind_app, bind_cons. simpl. by rewrite <- !app_assoc.
  - intros c [Hc|Hc]%elem_of_app; apply list_elem_of_bind in Hc.
    + destruct Hc as (y' & Hc & Hy'). apply list_elem_of_bind in Hc.
      destruct Hc as (x' & ->%list_elem_of_singleton & _).
      left. simpl. by apply Hys1.
    + destruct Hc as (x' & ->%list_elem_of_singleton & Hx').
      right. simpl. split; [done|by apply Hxs1].
  - intros c [Hc|Hc]%elem_of_app; apply list_elem_of_bind in Hc.
    + destruct Hc as (x' & ->%list_elem_of_singleton & Hx').
      apply elem_of_downFrom in Hx'. right. simpl. lia.
    + destruct Hc as (y' & Hc & Hy'). apply list_elem_of_bind in Hc.
      destruct Hc as (x' & ->%list_elem_of_singleton & _).
      apply elem_of_downFrom in Hy'. left. simpl. lia.
Qed.

Lemma earlier_irrefl c : ¬ earlier c c.
Proof. unfold earlier. lia. Qed.

(** ** Physics: falling *)

(** Every change a visit makes is one object going one row down. *)
Lemma visit_effect_inv s x y g' :
  visit_effect s x y g' →
  g' = grid s ∨
  ∃ x' t,
    g' = moved (grid s) x y x' t ∧
    (t = BOULDER ∨ t = DIAMOND) ∧
    getTile (grid s) x y = t ∧
    getTile (grid s) x' (y + 1) = EMPTY ∧
    (x' = x ∨ ((x' = x - 1 ∨ x' = x + 1) ∧ getTile (grid s) x' y = EMPTY)).
Proof.
  intros [|t Ht Hsrc Hdst _|d Hd Hsrc _ Hside Hdst]; [by left| |]; right.
  - exists x, t. auto 10.
  - exists (x + d), BOULDER. do 4 (split; [auto; fail|]).
    right. split; [|done]. destruct Hd as [->| ->]; lia.
Qed.

Lemma object_not_WALL t : t = BOULDER ∨ t = DIAMOND → t ≠ WALL ∧ t ≠ EMPTY.
Proof. intros [->| ->]; done. Qed.

(** Visits that come before [(a, b)] leave the object there and the empty
    cell under it alone. *)
Lemma visit_before_keeps s c a b t :
  Grid_wf (grid s) → earlier c (a, b) →
  t = BOULDER ∨ t = DIAMOND →
  getTile (grid s) a b = t → getTile (grid s) a (b + 1) = EMPTY →
  getTile (grid (physicsCell s c)) a b = t ∧
  getTile (grid (physicsCell s c)) a (b + 1) = EMPTY.
Proof.
  intros Hwf Hearly Ht Hab Hunder. destruct c as [x y].
  unfold earlier in Hearly. simpl in Hearly.
  destruct (visit_effect_inv _ _ _ _ (physicsCell_effect s x y))
    as [->|(x' & t' & -> & Ht' & Hsrc & Hdst & Hx')]; [done|].
  destruct (object_not_WALL _ Ht) as [_ HtE].
  destruct (object_not_WALL _ Ht') as [Ht'W _].
  rewrite !getTile_moved by (rewrite ?Hsrc; done).
  split.
  - rewrite !decide_False by (intros [= ? ?]; lia). done.
  - case_decide as H1; [|by case_decide].
    injection H1 as -> Hy. assert (y = b) as -> by lia.
    destruct Hx' as [->|[_ Hside]]; [lia|congruence].
Qed.

(** Only its own visit moves an object. *)
Lemma visit_keeps_object s c a b t :
  Grid_wf (grid s) → c ≠ (a, b) →
  t = BOULDER ∨ t = DIAMOND →
  getTile (grid s) a b = t →
  getTile (grid (physicsCell s c)) a b = t.
Proof.
  intros Hwf Hne Ht Hab. destruct c as [x y].
  destruct (visit_effect_inv _ _ _ _ (physicsCell_effect s x y))
    as [->|(x' & t' & -> & Ht' & Hsrc & Hdst & Hx')]; [done|].
  destruct (object_not_WALL _ Ht) as [_ HtE].
  destruct (object_not_WALL _ Ht') as [Ht'W _].
  rewrite !getTile_moved by (rewrite ?Hsrc; done).
  case_decide as H1.
  - injection H1 as -> ->. congruence.
  - rewrite decide_False by congruence. done.
Qed.

Lemma scan_before_keeps cs s a b t :
  Grid_wf (grid s) → (∀ c, c ∈ cs → earlier c (a, b)) →
  t = BOULDER ∨ t = DIAMOND →
  getTile (grid s) a b = t → getTile (grid s) a (b + 1) = EMPTY →
  getTile (grid (scan cs s)) a b = t ∧
  getTile (grid (scan cs s)) a (b + 1) = EMPTY.
Proof.
  unfold scan. revert s.
  induction cs as [|c cs IH]; intros s Hwf Hcs Ht Hab Hunder; [done|].
  simpl.
  destruct (visit_before_keeps s c a b t) as [H1 H2]; auto.
  { apply Hcs. by left. }
  apply IH; auto using physicsCell_wf.
  intros c' Hc'. apply Hcs. by right.
Qed.

Lemma scan_keeps_object cs s a b t :
  Grid_wf (grid s) → (a, b) ∉ cs →
  t = BOULDER ∨ t = DIAMOND →
  getTile (grid s) a b = t →
  getTile (grid (scan cs s)) a b = t.
Proof.
  unfold scan. revert s.
  induction cs as [|c cs IH]; intros s Hwf Hcs Ht Hab; [done|].
  simpl. apply not_elem_of_cons in Hcs as [Hc Hcs].
  apply IH; auto using physicsCell_wf.
  apply visit_keeps_object; auto.
Qed.

(** The visit of a cell whose object can fall. *)
Lemma physicsCell_fall s x y t :
  t = BOULDER ∨ t = DIAMOND →
  getTile (grid s) x y = t → getTile (grid s) x (y + 1) = EMPTY →
  ¬ (x = playerX s ∧ y + 1 = playerY s) →
  grid (physicsCell s (x, y)) = moved (grid s) x y x t.
Proof.
  intros Ht Hsrc Hdst Hpl. unfold physicsCell. rewrite Hsrc.
  assert ((tile_eqb t BOULDER || tile_eqb t DIAMOND) = true) as ->.
  { destruct Ht as [->| ->]; done. }
  assert (canFall x y s = true) as ->.
  { unfold canFall. rewrite Hdst. simpl.
    apply negb_true_iff, andb_false_iff.
    destruct (decide (x = playerX s)) as [Hx|Hx];
      [right|left]; apply Z.eqb_neq; tauto. }
  repeat case_match; rewrite ?grid_crushAfterGrace; done.
Qed.

Lemma scan_app cs1 cs2 s : scan (cs1 ++ cs2) s = scan cs2 (scan cs1 s).
Proof. unfold scan. apply foldl_app. Qed.

(** C1. In every grid the game plays on (well formed, with its outer
    ring all Wall, as every level is generated and kept), a Boulder or
    Diamond that has Empty directly below, with the player not in that
    cell, goes down exactly one cell in one physics update: the scan
    reaches its cell; when it does, the object and the empty cell under it
    are as they were at the start; the visit moves it one cell down; the
    cell it lands in has already been visited and is not visited again;
    and from then on until the end of the update the object stays in that
    cell. *)
Theorem updatePhysics_falls_one_cell (s : Game) (x y : Z) (t : TileType) :
  Grid_wf (grid s) →
  ringWalled (grid s) →
  t = BOULDER ∨ t = DIAMOND →
  getTile (grid s) x y = t →
  getTile (grid s) x (y + 1) = EMPTY →
  ¬ (x = playerX s ∧ y + 1 = playerY s) →
  ∃ pre post,
    scanOrder (grid s) = pre ++ (x, y) :: post ∧
    getTile (grid (scan pre s)) x y = t ∧
    getTile (grid (scan pre s)) x (y + 1) = EMPTY ∧
    getTile (grid (scan (pre ++ [(x, y)]) s)) x y = EMPTY ∧
    getTile (grid (scan (pre ++ [(x, y)]) s)) x (y + 1) = t ∧
    ((x, y + 1) ∉ post) ∧
    (∀ post1 post2, post = post1 ++ post2 →
       getTile (grid (scan (pre ++ (x, y) :: post1) s)) x (y + 1) = t) ∧
    getTile (grid (updatePhysics s)) x (y + 1) = t.
Proof.
  intros Hwf Hring Ht Hsrc Hdst Hpl.
  destruct (object_not_WALL _ Ht) as [HtW HtE].
  assert (Hin : 0 <= x < width (grid s) ∧ 0 <= y < height (grid s)).
  { apply getTile_not_WALL_inside. by rewrite Hsrc. }
  assert (Hcol : x < getWidth (grid s) - 1).
  { destruct (Z_lt_le_dec x (width (grid s) - 1)) as [|Hge]; [done|exfalso].
    apply HtW. rewrite <- Hsrc. apply Hring. unfold onRing. lia. }
  assert (Hin' : 0 <= x < width (grid s) ∧ 0 <= y + 1 < height (grid s)).
  { apply getTile_not_WALL_inside. by rewrite Hdst. }
  destruct (scanOrder_split (grid s) x y) as (pre & post & Horder & Hpre & Hpost);
    [unfold getWidth in *; lia|unfold getHeight; lia|].
  exists pre, post. split; [done|].
  destruct (scan_keeps pre s Hwf) as (Hwf1 & _ & _ & Hpx & Hpy & _).
  destruct (scan_before_keeps pre s x y t Hwf Hpre Ht Hsrc Hdst) as [H1 H2].
  assert (Hvisit : grid (scan (pre ++ [(x, y)]) s)
                   = moved (grid (scan pre s)) x y x t).
  { rewrite scan_app. unfold scan at 1. simpl.
    apply physicsCell_fall; auto. by rewrite Hpx, Hpy. }
  assert (Hlanded : getTile (grid (scan (pre ++ [(x, y)]) s)) x (y + 1) = t).
  { rewrite Hvisit, getTile_moved by (rewrite ?H1; done). by rewrite decide_True. }
  assert (Hlater : ∀ post1 post2, post = post1 ++ post2 →
            getTile (grid (scan (pre ++ (x, y) :: post1) s)) x (y + 1) = t).
  { intros post1 post2 ->.
    replace (pre ++ (x, y) :: post1) with ((pre ++ [(x, y)]) ++ post1)
      by (by rewrite <- app_assoc).
    rewrite scan_app. apply scan_keeps_object; auto.
    - rewrite Hvisit. by apply moved_wf.
    - intros Hc. assert (Hc' : (x, y + 1) ∈ post1 ++ post2).
      { apply elem_of_app. by left. }
      apply Hpost in Hc'. unfold earlier in Hc'. simpl in Hc'. lia. }
  repeat split; try done.
  - rewrite Hvisit, getTile_moved by (rewrite ?H1; done).
    rewrite decide_False by (intros [= ?]; lia). by rewrite decide_True.
  - intros Hmem. apply Hpost in Hmem. unfold earlier in Hmem. simpl in Hmem. lia.
  - rewrite grid_updatePhysics, Horder. apply (Hlater post []).
    by rewrite app_nil_r.
Qed.

(** ** Physics: rolling *)

Lemma canRoll_true d x y s :
  canRoll d x y s = true ↔
  getTile (grid s) x (y + 1) ≠ EMPTY ∧ rollLegal d x y s.
Proof.
  unfold canRoll, rollLegal. rewrite !andb_true_iff, !negb_true_iff.
  rewrite !andb_false_iff, tile_eqb_false, !tile_eqb_true, !Z.eqb_neq.
  destruct (decide (x + d = playerX s)); split; intros H; tauto.
Qed.

Lemma canFall_false_blocked x y s :
  getTile (grid s) x (y + 1) ≠ EMPTY → canFall x y s = false.
Proof.
  intros H. unfold canFall. apply tile_eqb_false in H. by rewrite H.
Qed.

(** The visit of a blocked Boulder with a free left side. *)
Lemma physicsCell_roll_left s x y :
  getTile (grid s) x y = BOULDER →
  getTile (grid s) x (y + 1) ≠ EMPTY →
  rollLegal (-1) x y s →
  physicsCell s (x, y) = setTileG (x - 1) (y + 1) BOULDER (setTileG x y EMPTY s).
Proof.
  intros Hsrc Hbelow Hleft. unfold physicsCell. rewrite Hsrc. simpl.
  rewrite canFall_false_blocked by done.
  by rewrite (proj2 (canRoll_true (-1) x y s)).
Qed.

(** Visits that come before [(a, b)] leave a Boulder there, the static
    tile under it and the two empty cells to its left alone. *)
Lemma visit_before_keeps_left s c a b :
  Grid_wf (grid s) → earlier c (a, b) →
  getTile (grid s) a b = BOULDER →
  static (getTile (grid s) a (b + 1)) →
  getTile (grid s) (a - 1) b = EMPTY →
  getTile (grid s) (a - 1) (b + 1) = EMPTY →
  getTile (grid (physicsCell s c)) a b = BOULDER ∧
  getTile (grid (physicsCell s c)) a (b + 1) = getTile (grid s) a (b + 1) ∧
  getTile (grid (physicsCell s c)) (a - 1) b = EMPTY ∧
  getTile (grid (physicsCell s c)) (a - 1) (b + 1) = EMPTY.
Proof.
  intros Hwf Hearly Hab Hst Hl Hlb. destruct c as [x y].
  split; [|split].
  3: {
    unfold earlier in Hearly. simpl in Hearly.
    destruct (visit_effect_inv _ _ _ _ (physicsCell_effect s x y))
      as [->|(x' & t' & -> & Ht' & Hsrc & Hdst & Hx')]; [done|].
    destruct (object_not_WALL _ Ht') as [Ht'W _].
    rewrite !getTile_moved by (rewrite ?Hsrc; done).
    split.
    - rewrite decide_False by (intros [= ? ?]; lia). by case_decide.
    - rewrite decide_False by (intros [= ? ?]; lia). by case_decide. }
  - unfold earlier in Hearly. simpl in Hearly.
    destruct (visit_effect_inv _ _ _ _ (physicsCell_effect s x y))
      as [->|(x' & t' & -> & Ht' & Hsrc & Hdst & Hx')]; [done|].
    destruct (object_not_WALL _ Ht') as [Ht'W _].
    rewrite !getTile_moved by (rewrite ?Hsrc; done).
    rewrite !decide_False by (intros [= ? ?]; lia). done.
  - eapply visit_effect_static; eauto using physicsCell_effect.
Qed.

Lemma scan_before_keeps_left cs s a b :
  Grid_wf (grid s) → (∀ c, c ∈ cs → earlier c (a, b)) →
  getTile (grid s) a b = BOULDER →
  static (getTile (grid s) a (b + 1)) →
  getTile (grid s) (a - 1) b = EMPTY →
  getTile (grid s) (a - 1) (b + 1) = EMPTY →
  getTile (grid (scan cs s)) a b = BOULDER ∧
  getTile (grid (scan cs s)) a (b + 1) = getTile (grid s) a (b + 1) ∧
  getTile (grid (scan cs s)) (a - 1) b = EMPTY ∧
  getTile (grid (scan cs s)) (a - 1) (b + 1) = EMPTY.
Proof.
  unfold scan. revert s.
  induction cs as [|c cs IH]; intros s Hwf Hcs Hab Hst Hl Hlb; [done|].
  simpl.
  destruct (visit_before_keeps_left s c a b) as (H1 & H2 & H3 & H4); auto.
  { apply Hcs. by left. }
  rewrite <- H2. apply IH; auto using physicsCell_wf.
  - intros c' Hc'. apply Hcs. by right.
  - by rewrite H2.
Qed.

(** C7 (as amended). When the scan visits a Boulder whose cell below is
    not Empty and both the left and the right roll are legal at that
    moment, the visit rolls it to the left in a single diagonal step: the
    Boulder leaves its cell and appears in the cell diagonally left-below,
    the cell to its left stays Empty and nothing is written on the right.
    In particular, a Boulder that at the start of the update rests on a
    tile that cannot move (neither Empty nor Boulder nor Diamond) with both
    rolls legal is rolled to the left by the update and is found
    diagonally left-below at its end. *)
Theorem roll_prefers_left (s : Game) (x y : Z) :
  Grid_wf (grid s) →
  getTile (grid s) x y = BOULDER →
  getTile (grid s) x (y + 1) ≠ EMPTY →
  rollLegal (-1) x y s →
  rollLegal 1 x y s →
  (getTile (grid (physicsCell s (x, y))) x y = EMPTY ∧
   getTile (grid (physicsCell s (x, y))) (x - 1) (y + 1) = BOULDER ∧
   getTile (grid (physicsCell s (x, y))) (x - 1) y = EMPTY ∧
   getTile (grid (physicsCell s (x, y))) (x + 1) y = EMPTY ∧
   getTile (grid (physicsCell s (x, y))) (x + 1) (y + 1) = EMPTY) ∧
  (static (getTile (grid s) x (y + 1)) →
   ∃ pre post,
     scanOrder (grid s) = pre ++ (x, y) :: post ∧
     scan (pre ++ [(x, y)]) s
       = setTileG (x - 1) (y + 1) BOULDER (setTileG x y EMPTY (scan pre s)) ∧
     getTile (grid (scan (pre ++ [(x, y)]) s)) x y = EMPTY ∧
     getTile (grid (scan (pre ++ [(x, y)]) s)) (x - 1) (y + 1) = BOULDER ∧
     getTile (grid (updatePhysics s)) (x - 1) (y + 1) = BOULDER).
Proof.
  intros Hwf Hsrc Hbelow Hleft Hright.
  assert (Hroll : ∀ s1 : Game,
            Grid_wf (grid s1) → getTile (grid s1) x y = BOULDER →
            getTile (grid s1) (x - 1) (y + 1) = EMPTY →
            ∀ a b, getTile (grid (setTileG (x - 1) (y + 1) BOULDER
                                    (setTileG x y EMPTY s1))) a b =
                   if decide ((a, b) = (x - 1, y + 1)) then BOULDER
                   else if decide ((a, b) = (x, y)) then EMPTY
                   else getTile (grid s1) a b).
  { intros s1 Hwf1 Hs1 Hd1 a b.
    assert (grid (setTileG (x - 1) (y + 1) BOULDER (setTileG x y EMPTY s1))
            = moved (grid s1) x y (x - 1) BOULDER) as -> by done.
    apply getTile_moved; [done|by rewrite Hs1|done]. }
  split.
  - rewrite physicsCell_roll_left by done.
    destruct Hleft as (Hl & Hlb & _). destruct Hright as (Hr & Hrb & _).
    replace (x + -1) with (x - 1) in * by lia.
    rewrite !Hroll by done.
    repeat case_decide; simplify_eq; try done; lia.
  - intros Hst.
    destruct Hleft as (Hl & Hlb & Hlp & Hlbp). destruct Hright as (Hr & Hrb & _).
    replace (x + -1) with (x - 1) in * by lia.
    assert (Hin : 0 <= x + 1 < width (grid s) ∧ 0 <= y < height (grid s)).
    { apply getTile_not_WALL_inside. by rewrite Hr. }
    assert (Hin' : 0 <= x - 1 < width (grid s) ∧ 0 <= y + 1 < height (grid s)).
    { apply getTile_not_WALL_inside. by rewrite Hlb. }
    destruct (scanOrder_split (grid s) x y) as (pre & post & Horder & Hpre & Hpost);
      [unfold getWidth; lia|unfold getHeight; lia|].
    exists pre, post. split; [done|].
    destruct (scan_keeps pre s Hwf) as (Hwf1 & _ & _ & Hpx & Hpy & _).
    destruct (scan_before_keeps_left pre s x y Hwf Hpre Hsrc Hst Hl Hlb)
      as (H1 & H2 & H3 & H4).
    assert (Hvisit : scan (pre ++ [(x, y)]) s
              = setTileG (x - 1) (y + 1) BOULDER (setTileG x y EMPTY (scan pre s))).
    { rewrite scan_app. unfold scan at 1. simpl.
      apply physicsCell_roll_left; [done|rewrite H2; apply Hst|].
      unfold rollLegal. replace (x + -1) with (x - 1) by lia.
      rewrite Hpx, Hpy. auto. }
    split; [done|]. rewrite Hvisit, !Hroll by done.
    split; [|split].
    { rewrite decide_False by (intros [= ? ?]; lia). by rewrite decide_True. }
    { by rewrite decide_True. }
    rewrite grid_updatePhysics, Horder.
    replace (pre ++ (x, y) :: post) with ((pre ++ [(x, y)]) ++ post)
      by (by rewrite <- app_assoc).
    rewrite scan_app. apply scan_keeps_object; auto.
    + rewrite Hvisit. by apply moved_wf.
    + intros Hc. apply Hpost in Hc. unfold earlier in Hc. simpl in Hc. lia.
    + rewrite Hvisit, Hroll by done. by rewrite decide_True.
Qed.

(** ** Physics: crushing and the grace period *)




















(** ** The countdown timer *)

Lemma Qleb_true a b : Qleb a b = true ↔ (a <= b)%Q.
Proof. apply Qle_bool_iff. Qed.

Lemma Qleb_false a b : Qleb a b = false ↔ (b < a)%Q.
Proof.
  unfold Qleb. split; intros H.
  - apply Qnot_le_lt. intros Hle. apply Qle_bool_iff in Hle. congruence.
  - destruct (Qle_bool a b) eqn:Hle; [|done].
    apply Qle_bool_iff in Hle. exfalso. by apply (Qlt_not_le _ _ H).
Qed.


Lemma Qltb_false a b : Qltb a b = false ↔ (b <= a)%Q.
Proof. unfold Qltb. rewrite negb_false_iff. apply Qleb_true. Qed.

(** One update of a running timer, case by case. *)
Lemma updateTime_running t s :
  gameOver s = false → gameWon s = false →
  (Qleb 1000 (t - lastTimeUpdate s) = false ∧ updateTime t s = s) ∨
  (Qleb 1000 (t - lastTimeUpdate s) = true ∧
   lastTimeUpdate (updateTime t s) = t ∧
   gameWon (updateTime t s) = false ∧
   if timeRemaining s - 1 <=? 0
   then timeRemaining (updateTime t s) = 0 ∧
        gameOver (updateTime t s) = true ∧
        isTimeWarning (updateTime t s) = false ∧
        soundCalls (updateTime t s) =
          Play explosion :: Stop timeWarning ::
            (if (timeRemaining s - 1 <=? TIME_WARNING_THRESHOLD)
                && negb (isTimeWarning s)
             then Play timeWarning :: soundCalls s else soundCalls s)
   else timeRemaining (updateTime t s) = timeRemaining s - 1 ∧
        gameOver (updateTime t s) = false ∧
        isTimeWarning (updateTime t s) =
          (isTimeWarning s || (timeRemaining s - 1 <=? TIME_WARNING_THRESHOLD))).
Proof.
  intros Hover Hwon. unfold updateTime. rewrite Hover, Hwon. simpl.
  destruct (Qleb 1000 (t - lastTimeUpdate s)) eqn:Hdue; [right|by left].
  split; [done|].
  destruct (timeRemaining s - 1 <=? TIME_WARNING_THRESHOLD) eqn:Hth;
    destruct (isTimeWarning s) eqn:Hw; simpl;
    destruct (timeRemaining s - 1 <=? 0) eqn:Hz; simpl;
    rewrite ?Hover, ?Hwon, ?Hw; done.
Qed.




Lemma runTimer_app ts1 ts2 s :
  runTimer (ts1 ++ ts2) s = runTimer ts2 (runTimer ts1 s).
Proof. unfold runTimer. apply foldl_app. Qed.










(** ** The camera *)

Lemma clampQ_range v hi : (0 <= hi → 0 <= clampQ v hi ∧ clampQ v hi <= hi)%Q.
Proof.
  intros Hhi. unfold clampQ. split.
  - apply Q.le_max_l.
  - apply Q.max_lub; [done|apply Q.le_min_r].
Qed.



Lemma clampQ_whole v hi :
  0 <= hi →
  (clampQ (inject_Z v) (inject_Z hi) == inject_Z (Z.max 0 (Z.min v hi)))%Q.
Proof.
  intros Hhi. unfold clampQ.
  assert (Hcases : (v <= 0 ∧ Z.max 0 (Z.min v hi) = 0)
                   ∨ (0 <= v ∧ v <= hi ∧ Z.max 0 (Z.min v hi) = v)
                   ∨ (hi <= v ∧ Z.max 0 (Z.min v hi) = hi)) by lia.
  rewrite Zle_Qle in Hhi.
  destruct Hcases as [[H1 ->]|[(H1 & H2 & ->)|[H1 ->]]];
    rewrite Zle_Qle in H1; try rewrite Zle_Qle in H2;
    change (inject_Z 0) with 0%Q in *;
    destruct (Q.max_spec 0 (Qmin (inject_Z v) (inject_Z hi))) as [[? ?]|[? ?]];
    destruct (Q.min_spec (inject_Z v) (inject_Z hi)) as [[? ?]|[? ?]]; lra.
Qed.











(** ** Collecting diamonds and revealing the exit *)

Lemma exitRejected_false s :
  exitRejected s = false ↔ candidateOk s (exitX s, exitY s).
Proof.
  unfold exitRejected, candidateOk, nearPlayer. simpl.
  rewrite orb_false_iff, andb_false_iff, tile_eqb_false, !Z.leb_gt.
  split; (intros [H1 H2]; split; [lia|done]).
Qed.

Lemma drawExit_spec s :
  sameButExit s (drawExit s) ∧
  (exitX (drawExit s), exitY (drawExit s)) = exitCandidate s 0 ∧
  randomCalls (drawExit s) = (randomCalls s + 2)%nat.
Proof.
  unfold drawExit, exitCandidate, sameButExit, randomCell, Math_random.
  cbn -[Qfloor Qmult inject_Z Z.add]. rewrite !Nat.add_0_r.
  replace (randomCalls s + 1)%nat with (S (randomCalls s)) by lia.
  split; [done|]. split; [done|lia].
Qed.

Lemma exitCandidate_next s k :
  exitCandidate (drawExit s) k = exitCandidate s (S k).
Proof.
  destruct (drawExit_spec s) as ((Hg & _ & _ & _ & _ & _ & Hr & _) & _ & Hn).
  unfold exitCandidate. rewrite Hg, Hr, Hn. do 4 f_equal; f_equal; lia.
Qed.

Lemma candidateOk_same s s' c :
  sameButExit s s' → candidateOk s' c ↔ candidateOk s c.
Proof.
  intros (Hg & Hx & Hy & _). unfold candidateOk. by rewrite Hg, Hx, Hy.
Qed.

Lemma sameButExit_trans s1 s2 s3 :
  sameButExit s1 s2 → sameButExit s2 s3 → sameButExit s1 s3.
Proof.
  unfold sameButExit. intros H1 H2. destruct_and!.
  repeat split; congruence.
Qed.

Lemma pickExit_spec fuel s s1 :
  pickExit fuel s = Some s1 →
  sameButExit s s1 ∧ candidateOk s (exitX s1, exitY s1).
Proof.
  revert s. induction fuel as [|fuel IH]; intros s H; [done|].
  simpl in H. destruct (drawExit_spec s) as (Hsame & _ & _).
  destruct (exitRejected (drawExit s)) eqn:Hrej.
  - destruct (IH _ H) as [Hsame' Hok]. split.
    + by eapply sameButExit_trans.
    + by apply (proj1 (candidateOk_same _ _ _ Hsame)).
  - injection H as <-. split; [done|].
    apply (proj1 (candidateOk_same _ _ _ Hsame)). by apply exitRejected_false.
Qed.

Lemma pickExit_terminates k s fuel :
  (k < fuel)%nat → candidateOk s (exitCandidate s k) →
  is_Some (pickExit fuel s).
Proof.
  revert s fuel. induction k as [|k IH]; intros s [|fuel] Hk Hok; try lia.
  - simpl. destruct (drawExit_spec s) as (Hsame & Hcand & _).
    assert (exitRejected (drawExit s) = false) as ->; [|done].
    apply exitRejected_false. rewrite Hcand.
    by apply (proj2 (candidateOk_same _ _ _ Hsame)).
  - simpl. destruct (exitRejected (drawExit s)); [|done].
    apply IH; [lia|]. rewrite exitCandidate_next.
    destruct (drawExit_spec s) as (Hsame & _).
    by apply (proj2 (candidateOk_same _ _ _ Hsame)).
Qed.

Lemma exitCandidate_range s k :
  randomInRange s → 5 <= width (grid s) → 5 <= height (grid s) →
  2 <= (exitCandidate s k).1 <= width (grid s) - 3 ∧
  2 <= (exitCandidate s k).2 <= height (grid s) - 3.
Proof.
  intros Hr Hw Hh. unfold exitCandidate, getWidth, getHeight. cbn [fst snd].
  destruct (Hr (randomCalls s + 2 * k)%nat) as (D0 & H0 & H1).
  destruct (Hr (randomCalls s + 2 * k + 1)%nat) as (D2 & H2 & H3).
  pose proof (floor_jsMul_range _ (width (grid s) - 4) D0 H0 H1 ltac:(lia)).
  pose proof (floor_jsMul_range _ (height (grid s) - 4) D2 H2 H3 ltac:(lia)).
  lia.
Qed.

Lemma pickExit_candidate fuel s s1 :
  pickExit fuel s = Some s1 →
  invFields s1 = invFields s ∧
  ∃ k, (exitX s1, exitY s1) = exitCandidate s k.
Proof.
  revert s. induction fuel as [|fuel IH]; intros s Hpick; [done|].
  cbn [pickExit] in Hpick.
  destruct (drawExit_spec s) as (_ & Hc & _).
  destruct (exitRejected (drawExit s)).
  - destruct (IH _ Hpick) as (Hf & k & Hk). split.
    + rewrite Hf. done.
    + exists (S k). by rewrite Hk, exitCandidate_next.
  - injection Hpick as <-. split; [done|]. by exists 0%nat.
Qed.

(** The exit is put on a cell the loop drew. *)
Lemma revealExit_cell fuel s s' :
  revealExit fuel s = Some s' →
  ∃ k, (exitX s', exitY s') = exitCandidate s k.
Proof.
  unfold revealExit. destruct (pickExit fuel s) as [s1|] eqn:Hpick; [|done].
  destruct (pickExit_candidate _ _ _ Hpick) as (_ & k & Hk).
  intros [= <-]. by exists k.
Qed.

Lemma revealExit_spec fuel s s' :
  revealExit fuel s = Some s' →
  exitRevealed s' = true ∧
  candidateOk s (exitX s', exitY s') ∧
  grid s' = setTile (grid s) (exitX s') (exitY s') EXIT ∧
  playerX s' = playerX s ∧ playerY s' = playerY s ∧
  score s' = score s ∧ diamondsCollected s' = diamondsCollected s.
Proof.
  unfold revealExit. destruct (pickExit fuel s) as [s1|] eqn:Hpick; [|done].
  destruct (pickExit_spec _ _ _ Hpick)
    as ((Hg & Hx & Hy & _ & Hsc & Hd & _) & Hok).
  intros [= <-]. simpl. rewrite Hg. done.
Qed.

Lemma revealExit_terminates k s fuel :
  (k < fuel)%nat → candidateOk s (exitCandidate s k) →
  is_Some (revealExit fuel s).
Proof.
  intros Hk Hok. unfold revealExit.
  destruct (pickExit_terminates k s fuel Hk Hok) as [s1 ->]. done.
Qed.

(** C5. Collecting a diamond adds the points and one to the count. It
    reveals the exit exactly when the new count has reached the required
    number and the exit is not revealed yet. The cell chosen then lies
    outside the 2-cell box around the player and has no Boulder directly
    above it, and the reveal writes Exit to that cell and to no other; on
    a well-formed grid of at least 5 × 5 cells, with [Math.random]
    keeping its contract, the cell lies inside the grid, two cells or
    more from every edge, and reads Exit afterwards. Otherwise (in
    particular once the exit is revealed) the revealed flag, the exit
    coordinates and the grid are left as they are. The call returns
    whenever no reveal is due, and, when one is due, as soon as the random
    stream offers an acceptable cell within the rounds allowed. *)
Theorem collectDiamond_reveal (s : Game) :
  (∀ fuel s', collectDiamond fuel s = Some s' →
     score s' = score s + POINTS_PER_DIAMOND ∧
     diamondsCollected s' = diamondsCollected s + 1 ∧
     if revealDue s
     then exitRevealed s' = true ∧
          ¬ (Z.abs (exitX s' - playerX s') <= 2
             ∧ Z.abs (exitY s' - playerY s') <= 2) ∧
          getTile (grid s') (exitX s') (exitY s' - 1) ≠ BOULDER ∧
          grid s' = setTile (grid s) (exitX s') (exitY s') EXIT ∧
          (Grid_wf (grid s) → randomInRange s →
           5 <= getWidth (grid s) → 5 <= getHeight (grid s) →
           2 <= exitX s' <= getWidth (grid s) - 3 ∧
           2 <= exitY s' <= getHeight (grid s) - 3 ∧
           getTile (grid s') (exitX s') (exitY s') = EXIT ∧
           ∀ x y, (x, y) ≠ (exitX s', exitY s') →
                  getTile (grid s') x y = getTile (grid s) x y)
     else exitRevealed s' = exitRevealed s ∧
          exitX s' = exitX s ∧ exitY s' = exitY s ∧ grid s' = grid s) ∧
  (revealDue s = false → ∀ fuel, is_Some (collectDiamond fuel s)) ∧
  (∀ k fuel, (k < fuel)%nat →
     candidateOk s (exitCandidate s k) → is_Some (collectDiamond fuel s)).
Proof.
  unfold revealDue, collectDiamond. simpl.
  set (s2 := set_diamondsCollected (diamondsCollected s + 1)
               (set_score (score s + POINTS_PER_DIAMOND) s)).
  destruct ((DIAMONDS_REQUIRED <=? diamondsCollected s + 1)
            && negb (exitRevealed s)) eqn:Hdue.
  - split; [|split; [done|]].
    + intros fuel s' H.
      destruct (revealExit fuel s2) as [s3|] eqn:Hrev; [|done].
      injection H as <-.
      destruct (revealExit_spec _ _ _ Hrev)
        as (Hrevd & [Hbox Habove] & Hg & Hx & Hy & Hsc & Hd).
      destruct (revealExit_cell _ _ _ Hrev) as [k Hk].
      simpl in *. rewrite Hsc, Hd, Hx, Hy. do 4 (split; [done|]).
      split; [|split; [done|]].
      * rewrite Hg. rewrite getTile_setTile_ne by (intros [= ?]; lia). done.
      * intros Hwf Hr Hw5 Hh5.
        destruct (exitCandidate_range s2 k Hr Hw5 Hh5) as [Hcx Hcy].
        rewrite <- Hk in Hcx, Hcy. cbn [fst snd] in Hcx, Hcy.
        change (width (grid s2)) with (width (grid s)) in Hcx.
        change (height (grid s2)) with (height (grid s)) in Hcy.
        unfold getWidth, getHeight in *.
        split; [done|]. split; [done|]. rewrite Hg. split.
        -- apply getTile_setTile_eq; [done|lia|lia].
        -- intros x y Hne. by apply getTile_setTile_ne.
    + intros k fuel Hk Hok.
      destruct (revealExit_terminates k s2 fuel Hk Hok) as [s3 ->]. done.
  - split; [|split; [done|done]].
    intros fuel s' [= <-]. done.
Qed.

(** ** The claims on the sample sessions *)

Lemma ringWalledb_sound g : ringWalledb g = true → ringWalled g.
Proof.
  unfold ringWalledb, ringWalled, onRing. intros H a b [[Ha Hb] Hedge].
  rewrite forallb_forall in H.
  assert (Ha' : In a (seqZ 0 (width g))).
  { apply list_elem_of_In, elem_of_seqZ. lia. }
  specialize (H a Ha'). rewrite forallb_forall in H.
  assert (Hb' : In b (seqZ 0 (height g))).
  { apply list_elem_of_In, elem_of_seqZ. lia. }
  specialize (H b Hb').
  assert ((a =? 0) || (a =? width g - 1) || (b =? 0) || (b =? height g - 1) = true)
    as Htrue.
  { rewrite !orb_true_iff, !Z.eqb_eq. tauto. }
  rewrite Htrue in H. simpl in H. by apply tile_eqb_true.
Qed.

Lemma solidCave_wf : Grid_wf solidCave.
Proof.
  split; [done|]. unfold solidCave. cbn [cells width].
  apply Forall_fmap, Forall_forall. intros y _.
  unfold compose. by rewrite length_fmap, length_seqZ.
Qed.

Lemma cave_wf tiles : Grid_wf (cave tiles).
Proof.
  unfold cave. generalize solidCave_wf. generalize solidCave.
  induction tiles as [|c tiles IH]; intros g Hg; [done|].
  simpl. by apply IH, setTile_wf.
Qed.



Lemma updatePhysics_falls_one_cell_witness :
  Grid_wf (grid fallingBoulder) ∧
  ringWalled (grid fallingBoulder) ∧
  getTile (grid fallingBoulder) 3 3 = BOULDER ∧
  getTile (grid fallingBoulder) 3 4 = EMPTY ∧
  getTile (grid (updatePhysics fallingBoulder)) 3 4 = BOULDER.
Proof.
  assert (H1 : Grid_wf (grid fallingBoulder)) by apply cave_wf.
  assert (H2 : getTile (grid fallingBoulder) 3 3 = BOULDER)
    by (vm_compute; reflexivity).
  assert (H3 : getTile (grid fallingBoulder) 3 (3 + 1) = EMPTY)
    by (vm_compute; reflexivity).
  assert (H4 : ¬ (3 = playerX fallingBoulder ∧ 3 + 1 = playerY fallingBoulder))
    by (intros [H _]; discriminate H).
  assert (H5 : ringWalled (grid fallingBoulder))
    by (apply ringWalledb_sound; vm_compute; reflexivity).
  do 4 (split; [assumption|]).
  destruct (updatePhysics_falls_one_cell fallingBoulder 3 3 BOULDER
              H1 H5 (or_introl eq_refl) H2 H3 H4)
    as (pre & post & _ & _ & _ & _ & _ & _ & _ & H).
  exact H.
Defined.


(** The grace test is the game's own subtraction of doubles: a last move
    at 127.7 ms and a clock at 352.7 ms are less than a physics interval
    apart, the difference rounds to the interval, and the player is
    killed. *)
Lemma grace_test_rounds :
  (clockStream graceEdge 0 - lastPlayerMoveTime graceEdge
     < PHYSICS_UPDATE_INTERVAL)%Q ∧
  (timeSinceLastMove (clockStream graceEdge 0) graceEdge
     == PHYSICS_UPDATE_INTERVAL)%Q ∧
  gameOver graceEdge = false ∧
  gameOver (updatePhysics graceEdge) = true.
Proof. by vm_compute. Qed.


(** The claim C7 as stated fails: the upper Boulder cannot fall at the
    start of the update and both rolls are legal, yet the update lets it
    fall straight down behind the lower one instead of rolling it left. *)
Lemma stacked_boulders_counterexample :
  getTile (grid stackedBoulders) 5 5 = BOULDER ∧
  getTile (grid stackedBoulders) 5 6 ≠ EMPTY ∧
  rollLegal (-1) 5 5 stackedBoulders ∧
  rollLegal 1 5 5 stackedBoulders ∧
  getTile (grid (updatePhysics stackedBoulders)) 4 6 = EMPTY ∧
  getTile (grid (updatePhysics stackedBoulders)) 5 6 = BOULDER ∧
  getTile (grid (updatePhysics stackedBoulders)) 5 7 = BOULDER.
Proof.
  unfold rollLegal. vm_compute.
  repeat split; try done; intros [? ?]; done.
Qed.

Lemma roll_prefers_left_witness :
  Grid_wf (grid boulderOnDirt) ∧
  getTile (grid boulderOnDirt) 5 5 = BOULDER ∧
  getTile (grid boulderOnDirt) 5 6 = DIRT ∧
  rollLegal (-1) 5 5 boulderOnDirt ∧
  rollLegal 1 5 5 boulderOnDirt ∧
  getTile (grid (updatePhysics boulderOnDirt)) 4 6 = BOULDER.
Proof.
  assert (H1 : Grid_wf (grid boulderOnDirt)) by apply cave_wf.
  assert (H2 : getTile (grid boulderOnDirt) 5 5 = BOULDER)
    by (vm_compute; reflexivity).
  assert (H3 : getTile (grid boulderOnDirt) 5 (5 + 1) = DIRT)
    by (vm_compute; reflexivity).
  assert (H4 : rollLegal (-1) 5 5 boulderOnDirt).
  { unfold rollLegal. vm_compute. repeat split; try done; intros [? ?]; done. }
  assert (H5 : rollLegal 1 5 5 boulderOnDirt).
  { unfold rollLegal. vm_compute. repeat split; try done; intros [? ?]; done. }
  assert (H6 : getTile (grid boulderOnDirt) 5 (5 + 1) ≠ EMPTY)
    by (rewrite H3; discriminate).
  assert (H7 : static (getTile (grid boulderOnDirt) 5 (5 + 1)))
    by (rewrite H3; repeat split; discriminate).
  do 5 (split; [assumption|]).
  destruct (roll_prefers_left boulderOnDirt 5 5 H1 H2 H6 H4 H5) as [_ H].
  destruct (H H7) as (pre & post & _ & _ & _ & _ & Hend).
  exact Hend.
Defined.

Lemma updatePhysics_conserves_witness :
  Grid_wf (grid stackedBoulders) ∧
  countTile BOULDER (grid (updatePhysics stackedBoulders))
    = countTile BOULDER (grid stackedBoulders) ∧
  countTile DIAMOND (grid (updatePhysics stackedBoulders))
    = countTile DIAMOND (grid stackedBoulders) ∧
  moves (grid stackedBoulders) (grid (updatePhysics stackedBoulders)).
Proof.
  assert (H1 : Grid_wf (grid stackedBoulders)) by apply cave_wf.
  split; [assumption|].
  destruct (updatePhysics_conserves stackedBoulders H1) as (_ & H2 & H3 & H4).
  split; [assumption|]. split; assumption.
Defined.



Lemma half_unitDouble : unitDouble (1 # 2).
Proof. split; [|split]; [by vm_compute|done|done]. Qed.

Lemma collectDiamond_reveal_witness :
  revealDue lastDiamond = true ∧
  candidateOk lastDiamond (exitCandidate lastDiamond 0) ∧
  ∃ s', collectDiamond 1 lastDiamond = Some s' ∧
        exitRevealed s' = true ∧
        getTile (grid s') (exitX s') (exitY s') = EXIT.
Proof.
  assert (H : candidateOk lastDiamond (exitCandidate lastDiamond 0)).
  { unfold candidateOk. vm_compute. split; [|done]. intros [H _]. done. }
  split; [done|]. split; [assumption|].
  destruct (collectDiamond_reveal lastDiamond) as (Hspec & _ & Hreturns).
  destruct (Hreturns 0%nat 1%nat ltac:(lia) H) as [s' Hs'].
  exists s'. split; [assumption|].
  destruct (Hspec 1%nat s' Hs') as (_ & _ & Hif).
  change (revealDue lastDiamond) with true in Hif.
  destruct Hif as (Hrev & _ & _ & _ & Hcell).
  split; [assumption|].
  apply Hcell; [apply cave_wf|intros n; apply half_unitDouble|done|done].
Defined.


(** ** Reset and the stale grid *)

(** A cell of the terrain loops that draws neither dirt nor a boulder
    keeps the tile it had. *)
Lemma terrainCell_undrawn s x y :
  nearPlayer 1 x y s = false →
  (literal (7 # 10) <= randomStream s (randomCalls s))%Q →
  (literal (3 # 10) <= randomStream s (S (randomCalls s)))%Q →
  grid (terrainCell s (x, y)) = grid s.
Proof.
  intros Hnear H1 H2. unfold terrainCell, Math_random. rewrite Hnear.
  cbn [randomStream randomCalls set_randomCalls].
  rewrite (proj2 (Qltb_false _ _) H1), (proj2 (Qltb_false _ _) H2). done.
Qed.

(** C3 at a won session, reset with the next two random draws 0 and all
    later ones 0.99: the counters and flags are cleared, but the Exit of
    the previous session is still at (4,2), now with the exit not
    revealed, and the Diamond of the previous session is still at
    (60,40). *)
Theorem resetGame_keeps_stale_tiles :
  getTile (grid wonSession) 4 2 = EXIT ∧
  getTile (grid wonSession) 60 40 = DIAMOND ∧
  afterReset <$> resetGame 1 wonSession
    = Some (0, 0, false, false, false, EXIT, DIAMOND).
Proof. vm_compute. done. Qed.

(** ** The movement resolver *)

Lemma stepTo_position key x y s :
  playerX (stepTo key x y s) = x ∧ playerY (stepTo key x y s) = y.
Proof.
  unfold stepTo, tryPushBoulder, updateCameraPosition, performance_now.
  destruct key; cbn -[clampQ inject_Z Z.modulo]; repeat case_match; done.
Qed.

(** A directional key in a running game moves the player exactly when
    [canMoveTo] accepts the destination and the win branch is not taken:
    onto Empty, Dirt, Diamond, and onto Exit while the exit is not
    revealed; never onto Boulder or Wall. *)
Lemma handleInput_position fuel key s s' :
  key ≠ KeyM → key ≠ KeyR →
  gameOver s = false → gameWon s = false →
  handleInput fuel key s = Some s' →
  (playerX s', playerY s') =
    let dest := (applyKey key s).1 in
    let tile := getTile (grid s) dest.1 dest.2 in
    if (tile_eqb tile EMPTY || tile_eqb tile DIRT || tile_eqb tile DIAMOND
        || (tile_eqb tile EXIT && negb (exitRevealed s)))
    then dest else (playerX s, playerY s).
Proof.
  intros HM HR Hover Hwon.
  assert (Hgen : ∀ x y s1,
            grid s1 = grid s → exitRevealed s1 = exitRevealed s →
            playerX s1 = playerX s → playerY s1 = playerY s →
            (if canMoveTo x y s1 then
               if tile_eqb (getTile (grid s1) x y) DIAMOND then
                 match collectDiamond fuel s1 with
                 | None => None
                 | Some s2 => Some (stepTo key x y (soundPlay diamond s2))
                 end
               else if tile_eqb (getTile (grid s1) x y) DIRT then
                 Some (stepTo key x y (soundPlay walk s1))
               else if tile_eqb (getTile (grid s1) x y) EXIT && exitRevealed s1 then
                 Some (soundPlay victory (soundStop timeWarning (set_gameWon true s1)))
               else Some (stepTo key x y s1)
             else Some s1) = Some s' →
            (playerX s', playerY s') =
              if (tile_eqb (getTile (grid s) x y) EMPTY
                  || tile_eqb (getTile (grid s) x y) DIRT
                  || tile_eqb (getTile (grid s) x y) DIAMOND
                  || (tile_eqb (getTile (grid s) x y) EXIT && negb (exitRevealed s)))
              then (x, y) else (playerX s, playerY s)).
  { intros x y s1 Hg Hrev Hx Hy. unfold canMoveTo. rewrite Hg, Hrev.
    destruct (getTile (grid s) x y), (exitRevealed s); simpl;
      try (intros [= <-]; simpl; first [ by rewrite Hx, Hy
             | by destruct (stepTo_position key x y s1) as [-> ->]
             | by destruct (stepTo_position key x y (soundPlay walk s1))
                 as [-> ->] ]);
      (destruct (collectDiamond fuel s1) as [s2|]; [|done]; intros [= <-];
       by destruct (stepTo_position key x y (soundPlay diamond s2)) as [-> ->]). }
  unfold handleInput. rewrite Hover, Hwon. cbn [orb].
  destruct key; try done; cbn [applyKey fst snd]; apply Hgen; done.
Qed.

(** C4 in the level that reset produces: the player, respawned at (2,2),
    steps right to (3,2) and right again onto the Exit tile at (4,2)
    although the exit is not revealed; the position changes, the tile is
    erased, and the game is not won. *)
Theorem handleInput_walks_onto_unrevealed_exit :
  afterMove <$> resetGame 1 wonSession = Some (2, 2, false, false, EXIT) ∧
  afterMove <$> (resetGame 1 wonSession ≫= handleInput 1 ArrowRight)
    = Some (3, 2, false, false, EXIT) ∧
  afterMove <$> ((resetGame 1 wonSession ≫= handleInput 1 ArrowRight)
                 ≫= handleInput 1 ArrowRight)
    = Some (4, 2, false, false, EMPTY).
Proof. vm_compute. done. Qed.


(** * Further properties *)

(** ** Grid *)

(** X1. On a grid of the shape the constructor makes, writing a tile at
    an in-bounds cell and reading that cell gives the tile back, every
    other cell reads as before, and the grid keeps its shape and size. *)
Theorem setTile_getTile_round_trip (g : Grid) (x y : Z) (t : TileType) :
  Grid_wf g → 0 <= x < getWidth g → 0 <= y < getHeight g →
  getTile (setTile g x y t) x y = t ∧
  (∀ x' y', (x', y') ≠ (x, y) →
            getTile (setTile g x y t) x' y' = getTile g x' y') ∧
  Grid_wf (setTile g x y t) ∧
  getWidth (setTile g x y t) = getWidth g ∧
  getHeight (setTile g x y t) = getHeight g.
Proof.
  unfold getWidth, getHeight. intros Hwf Hx Hy.
  split; [by apply getTile_setTile_eq|].
  split; [intros x' y' Hne; by apply getTile_setTile_ne|].
  split; [by apply setTile_wf|].
  by rewrite setTile_width, setTile_height.
Qed.

Lemma setTile_getTile_round_trip_witness :
  getTile (setTile (emptyGrid 4 3) 2 1 BOULDER) 2 1 = BOULDER ∧
  getTile (setTile (emptyGrid 4 3) 2 1 BOULDER) 1 1 = EMPTY.
Proof.
  destruct (setTile_getTile_round_trip (emptyGrid 4 3) 2 1 BOULDER)
    as (H1 & H2 & _); [apply emptyGrid_wf|simpl; lia|simpl; lia|].
  split; [exact H1|]. rewrite H2; [reflexivity|discriminate].
Defined.

Lemma countRow_replicate t n c :
  countRow t (replicate n c) = (Nat.b2n (bool_decide (c = t)) * n)%nat.
Proof.
  induction n as [|n IH]; [unfold countRow; simpl; lia|].
  simpl. rewrite countRow_cons, IH. lia.
Qed.

Lemma sum_list_replicate n k : sum_list (replicate n k) = (n * k)%nat.
Proof. induction n as [|n IH]; simpl; lia. Qed.

(** X2. The constructor of [Grid]. It throws exactly when the height is
    not an array length, or there is at least one row and the width is
    not an array length. Otherwise the grid it builds has the requested
    width and height, is well formed, reads Empty at every cell inside its
    bounds and Wall outside, and holds width × height Empty tiles and no
    other tile. *)
Theorem newGrid_all_empty (w h : Z) :
  (newGrid w h = None ↔
   h < 0 ∨ 2 ^ 32 <= h ∨ (0 < h ∧ (w < 0 ∨ 2 ^ 32 <= w))) ∧
  (∀ g, newGrid w h = Some g →
     getWidth g = w ∧ getHeight g = h ∧ Grid_wf g ∧
     (∀ x y, getTile g x y = if isInBounds g x y then EMPTY else WALL) ∧
     (∀ t, countTile t g
           = (if decide (t = EMPTY) then Z.to_nat w * Z.to_nat h else 0)%nat)).
Proof.
  unfold newGrid, arrayLength. split.
  - destruct (_ && _) eqn:E; split; try done.
    + intros Hbad. exfalso.
      apply andb_true_iff in E as [E1 E2]. apply andb_true_iff in E1 as [E1 E3].
      apply orb_true_iff in E2 as [E2|E2]; [lia|].
      apply andb_true_iff in E2 as [E2 E4]. lia.
    + intros _. apply andb_false_iff in E as [E|E].
      * apply andb_false_iff in E as [E|E]; lia.
      * apply orb_false_iff in E as [E1 E2].
        apply andb_false_iff in E2 as [E2|E2]; lia.
  - intros g Hg. destruct (_ && _); [|done].
    injection Hg as <-. split; [done|]. split; [done|].
    split; [apply emptyGrid_wf|]. split.
    + intros x y. unfold getTile.
      destruct (isInBounds (emptyGrid w h) x y) eqn:Hb; [|done].
      apply isInBounds_true in Hb. simpl in Hb. unfold cellAt. simpl.
      rewrite lookup_replicate_2 by lia. simpl.
      by rewrite lookup_replicate_2 by lia.
    + intros t. unfold countTile. simpl.
      rewrite fmap_replicate, countRow_replicate.
      rewrite sum_list_replicate. case_decide as Ht.
      * subst t. rewrite bool_decide_eq_true_2 by done. simpl. lia.
      * rewrite bool_decide_eq_false_2 by done. simpl. lia.
Qed.

Lemma newGrid_all_empty_witness :
  newGrid (-1) 3 = None ∧
  (∀ x y, getTile (emptyGrid 4 3) x y
          = if isInBounds (emptyGrid 4 3) x y then EMPTY else WALL).
Proof.
  destruct (newGrid_all_empty (-1) 3) as [Hnone _].
  destruct (newGrid_all_empty 4 3) as [_ Hsome].
  split; [apply Hnone; lia|].
  by destruct (Hsome (emptyGrid 4 3) eq_refl) as (_ & _ & _ & H & _).
Defined.

(** ** The timer once the game has ended *)

(** X3. Once the game is over or won, a timer update freezes the
    countdown: the remaining seconds, the last-tick time, the end flags and
    the grid stay as they are; the warning flag is cleared, and the warning
    cue is stopped only if the flag was set. A second update then changes
    nothing at all. *)
Theorem updateTime_frozen (s : Game) (t t' : Q) :
  gameOver s || gameWon s = true →
  timeRemaining (updateTime t s) = timeRemaining s ∧
  lastTimeUpdate (updateTime t s) = lastTimeUpdate s ∧
  gameOver (updateTime t s) = gameOver s ∧
  gameWon (updateTime t s) = gameWon s ∧
  grid (updateTime t s) = grid s ∧
  isTimeWarning (updateTime t s) = false ∧
  soundCalls (updateTime t s)
    = (if isTimeWarning s then Stop timeWarning :: soundCalls s
       else soundCalls s) ∧
  updateTime t' (updateTime t s) = updateTime t s.
Proof.
  intros Hend. unfold updateTime at 1 2 3 4 5 6 7 9. rewrite Hend.
  destruct (isTimeWarning s) eqn:Hw; simpl; rewrite ?Hw;
    (do 7 (split; [done|])); unfold updateTime; simpl; rewrite Hend; simpl;
    rewrite ?Hw; done.
Qed.

Lemma updateTime_frozen_witness :
  timeRemaining (updateTime 5000 (set_isTimeWarning true wonSession))
    = timeRemaining wonSession ∧
  isTimeWarning (updateTime 5000 (set_isTimeWarning true wonSession)) = false.
Proof.
  destruct (updateTime_frozen (set_isTimeWarning true wonSession) 5000 6000)
    as (H1 & _ & _ & _ & _ & H2 & _); [reflexivity|].
  split; [exact H1|exact H2].
Defined.

(** X4. The countdown never goes below zero and never goes up: from a
    counter between 0 and the time limit every timer update leaves it
    between 0 and its previous value, and so does every sequence of
    updates; and a timer update ends the game only by bringing the counter
    to 0. *)
Theorem updateTime_countdown_range (s : Game) (ts : list Q) (t : Q) :
  0 <= timeRemaining s <= TIME_LIMIT →
  0 <= timeRemaining (updateTime t s) <= timeRemaining s ∧
  0 <= timeRemaining (runTimer ts s) <= timeRemaining s ∧
  (gameOver s = false → gameOver (updateTime t s) = true →
   timeRemaining (updateTime t s) = 0).
Proof.
  assert (Hstep : ∀ t s, 0 <= timeRemaining s →
            0 <= timeRemaining (updateTime t s) <= timeRemaining s).
  { clear. intros t s Hs. unfold updateTime.
    repeat case_match; simpl in *; bool_hyps; lia. }
  intros Hs. split; [apply Hstep; lia|]. split.
  - destruct Hs as [Hs _]. unfold runTimer. revert s Hs.
    induction ts as [|t0 ts IH]; intros s Hs; simpl; [lia|].
    destruct (Hstep t0 s Hs) as [H1 H2].
    specialize (IH _ H1). lia.
  - intros Hover. unfold updateTime. rewrite Hover. simpl.
    repeat case_match; simpl; try done; congruence.
Qed.

Lemma updateTime_countdown_range_witness :
  0 <= timeRemaining (runTimer slowFrames freshTimer)
    <= timeRemaining freshTimer.
Proof.
  destruct (updateTime_countdown_range freshTimer slowFrames 0) as (_ & H & _);
    [vm_compute; split; discriminate|exact H].
Defined.


(** ** The camera snap *)

Lemma clampQ_cases v hi :
  (0 <= hi →
   (v <= 0 ∧ clampQ v hi == 0) ∨ (0 <= v ∧ v <= hi ∧ clampQ v hi == v)
   ∨ (hi <= v ∧ clampQ v hi == hi))%Q.
Proof.
  intros Hhi. unfold clampQ.
  destruct (Q.max_spec 0 (Qmin v hi)) as [[Hlt Hmax]|[Hle Hmax]];
    destruct (Q.min_spec v hi) as [[Hlt' Hmin]|[Hle' Hmin]].
  - right. left. split; [lra|]. split; [lra|]. lra.
  - right. right. split; [lra|]. lra.
  - left. split; [lra|]. lra.
  - right. right. split; [lra|]. lra.
Qed.

(** X5. Snapping the camera puts it exactly on the clamped,
    player-centred target, inside the map. While the player is inside the
    grid the player is then inside the viewport on both axes, and a
    smoothed camera update right after the snap moves nothing. *)
Theorem updateCameraPosition_snap (s : Game) (deltaTime : Q) :
  cameraX (updateCameraPosition s) = cameraTargetX s ∧
  cameraY (updateCameraPosition s) = cameraTargetY s ∧
  cameraInBounds (updateCameraPosition s) ∧
  (0 <= playerX s < GRID_WIDTH →
   (cameraX (updateCameraPosition s) <= inject_Z (playerX s) ∧
    inject_Z (playerX s)
      < cameraX (updateCameraPosition s) + inject_Z VIEWPORT_WIDTH)%Q) ∧
  (0 <= playerY s < GRID_HEIGHT →
   (cameraY (updateCameraPosition s) <= inject_Z (playerY s) ∧
    inject_Z (playerY s)
      < cameraY (updateCameraPosition s) + inject_Z VIEWPORT_HEIGHT)%Q) ∧
  cameraX (updateCamera deltaTime (updateCameraPosition s))
    = cameraX (updateCameraPosition s) ∧
  cameraY (updateCamera deltaTime (updateCameraPosition s))
    = cameraY (updateCameraPosition s).
Proof.
  assert (HW : (0 <= inject_Z (GRID_WIDTH - VIEWPORT_WIDTH))%Q) by done.
  assert (HH : (0 <= inject_Z (GRID_HEIGHT - VIEWPORT_HEIGHT))%Q) by done.
  assert (Hx : cameraX (updateCameraPosition s) = cameraTargetX s) by done.
  assert (Hy : cameraY (updateCameraPosition s) = cameraTargetY s) by done.
  rewrite Hx, Hy. do 2 (split; [done|]). split; [|split; [|split]].
  - unfold cameraInBounds. rewrite Hx, Hy. unfold cameraTargetX, cameraTargetY.
    destruct (clampQ_range (inject_Z (playerX s - VIEWPORT_WIDTH / 2)) _ HW).
    destruct (clampQ_range (inject_Z (playerY s - VIEWPORT_HEIGHT / 2)) _ HH).
    done.
  - intros [H0 H1]. unfold cameraTargetX.
    change (VIEWPORT_WIDTH / 2) with 16.
    change (inject_Z (GRID_WIDTH - VIEWPORT_WIDTH)) with 68%Q in *.
    change (inject_Z VIEWPORT_WIDTH) with 32%Q.
    assert (0 <= inject_Z (playerX s))%Q
      by (change 0%Q with (inject_Z 0); by rewrite <- Zle_Qle).
    assert (inject_Z (playerX s) <= 99)%Q.
    { change 99%Q with (inject_Z 99). rewrite <- Zle_Qle.
      unfold GRID_WIDTH in H1. lia. }
    assert (inject_Z (playerX s - 16) == inject_Z (playerX s) - 16)%Q as He.
    { unfold Z.sub. rewrite inject_Z_plus. reflexivity. }
    destruct (clampQ_cases (inject_Z (playerX s - 16)) 68 HW)
      as [[? Hc]|[(? & ? & Hc)|[? Hc]]]; split; lra.
  - intros [H0 H1]. unfold cameraTargetY.
    change (VIEWPORT_HEIGHT / 2) with 10.
    change (inject_Z (GRID_HEIGHT - VIEWPORT_HEIGHT)) with 40%Q in *.
    change (inject_Z VIEWPORT_HEIGHT) with 20%Q.
    assert (0 <= inject_Z (playerY s))%Q
      by (change 0%Q with (inject_Z 0); by rewrite <- Zle_Qle).
    assert (inject_Z (playerY s) <= 59)%Q.
    { change 59%Q with (inject_Z 59). rewrite <- Zle_Qle.
      unfold GRID_HEIGHT in H1. lia. }
    assert (inject_Z (playerY s - 10) == inject_Z (playerY s) - 10)%Q as He.
    { unfold Z.sub. rewrite inject_Z_plus. reflexivity. }
    destruct (clampQ_cases (inject_Z (playerY s - 10)) 40 HH)
      as [[? Hc]|[(? & ? & Hc)|[? Hc]]]; split; lra.
  - assert (Hstill : ∀ c : Q, Qltb CAMERA_DEADZONE (Qabs (jsSub c c)) = false).
    { intros c. apply Qltb_false. unfold jsSub.
      rewrite (round64_zero (c - c)) by ring. by vm_compute. }
    unfold updateCamera.
    cbn [cameraX cameraY targetCameraX targetCameraY playerX playerY
         set_cameraX set_cameraY set_targetCameraX set_targetCameraY].
    assert (playerX (updateCameraPosition s) = playerX s) as -> by done.
    assert (playerY (updateCameraPosition s) = playerY s) as -> by done.
    fold (cameraTargetX s). fold (cameraTargetY s).
    rewrite Hx, Hy, !Hstill. done.
Qed.

Lemma updateCameraPosition_snap_witness :
  (cameraX (updateCameraPosition cameraBehind)
     <= inject_Z (playerX cameraBehind))%Q ∧
  (inject_Z (playerX cameraBehind)
     < cameraX (updateCameraPosition cameraBehind) + inject_Z VIEWPORT_WIDTH)%Q.
Proof.
  destruct (updateCameraPosition_snap cameraBehind 16) as (_ & _ & _ & H & _).
  apply H. vm_compute. split; [discriminate|reflexivity].
Defined.


(** ** Physics and the start of the explosion *)

Lemma explosionStep_refl s : explosionStep s s.
Proof. by left. Qed.

Lemma explosionStep_trans s1 s2 s3 :
  playerX s2 = playerX s1 → playerY s2 = playerY s1 →
  explosionStep s1 s2 → explosionStep s2 s3 → explosionStep s1 s3.
Proof.
  intros Hx Hy [[Ho1 He1]|(Ho1 & Ho1' & H1)] [[Ho2 He2]|(Ho2 & Ho2' & H2)].
  - left. split; congruence.
  - right. rewrite <- Hx, <- Hy. split; [congruence|]. done.
  - right. split; [done|]. split; [congruence|].
    unfold explosionFields in He2. injection He2 as -> -> -> -> _. done.
  - congruence.
Qed.

Lemma explosionStep_startExplosion s : explosionStep s (startExplosion s).
Proof.
  unfold startExplosion. destruct (gameOver s) eqn:Hover; [by left|].
  right. done.
Qed.

Lemma explosionStep_crushAfterGrace s : explosionStep s (crushAfterGrace s).
Proof.
  unfold crushAfterGrace. simpl. destruct (Qleb _ _); [|by left].
  eapply explosionStep_trans; [| |left|apply explosionStep_startExplosion];
    done.
Qed.

Lemma explosionStep_physicsCell s c : explosionStep s (physicsCell s c).
Proof.
  destruct c as [x y]. unfold physicsCell.
  repeat case_match;
    first [ by left
          | eapply explosionStep_trans;
            [| | |apply explosionStep_crushAfterGrace]; try done; by left ].
Qed.

Lemma explosionStep_scan cs s : explosionStep s (scan cs s).
Proof.
  unfold scan. revert s. induction cs as [|c cs IH]; intros s; simpl.
  - apply explosionStep_refl.
  - eapply explosionStep_trans; [| |apply explosionStep_physicsCell|apply IH].
    + apply playerX_physicsCell.
    + apply playerY_physicsCell.
Qed.

Lemma playerX_scan cs s : playerX (scan cs s) = playerX s.
Proof.
  unfold scan. revert s. induction cs as [|c cs IH]; intros s; simpl; [done|].
  by rewrite IH, playerX_physicsCell.
Qed.

Lemma playerY_scan cs s : playerY (scan cs s) = playerY s.
Proof.
  unfold scan. revert s. induction cs as [|c cs IH]; intros s; simpl; [done|].
  by rewrite IH, playerY_physicsCell.
Qed.

Lemma explosionStep_updatePhysics s : explosionStep s (updatePhysics s).
Proof.
  unfold updatePhysics, checkPlayerTile.
  set (s1 := scan (scanOrder (grid s)) s).
  assert (H1 : explosionStep s s1) by apply explosionStep_scan.
  case_match; [|done].
  eapply explosionStep_trans; [| |exact H1|apply explosionStep_crushAfterGrace].
  - apply playerX_scan.
  - apply playerY_scan.
Qed.

(** X6. A physics update starts the explosion at most once and only if
    the game was not over: on a game that is already over it leaves
    [gameOver] and the whole explosion record (origin, radius, frame, last
    update) as they are; when it ends a running game the explosion starts
    at the player's position with radius 0 and frame 0; and when it does
    not end the game the explosion record is untouched. The update never
    moves the player. *)
Theorem updatePhysics_explosion_start (s : Game) :
  (gameOver s = true →
   gameOver (updatePhysics s) = true ∧
   explosionFields (updatePhysics s) = explosionFields s) ∧
  (gameOver s = false → gameOver (updatePhysics s) = true →
   explosionX (updatePhysics s) = playerX s ∧
   explosionY (updatePhysics s) = playerY s ∧
   explosionRadius (updatePhysics s) = 0 ∧
   explosionFrame (updatePhysics s) = 0) ∧
  (gameOver (updatePhysics s) = false →
   explosionFields (updatePhysics s) = explosionFields s) ∧
  playerX (updatePhysics s) = playerX s ∧
  playerY (updatePhysics s) = playerY s.
Proof.
  pose proof (explosionStep_updatePhysics s) as [[Ho He]|(Ho & Ho' & H)].
  - split; [intros H; split; congruence|].
    split; [intros H1 H2; congruence|]. split; [done|].
    unfold updatePhysics, checkPlayerTile.
    case_match; rewrite ?playerX_crushAfterGrace, ?playerY_crushAfterGrace,
      playerX_scan, playerY_scan; done.
  - split; [intros H1; congruence|]. split; [done|].
    split; [intros H1; congruence|].
    unfold updatePhysics, checkPlayerTile.
    case_match; rewrite ?playerX_crushAfterGrace, ?playerY_crushAfterGrace,
      playerX_scan, playerY_scan; done.
Qed.

Lemma updatePhysics_explosion_start_witness :
  gameOver (boulderOverhead lateClock) = false ∧
  explosionX (updatePhysics (boulderOverhead lateClock)) = 3 ∧
  explosionY (updatePhysics (boulderOverhead lateClock)) = 4.
Proof.
  split; [reflexivity|].
  destruct (updatePhysics_explosion_start (boulderOverhead lateClock))
    as (_ & H & _).
  destruct H as (Hx & Hy & _); [reflexivity|vm_compute; reflexivity|].
  split; [exact Hx|exact Hy].
Defined.

(** ** Physics and the player's cell *)

Lemma physicsCell_spares_player s c :
  Grid_wf (grid s) →
  getTile (grid s) (playerX s) (playerY s) = EMPTY →
  getTile (grid (physicsCell s c)) (playerX s) (playerY s) = EMPTY.
Proof.
  intros Hwf Hpl. destruct c as [x y].
  assert (Hmoved : ∀ x' t,
            getTile (grid s) x y = t → t = BOULDER ∨ t = DIAMOND →
            getTile (grid s) x' (y + 1) = EMPTY →
            ¬ (x' = playerX s ∧ y + 1 = playerY s) →
            getTile (moved (grid s) x y x' t) (playerX s) (playerY s) = EMPTY).
  { intros x' t Hsrc Ht Hdst Hguard.
    destruct (object_not_WALL _ Ht) as [HtW _].
    rewrite getTile_moved by (rewrite ?Hsrc; done).
    case_decide as H1; [injection H1 as H1 H2; exfalso; apply Hguard; done|].
    by case_decide. }
  unfold physicsCell.
  destruct (tile_eqb (getTile (grid s) x y) BOULDER
            || tile_eqb (getTile (grid s) x y) DIAMOND) eqn:Hobj; [|done].
  assert (Ht : getTile (grid s) x y = BOULDER ∨ getTile (grid s) x y = DIAMOND).
  { apply orb_true_iff in Hobj as [H|H]; apply tile_eqb_true in H; auto. }
  destruct (canFall x y s) eqn:Hfall.
  - assert (Hg : ∀ s', grid s' = moved (grid s) x y x (getTile (grid s) x y) →
              getTile (grid s') (playerX s) (playerY s) = EMPTY).
    { intros s' ->. unfold canFall in Hfall. bool_hyps.
      apply Hmoved; auto. intros [Hx Hy]. rewrite <- Hx, <- Hy in *.
      rewrite !Z.eqb_refl in *. done. }
    repeat case_match; apply Hg; rewrite ?grid_crushAfterGrace; done.
  - destruct (tile_eqb (getTile (grid s) x y) BOULDER) eqn:Hb; [|done].
    apply tile_eqb_true in Hb.
    destruct (canRoll (-1) x y s) eqn:Hl.
    + apply canRoll_true in Hl as (_ & _ & Hdst & _ & Hguard).
      change (grid _) with (moved (grid s) x y (x - 1) BOULDER).
      replace (x + -1) with (x - 1) in * by lia. by apply Hmoved; auto.
    + destruct (canRoll 1 x y s) eqn:Hr; [|done].
      apply canRoll_true in Hr as (_ & _ & Hdst & _ & Hguard).
      change (grid _) with (moved (grid s) x y (x + 1) BOULDER).
      by apply Hmoved; auto.
Qed.

(** X7. Physics never puts an object on the player: if the tile at the
    player's position is Empty before a physics update, it is Empty after
    it, so the crush check that follows the scan does not fire and only an
    object dropping into the cell above the player can end the game. *)
Theorem updatePhysics_spares_player_cell (s : Game) :
  Grid_wf (grid s) →
  getTile (grid s) (playerX s) (playerY s) = EMPTY →
  getTile (grid (updatePhysics s)) (playerX s) (playerY s) = EMPTY ∧
  updatePhysics s = scan (scanOrder (grid s)) s.
Proof.
  intros Hwf Hpl.
  assert (Hscan : ∀ cs s0, Grid_wf (grid s0) →
            getTile (grid s0) (playerX s0) (playerY s0) = EMPTY →
            getTile (grid (scan cs s0)) (playerX s0) (playerY s0) = EMPTY).
  { clear. unfold scan. induction cs as [|c cs IH]; intros s0 Hwf Hpl; [done|].
    simpl. rewrite <- (playerX_physicsCell s0 c), <- (playerY_physicsCell s0 c).
    apply IH; [by apply physicsCell_wf|].
    rewrite playerX_physicsCell, playerY_physicsCell.
    by apply physicsCell_spares_player. }
  specialize (Hscan (scanOrder (grid s)) s Hwf Hpl).
  rewrite grid_updatePhysics. split; [done|].
  unfold updatePhysics, checkPlayerTile.
  by rewrite playerX_scan, playerY_scan, Hscan.
Qed.

Lemma updatePhysics_spares_player_cell_witness :
  getTile (grid (boulderOverhead lateClock)) 3 4 = EMPTY ∧
  getTile (grid (updatePhysics (boulderOverhead lateClock))) 3 4 = EMPTY.
Proof.
  assert (H : getTile (grid (boulderOverhead lateClock))
                (playerX (boulderOverhead lateClock))
                (playerY (boulderOverhead lateClock)) = EMPTY)
    by (vm_compute; reflexivity).
  split; [exact H|].
  exact (proj1 (updatePhysics_spares_player_cell (boulderOverhead lateClock)
                  (cave_wf _) H)).
Defined.


(** ** Moves and the tiles *)

Lemma tryPushBoulder_blocked x y d s :
  getTile (grid s) x y ≠ BOULDER → tryPushBoulder x y d s = s.
Proof.
  intros H. unfold tryPushBoulder. apply tile_eqb_false in H. by rewrite H.
Qed.

Lemma getTile_cleared g x y :
  Grid_wf g → getTile (setTile g x y EMPTY) x y ≠ BOULDER.
Proof.
  intros Hwf. rewrite getTile_setTile by done. case_decide; [done|].
  destruct (decide (0 <= x < width g ∧ 0 <= y < height g)) as [Hin|Hout].
  - exfalso. tauto.
  - by rewrite getTile_outside.
Qed.

(** The step of a move clears the destination and touches no other tile:
    the call of [tryPushBoulder] at its end finds the cell it was given
    just cleared. *)
Lemma stepTo_grid key x y s :
  Grid_wf (grid s) →
  grid (stepTo key x y s) = setTile (grid s) x y EMPTY ∧
  soundCalls (stepTo key x y s) = soundCalls s ∧
  exitRevealed (stepTo key x y s) = exitRevealed s ∧
  score (stepTo key x y s) = score s ∧
  diamondsCollected (stepTo key x y s) = diamondsCollected s.
Proof.
  intros Hwf. unfold stepTo, updateCameraPosition, performance_now.
  destruct key; cbn -[clampQ inject_Z Z.modulo tryPushBoulder];
    rewrite ?tryPushBoulder_blocked; try done;
    cbn -[clampQ inject_Z Z.modulo]; by apply getTile_cleared.
Qed.

Lemma collectDiamond_grid fuel s s' :
  collectDiamond fuel s = Some s' →
  score s' = score s + POINTS_PER_DIAMOND ∧
  diamondsCollected s' = diamondsCollected s + 1 ∧
  (grid s' = grid s ∧ exitRevealed s' = exitRevealed s
   ∨ exitRevealed s = false ∧ exitRevealed s' = true
     ∧ grid s' = setTile (grid s) (exitX s') (exitY s') EXIT).
Proof.
  unfold collectDiamond. simpl.
  destruct ((DIAMONDS_REQUIRED <=? diamondsCollected s + 1)
            && negb (exitRevealed s)) eqn:Hdue.
  - destruct (revealExit fuel _) as [s3|] eqn:Hrev; [|done].
    intros [= <-].
    destruct (revealExit_spec _ _ _ Hrev) as (Hr & _ & Hg & _ & _ & Hsc & Hd).
    simpl in *. bool_hyps. rewrite Hsc, Hd. auto 10.
  - intros [= <-]. simpl. auto.
Qed.

(** X8. A key other than R never creates or moves a Boulder, a Diamond,
    Dirt or a Wall: after [handleInput] every cell reads as before, or
    reads Empty, or is the Exit that this very move revealed. In
    particular the player never pushes a Boulder. The grid keeps its
    shape. *)
Theorem handleInput_tiles (fuel : nat) (key : Key) (s s' : Game) :
  key ≠ KeyR → Grid_wf (grid s) →
  handleInput fuel key s = Some s' →
  Grid_wf (grid s') ∧
  ∀ a b, getTile (grid s') a b = getTile (grid s) a b
         ∨ getTile (grid s') a b = EMPTY
         ∨ (getTile (grid s') a b = EXIT
            ∧ exitRevealed s = false ∧ exitRevealed s' = true).
Proof.
  intros HR Hwf.
  assert (Hclear : ∀ g x y a b, Grid_wf g →
            getTile (setTile g x y EMPTY) a b = getTile g a b
            ∨ getTile (setTile g x y EMPTY) a b = EMPTY).
  { intros g x y a b Hg. rewrite getTile_setTile by done. case_decide; auto. }
  assert (Hgen : ∀ x y s1,
            grid s1 = grid s → exitRevealed s1 = exitRevealed s →
            (if canMoveTo x y s1 then
               if tile_eqb (getTile (grid s1) x y) DIAMOND then
                 match collectDiamond fuel s1 with
                 | None => None
                 | Some s2 => Some (stepTo key x y (soundPlay diamond s2))
                 end
               else if tile_eqb (getTile (grid s1) x y) DIRT then
                 Some (stepTo key x y (soundPlay walk s1))
               else if tile_eqb (getTile (grid s1) x y) EXIT && exitRevealed s1 then
                 Some (soundPlay victory (soundStop timeWarning (set_gameWon true s1)))
               else Some (stepTo key x y s1)
             else Some s1) = Some s' →
            Grid_wf (grid s') ∧
            ∀ a b, getTile (grid s') a b = getTile (grid s) a b
                   ∨ getTile (grid s') a b = EMPTY
                   ∨ (getTile (grid s') a b = EXIT
                      ∧ exitRevealed s = false ∧ exitRevealed s' = true)).
  { intros x y s1 Hg Hrev.
    destruct (canMoveTo x y s1); [|intros [= <-]; rewrite Hg; auto].
    destruct (tile_eqb (getTile (grid s1) x y) DIAMOND).
    { destruct (collectDiamond fuel s1) as [s2|] eqn:Hcol; [|done].
      intros [= <-].
      destruct (collectDiamond_grid _ _ _ Hcol) as (_ & _ & Hcase).
      assert (Hwf2 : Grid_wf (grid (soundPlay diamond s2))).
      { simpl. destruct Hcase as [[-> _]|(_ & _ & ->)]; rewrite Hg;
          auto using setTile_wf. }
      destruct (stepTo_grid key x y _ Hwf2) as (-> & _ & -> & _).
      split; [by apply setTile_wf|]. intros a b. simpl.
      destruct (Hclear (grid s2) x y a b Hwf2) as [-> | ->]; [|auto].
      destruct Hcase as [[-> _]|(Hr0 & Hr1 & ->)]; rewrite Hg; [auto|].
      rewrite getTile_setTile by done. case_decide; [|auto].
      right. right. rewrite <- Hrev. auto. }
    assert (Hstep : ∀ s2, grid s2 = grid s →
              Grid_wf (grid (stepTo key x y s2)) ∧
              ∀ a b, getTile (grid (stepTo key x y s2)) a b = getTile (grid s) a b
                     ∨ getTile (grid (stepTo key x y s2)) a b = EMPTY
                     ∨ (getTile (grid (stepTo key x y s2)) a b = EXIT
                        ∧ exitRevealed s = false
                        ∧ exitRevealed (stepTo key x y s2) = true)).
    { intros s2 Hg2.
      assert (Hwf2 : Grid_wf (grid s2)) by by rewrite Hg2.
      destruct (stepTo_grid key x y _ Hwf2) as (-> & _).
      split; [by apply setTile_wf|]. intros a b.
      rewrite Hg2. destruct (Hclear (grid s) x y a b Hwf); auto. }
    destruct (tile_eqb (getTile (grid s1) x y) DIRT);
      [intros [= <-]; by apply Hstep|].
    destruct (tile_eqb (getTile (grid s1) x y) EXIT && exitRevealed s1);
      intros [= <-]; [|by apply Hstep].
    simpl. rewrite Hg. auto. }
  unfold handleInput.
  destruct key; try done; try (intros [= <-]; simpl; by auto);
    (destruct (gameOver s || gameWon s); [intros [= <-]; by auto|]);
    cbn [applyKey fst snd]; apply Hgen; done.
Qed.

Lemma handleInput_tiles_witness :
  ∃ s', handleInput 1 ArrowRight lastDiamond = Some s' ∧ Grid_wf (grid s').
Proof.
  destruct (handleInput 1 ArrowRight lastDiamond) as [s'|] eqn:H;
    [|vm_compute in H; discriminate H].
  exists s'. split; [reflexivity|].
  refine (proj1 (handleInput_tiles 1 ArrowRight lastDiamond s' _ _ H)).
  - discriminate.
  - exact (cave_wf _).
Defined.


(** ** Pushing *)

(** Clearing a cell that holds [t0] and writing [t0] into an Empty cell
    keeps the number of tiles of every type. *)
Lemma countTile_swap t g x y x2 y2 t0 :
  Grid_wf g →
  getTile g x y = t0 → t0 ≠ WALL → t0 ≠ EMPTY → getTile g x2 y2 = EMPTY →
  countTile t (setTile (setTile g x y EMPTY) x2 y2 t0) = countTile t g.
Proof.
  intros Hwf Hsrc HtW HtE Hdst.
  assert (Hs : 0 <= x < width g ∧ 0 <= y < height g).
  { apply getTile_not_WALL_inside. by rewrite Hsrc. }
  assert (Hd : 0 <= x2 < width g ∧ 0 <= y2 < height g).
  { apply getTile_not_WALL_inside. by rewrite Hdst. }
  pose proof (countTile_setTile t g x y EMPTY Hwf (proj1 Hs) (proj2 Hs)) as H1.
  pose proof (countTile_setTile t (setTile g x y EMPTY) x2 y2 t0) as H2.
  rewrite setTile_width, setTile_height in H2.
  specialize (H2 (setTile_wf _ _ _ _ Hwf) (proj1 Hd) (proj2 Hd)).
  rewrite getTile_setTile_ne in H2 by congruence.
  rewrite Hdst, Hsrc in *. lia.
Qed.

(** X9. [tryPushBoulder] pushes exactly when the given cell holds a
    Boulder and the next cell in the direction is Empty; the Boulder then
    moves into that cell and its old cell becomes Empty. In every case all
    other cells read as before, the number of tiles of each type is kept
    and the grid keeps its shape. *)
Theorem tryPushBoulder_moves_one_boulder (x y direction : Z) (s : Game) :
  Grid_wf (grid s) →
  Grid_wf (grid (tryPushBoulder x y direction s)) ∧
  (∀ t, countTile t (grid (tryPushBoulder x y direction s))
        = countTile t (grid s)) ∧
  (∀ a b, (a, b) ≠ (x, y) → (a, b) ≠ (x + direction, y) →
          getTile (grid (tryPushBoulder x y direction s)) a b
          = getTile (grid s) a b) ∧
  (getTile (grid s) x y = BOULDER ∧ getTile (grid s) (x + direction) y = EMPTY →
   getTile (grid (tryPushBoulder x y direction s)) x y = EMPTY ∧
   getTile (grid (tryPushBoulder x y direction s)) (x + direction) y = BOULDER) ∧
  (¬ (getTile (grid s) x y = BOULDER ∧ getTile (grid s) (x + direction) y = EMPTY) →
   tryPushBoulder x y direction s = s).
Proof.
  intros Hwf. unfold tryPushBoulder.
  destruct (tile_eqb (getTile (grid s) x y) BOULDER
            && tile_eqb (getTile (grid s) (x + direction) y) EMPTY) eqn:Hpush.
  - bool_hyps. rename H into Hb. rename H0 into He.
    assert (Hne : (x + direction, y) ≠ (x, y)) by congruence.
    assert (Hin : 0 <= x < width (grid s) ∧ 0 <= y < height (grid s)).
    { apply getTile_not_WALL_inside. by rewrite Hb. }
    assert (Hin' : 0 <= x + direction < width (grid s)
                   ∧ 0 <= y < height (grid s)).
    { apply getTile_not_WALL_inside. by rewrite He. }
    simpl. split; [by do 2 apply setTile_wf|]. split; [|split; [|split]].
    + intros t. by apply countTile_swap.
    + intros a b H1 H2. by rewrite !getTile_setTile_ne.
    + intros _. split.
      * rewrite getTile_setTile_ne by congruence.
        apply getTile_setTile_eq; [done|tauto|tauto].
      * apply getTile_setTile_eq;
          rewrite ?setTile_width, ?setTile_height; try tauto.
        by apply setTile_wf.
    + intros Hn. exfalso. by apply Hn.
  - split; [done|]. split; [done|]. split; [done|]. split; [|done].
    intros [Hb He]. rewrite Hb, He in Hpush. done.
Qed.

Lemma tryPushBoulder_moves_one_boulder_witness :
  getTile (grid boulderOnDirt) 5 5 = BOULDER ∧
  getTile (grid boulderOnDirt) (5 + 1) 5 = EMPTY ∧
  getTile (grid (tryPushBoulder 5 5 1 boulderOnDirt)) (5 + 1) 5 = BOULDER.
Proof.
  assert (H1 : getTile (grid boulderOnDirt) 5 5 = BOULDER)
    by (vm_compute; reflexivity).
  assert (H2 : getTile (grid boulderOnDirt) (5 + 1) 5 = EMPTY)
    by (vm_compute; reflexivity).
  do 2 (split; [assumption|]).
  destruct (tryPushBoulder_moves_one_boulder 5 5 1 boulderOnDirt (cave_wf _))
    as (_ & _ & _ & H & _).
  exact (proj2 (H (conj H1 H2))).
Defined.


(** ** The explosion *)

Lemma clearedAround_refl r ex ey g : Grid_wf g → clearedAround r ex ey g g.
Proof. intros H. unfold clearedAround. auto. Qed.

Lemma clearedAround_trans r ex ey g1 g2 g3 :
  clearedAround r ex ey g1 g2 → clearedAround r ex ey g2 g3 →
  clearedAround r ex ey g1 g3.
Proof.
  intros (_ & Hw1 & Hh1 & H1) (Hwf & Hw2 & Hh2 & H2).
  split; [done|]. split; [congruence|]. split; [congruence|].
  intros a b. destruct (H2 a b) as [->|(He & Hn & Hd)]; [apply H1|].
  right. split; [done|]. split; [|done].
  destruct (H1 a b) as [<-|(He' & Hn' & _)]; done.
Qed.

(** One round of the loops: nothing, or one cell cleared. *)
Lemma explosionCell_cases s y x :
  explosionCell s (y, x) = s ∨
  (x * x + y * y <= explosionRadius s * explosionRadius s ∧
   (0 <= explosionX s + x < width (grid s)
    ∧ 0 <= explosionY s + y < height (grid s)) ∧
   getTile (grid s) (explosionX s + x) (explosionY s + y) ≠ WALL ∧
   explosionCell s (y, x)
   = setTileG (explosionX s + x) (explosionY s + y) EMPTY s).
Proof.
  unfold explosionCell.
  destruct (x * x + y * y <=? explosionRadius s * explosionRadius s) eqn:Hd;
    [|by left].
  destruct (isInBounds (grid s) (explosionX s + x) (explosionY s + y)
            && negb (tile_eqb (getTile (grid s) (explosionX s + x)
                                 (explosionY s + y)) WALL)) eqn:Hc;
    [|by left].
  right. bool_hyps. rename H into Hb. apply isInBounds_true in Hb. done.
Qed.

Lemma explosionCell_fields s d :
  explosionFields (explosionCell s d) = explosionFields s ∧
  gameOver (explosionCell s d) = gameOver s.
Proof.
  destruct d as [y x].
  destruct (explosionCell_cases s y x) as [->|(_ & _ & _ & ->)]; done.
Qed.

Lemma explosionCell_cleared s d :
  Grid_wf (grid s) →
  clearedAround (explosionRadius s) (explosionX s) (explosionY s)
    (grid s) (grid (explosionCell s d)).
Proof.
  intros Hwf. destruct d as [y x].
  destruct (explosionCell_cases s y x) as [->|(Hd & Hin & Hnw & ->)];
    [by apply clearedAround_refl|].
  simpl. split; [by apply setTile_wf|].
  rewrite setTile_width, setTile_height. do 2 (split; [done|]).
  intros a b. rewrite getTile_setTile by done.
  case_decide as H; [|by left].
  destruct H as [[= -> ->] _]. right. split; [done|]. split; [done|].
  replace (explosionX s + x - explosionX s) with x by lia.
  replace (explosionY s + y - explosionY s) with y by lia. done.
Qed.

Lemma explosion_fold_cleared ds s :
  Grid_wf (grid s) →
  explosionFields (foldl explosionCell s ds) = explosionFields s ∧
  gameOver (foldl explosionCell s ds) = gameOver s ∧
  clearedAround (explosionRadius s) (explosionX s) (explosionY s)
    (grid s) (grid (foldl explosionCell s ds)).
Proof.
  revert s. induction ds as [|d ds IH]; intros s Hwf; simpl.
  { auto using clearedAround_refl. }
  destruct (explosionCell_fields s d) as [Hf Ho].
  pose proof (explosionCell_cleared s d Hwf) as Hc.
  destruct (IH (explosionCell s d) (proj1 Hc)) as (Hf' & Ho' & Hc').
  split; [congruence|]. split; [congruence|].
  eapply clearedAround_trans; [exact Hc|].
  unfold explosionFields in Hf. injection Hf as Hx Hy Hr _ _.
  by rewrite Hx, Hy, Hr in Hc'.
Qed.

Lemma elem_of_explosionOffsets r y x :
  (y, x) ∈ explosionOffsets r ↔ - r <= y <= r ∧ - r <= x <= r.
Proof.
  unfold explosionOffsets, upTo. rewrite list_elem_of_bind. split.
  - intros (y' & Hx & Hy). apply list_elem_of_bind in Hx as (x' & Hx & Hx').
    apply list_elem_of_singleton in Hx as [= -> ->].
    apply elem_of_seqZ in Hy, Hx'. lia.
  - intros [Hy Hx]. exists y. split; [|apply elem_of_seqZ; lia].
    apply list_elem_of_bind. exists x. split; [by apply list_elem_of_singleton|].
    apply elem_of_seqZ. lia.
Qed.

(** A cell inside the circle is Empty after the loops unless it is Wall. *)
Lemma explosion_fold_clears ds s a b :
  Grid_wf (grid s) →
  (b - explosionY s, a - explosionX s) ∈ ds →
  (a - explosionX s) * (a - explosionX s)
  + (b - explosionY s) * (b - explosionY s)
  <= explosionRadius s * explosionRadius s →
  0 <= a < width (grid s) → 0 <= b < height (grid s) →
  getTile (grid s) a b ≠ WALL →
  getTile (grid (foldl explosionCell s ds)) a b = EMPTY.
Proof.
  intros Hwf Hmem Hdist Ha Hb Hnw.
  apply list_elem_of_split in Hmem as (pre & post & ->).
  rewrite foldl_app. cbn [foldl].
  destruct (explosion_fold_cleared pre s Hwf) as (Hf & _ & Hc).
  set (s1 := foldl explosionCell s pre) in *.
  unfold explosionFields in Hf. injection Hf as Hx Hy Hr _ _.
  destruct Hc as (Hwf1 & Hw1 & Hh1 & Hcells).
  assert (Hnw1 : getTile (grid s1) a b ≠ WALL).
  { destruct (Hcells a b) as [->|[-> _]]; done. }
  assert (Hcell : getTile (grid (explosionCell s1
                     (b - explosionY s, a - explosionX s))) a b = EMPTY).
  { unfold explosionCell. rewrite Hx, Hy, Hr.
    replace (explosionX s + (a - explosionX s)) with a by lia.
    replace (explosionY s + (b - explosionY s)) with b by lia.
    rewrite (proj2 (Z.leb_le _ _) Hdist).
    rewrite (proj2 (isInBounds_true _ _ _)) by (rewrite Hw1, Hh1; done).
    rewrite (proj2 (tile_eqb_false _ _) Hnw1). simpl.
    apply getTile_setTile_eq; [done|by rewrite Hw1|by rewrite Hh1]. }
  set (s2 := explosionCell s1 (b - explosionY s, a - explosionX s)) in *.
  assert (Hwf2 : Grid_wf (grid s2)) by apply (explosionCell_cleared s1 _ Hwf1).
  destruct (explosion_fold_cleared post s2 Hwf2) as (_ & _ & (_ & _ & _ & Hc2)).
  destruct (Hc2 a b) as [->|[-> _]]; done.
Qed.

Lemma explosion_fold_fields ds s :
  explosionFields (foldl explosionCell s ds) = explosionFields s ∧
  gameOver (foldl explosionCell s ds) = gameOver s.
Proof.
  revert s. induction ds as [|d ds IH]; intros s; simpl; [done|].
  destruct (explosionCell_fields s d) as [Hf Ho].
  destruct (IH (explosionCell s d)) as [Hf' Ho']. split; congruence.
Qed.

Lemma within_circle_within_box r x y :
  0 <= r → x * x + y * y <= r * r → (- r <= y <= r) ∧ (- r <= x <= r).
Proof. intros Hr H. repeat split; nia. Qed.

(** What a call of [updateExplosion] that is due does to the fields. *)
Lemma updateExplosion_due t s :
  gameOver s = true → explosionRadius s < explosionMaxRadius →
  (EXPLOSION_DURATION <= t - lastExplosionUpdate s)%Q →
  explosionFrame (updateExplosion t s) = explosionFrame s + 1 ∧
  explosionRadius (updateExplosion t s) = (explosionFrame s + 1) / 2 ∧
  lastExplosionUpdate (updateExplosion t s) = t ∧
  explosionX (updateExplosion t s) = explosionX s ∧
  explosionY (updateExplosion t s) = explosionY s ∧
  gameOver (updateExplosion t s) = true ∧
  grid (updateExplosion t s)
  = if (explosionFrame s + 1) / 2 <? explosionMaxRadius
    then grid (foldl explosionCell
                 (set_lastExplosionUpdate t
                    (set_explosionRadius ((explosionFrame s + 1) / 2)
                       (set_explosionFrame (explosionFrame s + 1) s)))
                 (explosionOffsets ((explosionFrame s + 1) / 2)))
    else grid s.
Proof.
  intros Hover Hr Hdue. unfold updateExplosion. rewrite Hover.
  rewrite (proj2 (Z.leb_gt _ _) Hr), (proj2 (Qleb_true _ _) Hdue).
  cbn [negb orb explosionFrame explosionRadius set_explosionFrame
       set_explosionRadius set_lastExplosionUpdate].
  destruct ((explosionFrame s + 1) / 2 <? explosionMaxRadius) eqn:Hlt;
    [|done].
  set (s3 := set_lastExplosionUpdate t _).
  destruct (explosion_fold_fields
              (explosionOffsets ((explosionFrame s + 1) / 2)) s3) as (Hf & Ho).
  unfold explosionFields in Hf. injection Hf as Hx Hy Hrad Hfr Hl.
  rewrite Hx, Hy, Hrad, Hfr, Hl, Ho. done.
Qed.

(** A call that is not due, or comes when the game is not over or the
    sequence has reached its last radius, changes nothing. *)
Lemma updateExplosion_idle t s :
  gameOver s = false ∨ explosionMaxRadius <= explosionRadius s
  ∨ (t - lastExplosionUpdate s < EXPLOSION_DURATION)%Q →
  updateExplosion t s = s.
Proof.
  unfold updateExplosion. intros [H|[H|H]].
  - by rewrite H.
  - rewrite (proj2 (Z.leb_le _ _) H). by rewrite orb_true_r.
  - rewrite (proj2 (Qleb_false _ _) H). by case_match.
Qed.

(** X10. A call of [updateExplosion] only ever clears tiles: the grid it
    leaves has the same shape, and every cell either reads as before or
    reads Empty, was not Wall, and lies within the new radius of the
    explosion origin (Euclidean distance). When the call is due (game
    over, radius below the maximum, at least 50 ms since the last step)
    and the new radius is still below the maximum, every in-bounds cell
    within that radius that is not Wall reads Empty afterwards. *)
Theorem updateExplosion_clears_circle (t : Q) (s : Game) :
  Grid_wf (grid s) →
  clearedAround (explosionRadius (updateExplosion t s))
    (explosionX s) (explosionY s) (grid s) (grid (updateExplosion t s)) ∧
  (gameOver s = true → explosionRadius s < explosionMaxRadius →
   (EXPLOSION_DURATION <= t - lastExplosionUpdate s)%Q →
   0 <= explosionFrame s →
   explosionRadius (updateExplosion t s) < explosionMaxRadius →
   ∀ a b,
     (a - explosionX s) * (a - explosionX s)
     + (b - explosionY s) * (b - explosionY s)
     <= explosionRadius (updateExplosion t s)
        * explosionRadius (updateExplosion t s) →
     0 <= a < width (grid s) → 0 <= b < height (grid s) →
     getTile (grid s) a b ≠ WALL →
     getTile (grid (updateExplosion t s)) a b = EMPTY).
Proof.
  intros Hwf.
  assert (Hidle : updateExplosion t s = s →
            clearedAround (explosionRadius (updateExplosion t s))
              (explosionX s) (explosionY s) (grid s) (grid (updateExplosion t s))).
  { intros ->. by apply clearedAround_refl. }
  destruct (gameOver s) eqn:Hover.
  2: { assert (He : updateExplosion t s = s)
         by (apply updateExplosion_idle; by left).
       split; [by apply Hidle|done]. }
  destruct (decide (explosionRadius s < explosionMaxRadius)) as [Hr|Hr].
  2: { assert (He : updateExplosion t s = s)
         by (apply updateExplosion_idle; right; left; lia).
       split; [by apply Hidle|]. intros _ Hr'. lia. }
  destruct (Qleb EXPLOSION_DURATION (t - lastExplosionUpdate s)) eqn:Hdue.
  2: { apply Qleb_false in Hdue.
       assert (He : updateExplosion t s = s)
         by (apply updateExplosion_idle; right; by right).
       split; [by apply Hidle|]. intros _ _ Hdue'. lra. }
  apply Qleb_true in Hdue.
  destruct (updateExplosion_due t s Hover Hr Hdue)
    as (_ & Hrad & _ & _ & _ & _ & Hg).
  rewrite Hrad, Hg.
  set (s3 := set_lastExplosionUpdate t _).
  destruct ((explosionFrame s + 1) / 2 <? explosionMaxRadius) eqn:Hlt.
  - split.
    + apply (explosion_fold_cleared _ s3 Hwf).
    + intros _ _ _ Hf _ a b Hd Ha Hb Hnw.
      apply (explosion_fold_clears _ s3 a b Hwf); try done.
      apply elem_of_explosionOffsets. cbn [explosionX explosionY s3
        set_lastExplosionUpdate set_explosionRadius set_explosionFrame].
      apply within_circle_within_box; [apply Z.div_pos; lia|done].
  - split; [by apply clearedAround_refl|].
    intros _ _ _ _ Hlt'. apply Z.ltb_ge in Hlt. lia.
Qed.

Lemma updateExplosion_clears_circle_witness :
  getTile (grid lostSession) 11 10 = BOULDER ∧
  getTile (grid (runExplosion [1050; 1100]%Q lostSession)) 11 10 = EMPTY.
Proof.
  split; [vm_compute; reflexivity|].
  set (s1 := updateExplosion 1050 lostSession).
  change (runExplosion [1050; 1100]%Q lostSession)
    with (updateExplosion 1100 s1).
  assert (Hwf1 : Grid_wf (grid s1)).
  { apply (updateExplosion_clears_circle 1050 lostSession). apply cave_wf. }
  refine (proj2 (updateExplosion_clears_circle 1100 s1 Hwf1) _ _ _ _ _ 11 10 _ _ _ _);
    try (vm_compute; reflexivity); try (vm_compute; discriminate).
  - vm_compute. split; [discriminate|reflexivity].
  - vm_compute. split; [discriminate|reflexivity].
Defined.


Lemma explosionInv_updateExplosion t s :
  explosionInv s → explosionInv (updateExplosion t s).
Proof.
  intros [Hf Hr]. unfold explosionMaxRadius in *.
  destruct (gameOver s) eqn:Hover;
    [|by rewrite updateExplosion_idle by by left].
  destruct (decide (explosionRadius s < explosionMaxRadius)) as [Hlt|Hge];
    [|rewrite updateExplosion_idle by (right; left; lia); done].
  destruct (Qleb EXPLOSION_DURATION (t - lastExplosionUpdate s)) eqn:Hdue.
  - apply Qleb_true in Hdue.
    destruct (updateExplosion_due t s Hover Hlt Hdue) as (Hf' & Hr' & _).
    unfold explosionInv. rewrite Hf', Hr'. split; [|done].
    unfold explosionMaxRadius in *. rewrite Hr in Hlt.
    Z.div_mod_to_equations. lia.
  - apply Qleb_false in Hdue.
    rewrite updateExplosion_idle by (right; by right). done.
Qed.

(** X11. The explosion sequence is bounded and ends: from the state
    [startExplosion] leaves (frame 0, radius 0), under every sequence of
    [updateExplosion] calls the frame counter stays between 0 and 6 and the
    radius is always half the frame counter, rounded down, so it never
    exceeds the maximum radius 3; a call that is due advances the frame
    counter by exactly one; and once the radius has reached 3, or while
    the game is not over, or less than 50 ms after the last step, a call
    changes nothing. *)
Theorem explosion_sequence_bounded (s : Game) (ts : list Q) (t : Q) :
  explosionInv s →
  explosionInv (runExplosion ts s) ∧
  0 <= explosionRadius (runExplosion ts s) <= explosionMaxRadius ∧
  (gameOver s = true → explosionRadius s < explosionMaxRadius →
   (EXPLOSION_DURATION <= t - lastExplosionUpdate s)%Q →
   explosionFrame (updateExplosion t s) = explosionFrame s + 1 ∧
   lastExplosionUpdate (updateExplosion t s) = t) ∧
  (gameOver s = false ∨ explosionRadius s = explosionMaxRadius
   ∨ (t - lastExplosionUpdate s < EXPLOSION_DURATION)%Q →
   updateExplosion t s = s).
Proof.
  intros Hinv.
  assert (Hrun : explosionInv (runExplosion ts s)).
  { unfold runExplosion. revert s Hinv.
    induction ts as [|t0 ts IH]; intros s Hinv; simpl; [done|].
    by apply IH, explosionInv_updateExplosion. }
  split; [done|]. split; [|split].
  - destruct Hrun as [Hf ->]. unfold explosionMaxRadius in *.
    split; [apply Z.div_pos; lia|].
    apply Z.div_le_upper_bound; lia.
  - intros Hover Hlt Hdue.
    destruct (updateExplosion_due t s Hover Hlt Hdue) as (H1 & _ & H2 & _).
    done.
  - intros [H|[H|H]]; apply updateExplosion_idle; auto.
    right. left. lia.
Qed.

Lemma explosionInv_startExplosion s :
  gameOver s = false → explosionInv (startExplosion s).
Proof.
  intros H. unfold startExplosion, explosionInv. rewrite H. simpl.
  unfold explosionMaxRadius. split; [lia|done].
Qed.

Lemma explosion_sequence_bounded_witness :
  explosionInv lostSession ∧
  0 <= explosionRadius
         (runExplosion [1050; 1100; 1150; 1200; 1250; 1300; 1350; 1400]%Q
            lostSession) <= explosionMaxRadius.
Proof.
  assert (H : explosionInv lostSession)
    by (apply explosionInv_startExplosion; reflexivity).
  split; [exact H|].
  exact (proj1 (proj2 (explosion_sequence_bounded lostSession
           [1050; 1100; 1150; 1200; 1250; 1300; 1350; 1400]%Q 0 H))).
Defined.


(** ** Level generation *)

Lemma wroteIn_refl R P g : Grid_wf g → wroteIn R P g g.
Proof. intros H. do 3 (split; [done|]). split; [by left|done]. Qed.

Lemma countTile_setTile_le t g x y v :
  Grid_wf g →
  (countTile t (setTile g x y v) <= countTile t g + Nat.b2n (bool_decide (v = t)))%nat.
Proof.
  intros Hwf.
  destruct (decide (0 <= x < width g ∧ 0 <= y < height g)) as [[Hx Hy]|Hout].
  - pose proof (countTile_setTile t g x y v Hwf Hx Hy). lia.
  - rewrite setTile_outside by done. lia.
Qed.

Lemma wroteIn_trans R P g1 g2 g3 :
  wroteIn R P g1 g2 → wroteIn R P g2 g3 → wroteIn R P g1 g3.
Proof.
  intros (_ & Hw1 & Hh1 & H1 & Hc1) (Hwf & Hw2 & Hh2 & H2 & Hc2).
  split; [done|]. split; [congruence|]. split; [congruence|]. split.
  - intros a b. destruct (H2 a b) as [->|H]; [apply H1|by right].
  - intros t Ht. specialize (Hc1 t Ht). specialize (Hc2 t Ht). lia.
Qed.

Lemma wroteIn_weaken (R R' : Z → Z → Prop) (P P' : TileType → Prop) g g' :
  (∀ a b, R a b → R' a b) → (∀ t, P t → P' t) →
  wroteIn R P g g' → wroteIn R' P' g g'.
Proof.
  intros HR HP (Hwf & Hw & Hh & H & Hc). split; [done|]. do 2 (split; [done|]).
  split.
  - intros a b. destruct (H a b) as [->|[H1 H2]]; auto.
  - intros t Ht. apply Hc. auto.
Qed.

Lemma wroteIn_setTile (R : Z → Z → Prop) (P : TileType → Prop) g x y t :
  Grid_wf g →
  (0 <= x < width g ∧ 0 <= y < height g → R x y ∧ P t) →
  wroteIn R P g (setTile g x y t).
Proof.
  intros Hwf H. split; [by apply setTile_wf|].
  rewrite setTile_width, setTile_height. do 2 (split; [done|]). split.
  - intros a b. rewrite getTile_setTile by done.
    case_decide as Hc; [|by left].
    destruct Hc as [[= -> ->] Hin]. right. by apply H.
  - intros u Hu.
    destruct (decide (0 <= x < width g ∧ 0 <= y < height g)) as [Hin|Hout].
    + pose proof (countTile_setTile_le u g x y t Hwf) as Hle.
      rewrite bool_decide_eq_false_2 in Hle; [simpl in Hle; lia|].
      intros ->. by destruct (H Hin).
    + by rewrite setTile_outside.
Qed.

Lemma foldl_invariant {A B} (I : A → Prop) (f : A → B → A) l a :
  I a → (∀ a b, b ∈ l → I a → I (f a b)) → I (foldl f a l).
Proof.
  revert a. induction l as [|b l IH]; intros a Ha Hstep; simpl; [done|].
  apply IH.
  - apply Hstep; [by left|done].
  - intros a' b' Hb'. apply Hstep. by right.
Qed.


Lemma gridStage_refl R P s : Grid_wf (grid s) → gridStage R P s s.
Proof. intros H. do 5 (split; [done|]). by apply wroteIn_refl. Qed.

Lemma gridStage_trans R P s1 s2 s3 :
  gridStage R P s1 s2 → gridStage R P s2 s3 → gridStage R P s1 s3.
Proof.
  intros (Hf1 & Hx1 & Hy1 & Hcx1 & Hcy1 & Hg1) (Hf2 & Hx2 & Hy2 & Hcx2 & Hcy2 & Hg2).
  unfold gridStage. rewrite Hf2, Hx2, Hy2, Hcx2, Hcy2.
  do 5 (split; [done|]). by eapply wroteIn_trans.
Qed.

Lemma gridStage_weaken (R R' : Z → Z → Prop) (P P' : TileType → Prop) s s' :
  (∀ a b, R a b → R' a b) → (∀ t, P t → P' t) →
  gridStage R P s s' → gridStage R' P' s s'.
Proof.
  intros HR HP (Hf & Hx & Hy & Hcx & Hcy & Hg).
  do 5 (split; [done|]). by eapply wroteIn_weaken.
Qed.

Lemma gridStage_wf R P s s' : gridStage R P s s' → Grid_wf (grid s').
Proof. intros (_ & _ & _ & _ & _ & H & _). done. Qed.

Lemma gridStage_setTileG (R : Z → Z → Prop) (P : TileType → Prop) x y t s :
  Grid_wf (grid s) →
  (0 <= x < width (grid s) ∧ 0 <= y < height (grid s) → R x y ∧ P t) →
  gridStage R P s (setTileG x y t s).
Proof.
  intros Hwf H. do 5 (split; [done|]). by apply wroteIn_setTile.
Qed.

Lemma gridStage_random R P s :
  Grid_wf (grid s) → gridStage R P s (snd (Math_random s)).
Proof. intros Hwf. do 5 (split; [done|]). by apply wroteIn_refl. Qed.

Lemma gridStage_foldl {B} R P (f : Game → B → Game) l s :
  Grid_wf (grid s) →
  (∀ s' c, c ∈ l → gridStage R P s s' → gridStage R P s' (f s' c)) →
  gridStage R P s (foldl f s l).
Proof.
  intros Hwf Hstep.
  apply (foldl_invariant (λ s', gridStage R P s s')); [by apply gridStage_refl|].
  intros s' c Hc Hs'. eapply gridStage_trans; [done|]. by apply Hstep.
Qed.

Lemma nearPlayer_true d x y s :
  nearPlayer d x y s = true ↔ nearCell d (playerX s) (playerY s) x y.
Proof. unfold nearPlayer, nearCell. rewrite andb_true_iff. lia. Qed.

Lemma nearPlayer_false d x y s :
  nearPlayer d x y s = false ↔ ¬ nearCell d (playerX s) (playerY s) x y.
Proof.
  rewrite <- nearPlayer_true. destruct (nearPlayer d x y s); split; congruence.
Qed.

(** [Math.floor(Math.random() * n) + k] is one of [k, ..., k + n - 1]. *)
Lemma randomCell_range n k s :
  randomInRange s → 1 <= n → k <= fst (randomCell n k s) <= k + n - 1.
Proof.
  intros Hr Hn. unfold randomCell, Math_random. cbn [fst].
  destruct (Hr (randomCalls s)) as (Hd & H0 & H1).
  pose proof (floor_jsMul_range _ n Hd H0 H1 Hn). lia.
Qed.

Lemma randomCell_state n k s : snd (randomCell n k s) = snd (Math_random s).
Proof. done. Qed.

(** *** The wall ring *)

Lemma wroteIn_keeps R t g g' a b :
  wroteIn R (λ u, u = t) g g' → getTile g a b = t → getTile g' a b = t.
Proof. intros (_ & _ & _ & H & _) Hw. destruct (H a b) as [->|[_ ?]]; done. Qed.

Lemma wroteIn_outside (R : Z → Z → Prop) P g g' a b :
  wroteIn R P g g' → ¬ R a b → getTile g' a b = getTile g a b.
Proof. intros (_ & _ & _ & H & _) Hn. destruct (H a b) as [->|[? _]]; done. Qed.

Lemma gridStage_dims R P s s' :
  gridStage R P s s' →
  width (grid s') = width (grid s) ∧ height (grid s') = height (grid s).
Proof. intros (_ & _ & _ & _ & _ & _ & Hw & Hh & _). done. Qed.

Lemma levelFields_randomStream s s' :
  levelFields s' = levelFields s → randomStream s' = randomStream s.
Proof. intros Hf. apply (f_equal (λ t, t.1.1.2)) in Hf. exact Hf. Qed.

Lemma levelFields_randomInRange s s' :
  levelFields s' = levelFields s → randomInRange s → randomInRange s'.
Proof.
  intros Hf Hr n. apply (f_equal (λ t, t.1.1.2)) in Hf.
  cbn in Hf. rewrite Hf. apply Hr.
Qed.

Lemma gridStage_randomInRange R P s s' :
  gridStage R P s s' → randomInRange s → randomInRange s'.
Proof. intros (Hf & _). by apply levelFields_randomInRange. Qed.

Lemma gridStage_calls R P n s :
  Grid_wf (grid s) → gridStage R P s (set_randomCalls n s).
Proof. intros Hwf. do 5 (split; [done|]). by apply wroteIn_refl. Qed.

Lemma foldl_establish {A B} (I : A → Prop) (E : B → A → Prop) (f : A → B → A) l a :
  I a →
  (∀ a b, b ∈ l → I a → I (f a b) ∧ E b (f a b)) →
  (∀ a b c, b ∈ l → I a → E c a → E c (f a b)) →
  I (foldl f a l) ∧ ∀ b, b ∈ l → E b (foldl f a l).
Proof.
  revert a. induction l as [|b l IH]; intros a Ha Hstep Hkeep; simpl.
  { split; [done|]. intros b Hb. by apply elem_of_nil in Hb. }
  destruct (Hstep a b) as [HI HE]; [by left|done|].
  destruct (IH (f a b)) as [HI' HE'].
  - done.
  - intros a' b' Hb'. apply Hstep. by right.
  - intros a' b' c Hb'. apply Hkeep. by right.
  - split; [done|]. intros c Hc. apply elem_of_cons in Hc as [->|Hc]; [|by apply HE'].
    assert (Hgen : ∀ l' a', (∀ b', b' ∈ l' → b' ∈ l) → I a' → E b a' →
                            E b (foldl f a' l')).
    { induction l' as [|b' l' IH']; intros a' Hsub Ha' He; simpl; [done|].
      apply IH'.
      - intros b'' Hb''. apply Hsub. by right.
      - apply Hstep; [right; apply Hsub; by left|done].
      - apply Hkeep; [right; apply Hsub; by left|done|done]. }
    by apply Hgen.
Qed.


(** Two Wall writes, as in the body of either wall loop. *)
Lemma wallPair_stage (R : Z → Z → Prop) s x1 y1 x2 y2 :
  Grid_wf (grid s) →
  (0 <= x1 < width (grid s) ∧ 0 <= y1 < height (grid s) → R x1 y1) →
  (0 <= x2 < width (grid s) ∧ 0 <= y2 < height (grid s) → R x2 y2) →
  gridStage R (λ t, t = WALL) s (setTileG x2 y2 WALL (setTileG x1 y1 WALL s)) ∧
  (0 <= x1 < width (grid s) ∧ 0 <= y1 < height (grid s) →
   getTile (grid (setTileG x2 y2 WALL (setTileG x1 y1 WALL s))) x1 y1 = WALL) ∧
  (0 <= x2 < width (grid s) ∧ 0 <= y2 < height (grid s) →
   getTile (grid (setTileG x2 y2 WALL (setTileG x1 y1 WALL s))) x2 y2 = WALL).
Proof.
  intros Hwf H1 H2.
  assert (Hs1 : gridStage R (λ t, t = WALL) s (setTileG x1 y1 WALL s)).
  { apply gridStage_setTileG; [done|]. intros Hin. split; [by apply H1|done]. }
  assert (Hwf1 := gridStage_wf _ _ _ _ Hs1).
  destruct (gridStage_dims _ _ _ _ Hs1) as [Hw1 Hh1].
  assert (Hs2 : gridStage R (λ t, t = WALL) (setTileG x1 y1 WALL s)
                  (setTileG x2 y2 WALL (setTileG x1 y1 WALL s))).
  { apply gridStage_setTileG; [done|]. rewrite Hw1, Hh1.
    intros Hin. split; [by apply H2|done]. }
  split; [by eapply gridStage_trans|]. split.
  - intros [Hx Hy]. destruct Hs2 as (_ & _ & _ & _ & _ & Hg).
    eapply wroteIn_keeps; [done|].
    unfold setTileG; cbn [grid set_grid]. by apply getTile_setTile_eq.
  - intros [Hx Hy]. unfold setTileG at 1; cbn [grid set_grid].
    apply getTile_setTile_eq; [done|by rewrite Hw1|by rewrite Hh1].
Qed.

Lemma wallRows_stage s :
  Grid_wf (grid s) →
  gridStage (onRing (grid s)) (λ t, t = WALL) s (wallRows s) ∧
  ∀ a, 0 <= a < width (grid s) → 0 < height (grid s) →
       getTile (grid (wallRows s)) a 0 = WALL ∧
       getTile (grid (wallRows s)) a (height (grid s) - 1) = WALL.
Proof.
  intros Hwf. unfold wallRows, getWidth, getHeight.
  destruct (foldl_establish
              (λ s', gridStage (onRing (grid s)) (λ t, t = WALL) s s')
              (λ a s', 0 <= a < width (grid s) → 0 < height (grid s) →
                       getTile (grid s') a 0 = WALL ∧
                       getTile (grid s') a (height (grid s) - 1) = WALL)
              (λ s0 x, setTileG x (height (grid s0) - 1) WALL (setTileG x 0 WALL s0))
              (upTo 0 (width (grid s))) s) as [HI HE].
  - by apply gridStage_refl.
  - intros s0 x Hx Hs0. apply elem_of_seqZ in Hx.
    destruct (gridStage_dims _ _ _ _ Hs0) as [Hw Hh].
    destruct (wallPair_stage (onRing (grid s)) s0 x 0 x (height (grid s0) - 1))
      as (Hst & Ha & Hb).
    + by eapply gridStage_wf.
    + rewrite Hw, Hh. unfold onRing. lia.
    + rewrite Hw, Hh. unfold onRing. lia.
    + split; [by eapply gridStage_trans|].
      intros Hx' Hh'. rewrite <- Hh. split; [apply Ha|apply Hb]; lia.
  - intros s0 x c Hx Hs0 Hc Hc1 Hc2.
    destruct (wallPair_stage (onRing (grid s)) s0 x 0 x (height (grid s0) - 1))
      as ((_ & _ & _ & _ & _ & Hg) & _).
    + by eapply gridStage_wf.
    + destruct (gridStage_dims _ _ _ _ Hs0) as [-> ->]. unfold onRing. lia.
    + destruct (gridStage_dims _ _ _ _ Hs0) as [-> ->]. unfold onRing. lia.
    + destruct (Hc Hc1 Hc2).
      split; (eapply wroteIn_keeps; [exact Hg|done]).
  - split; [done|]. intros a Ha Hh. apply HE; [|done|done].
    apply elem_of_seqZ. lia.
Qed.

Lemma wallColumns_stage s :
  Grid_wf (grid s) →
  gridStage (onRing (grid s)) (λ t, t = WALL) s (wallColumns s) ∧
  ∀ b, 0 <= b < height (grid s) → 0 < width (grid s) →
       getTile (grid (wallColumns s)) 0 b = WALL ∧
       getTile (grid (wallColumns s)) (width (grid s) - 1) b = WALL.
Proof.
  intros Hwf. unfold wallColumns, getWidth, getHeight.
  destruct (foldl_establish
              (λ s', gridStage (onRing (grid s)) (λ t, t = WALL) s s')
              (λ b s', 0 <= b < height (grid s) → 0 < width (grid s) →
                       getTile (grid s') 0 b = WALL ∧
                       getTile (grid s') (width (grid s) - 1) b = WALL)
              (λ s0 y, setTileG (width (grid s0) - 1) y WALL (setTileG 0 y WALL s0))
              (upTo 0 (height (grid s))) s) as [HI HE].
  - by apply gridStage_refl.
  - intros s0 y Hy Hs0. apply elem_of_seqZ in Hy.
    destruct (gridStage_dims _ _ _ _ Hs0) as [Hw Hh].
    destruct (wallPair_stage (onRing (grid s)) s0 0 y (width (grid s0) - 1) y)
      as (Hst & Ha & Hb).
    + by eapply gridStage_wf.
    + rewrite Hw, Hh. unfold onRing. lia.
    + rewrite Hw, Hh. unfold onRing. lia.
    + split; [by eapply gridStage_trans|].
      intros Hy' Hw'. rewrite <- Hw. split; [apply Ha|apply Hb]; lia.
  - intros s0 y c Hy Hs0 Hc Hc1 Hc2.
    destruct (wallPair_stage (onRing (grid s)) s0 0 y (width (grid s0) - 1) y)
      as ((_ & _ & _ & _ & _ & Hg) & _).
    + by eapply gridStage_wf.
    + destruct (gridStage_dims _ _ _ _ Hs0) as [-> ->]. unfold onRing. lia.
    + destruct (gridStage_dims _ _ _ _ Hs0) as [-> ->]. unfold onRing. lia.
    + destruct (Hc Hc1 Hc2).
      split; (eapply wroteIn_keeps; [exact Hg|done]).
  - split; [done|]. intros b Hb Hw. apply HE; [|done|done].
    apply elem_of_seqZ. lia.
Qed.

(** After both wall loops the outer ring is Wall and nothing else was
    written. *)
Lemma walls_stage s :
  Grid_wf (grid s) →
  gridStage (onRing (grid s)) (λ t, t = WALL) s (wallColumns (wallRows s)) ∧
  ∀ a b, onRing (grid s) a b →
         getTile (grid (wallColumns (wallRows s))) a b = WALL.
Proof.
  intros Hwf. destruct (wallRows_stage s Hwf) as [Hr Hrows].
  assert (Hwf1 := gridStage_wf _ _ _ _ Hr).
  destruct (gridStage_dims _ _ _ _ Hr) as [Hw Hh].
  destruct (wallColumns_stage (wallRows s) Hwf1) as [Hc Hcols].
  assert (Hc' : gridStage (onRing (grid s)) (λ t, t = WALL)
                  (wallRows s) (wallColumns (wallRows s))).
  { eapply gridStage_weaken; [| |exact Hc]; [|done].
    intros a b. unfold onRing. rewrite Hw, Hh. done. }
  split; [by eapply gridStage_trans|].
  intros a b [[Ha Hb] Hring].
  destruct (decide (a = 0 ∨ a = width (grid s) - 1)) as [Hcol|Hncol].
  - destruct (Hcols b) as [H0 H1]; [lia|lia|].
    rewrite Hw in H1. destruct Hcol as [-> | ->]; done.
  - destruct Hc' as (_ & _ & _ & _ & _ & Hg).
    eapply wroteIn_keeps; [exact Hg|].
    destruct (Hrows a) as [H0 H1]; [lia|lia|].
    destruct Hring as [?|[?|[-> | ->]]]; [lia|lia|done|done].
Qed.


(** *** The spawn point and the camera *)

Lemma placePlayer_spec s :
  grid (placePlayer s) = grid s ∧
  levelFields (placePlayer s) = levelFields s ∧
  cameraX (placePlayer s) = cameraX s ∧ cameraY (placePlayer s) = cameraY s ∧
  randomCalls (placePlayer s) = S (S (randomCalls s)) ∧
  (randomInRange s → 5 <= width (grid s) → 5 <= height (grid s) →
   2 <= playerX (placePlayer s) <= width (grid s) - 3 ∧
   2 <= playerY (placePlayer s) <= height (grid s) - 3).
Proof.
  do 5 (split; [done|]). intros Hr Hw Hh.
  unfold placePlayer, getWidth, getHeight.
  pose proof (randomCell_range (width (grid s) - 4) 2 s Hr ltac:(lia)) as Hx.
  destruct (randomCell (width (grid s) - 4) 2 s) as [px s1] eqn:E1.
  assert (Hs1 : s1 = snd (Math_random s))
    by (rewrite <- (randomCell_state (width (grid s) - 4) 2 s), E1; done).
  pose proof (randomCell_range (height (grid s) - 4) 2 (set_playerX px s1)) as Hy.
  assert (Hg : grid (set_playerX px s1) = grid s) by (by rewrite Hs1).
  rewrite Hg.
  destruct (randomCell (height (grid s) - 4) 2 (set_playerX px s1)) as [py s3] eqn:E2.
  assert (Hs3 : s3 = snd (Math_random (set_playerX px s1)))
    by (rewrite <- (randomCell_state (height (grid s) - 4) 2 (set_playerX px s1)), E2;
        done).
  cbn [fst] in Hx, Hy. cbn [playerX playerY set_playerY].
  split.
  - rewrite Hs3. cbn. lia.
  - assert (Hr1 : randomInRange (set_playerX px s1)) by (by rewrite Hs1).
    specialize (Hy Hr1 ltac:(lia)). lia.
Qed.

Lemma updateCameraPosition_spec s :
  grid (updateCameraPosition s) = grid s ∧
  levelFields (updateCameraPosition s) = levelFields s ∧
  playerX (updateCameraPosition s) = playerX s ∧
  playerY (updateCameraPosition s) = playerY s ∧
  randomCalls (updateCameraPosition s) = randomCalls s ∧
  cameraX (updateCameraPosition s) = cameraTargetX s ∧
  cameraY (updateCameraPosition s) = cameraTargetY s.
Proof. repeat split. Qed.

(** *** Dirt, boulders and diamonds *)

Lemma elem_of_interiorCells g x y :
  (x, y) ∈ interiorCells g ↔ 1 <= x <= width g - 2 ∧ 1 <= y <= height g - 2.
Proof.
  unfold interiorCells, upTo, getWidth, getHeight. rewrite list_elem_of_bind. split.
  - intros (y' & Hx & Hy). apply list_elem_of_bind in Hx as (x' & Hx & Hx').
    apply list_elem_of_singleton in Hx as [= -> ->].
    apply elem_of_seqZ in Hy, Hx'. lia.
  - intros [Hx Hy]. exists y. split; [|apply elem_of_seqZ; lia].
    apply list_elem_of_bind. exists x. split; [by apply list_elem_of_singleton|].
    apply elem_of_seqZ. lia.
Qed.

Lemma terrainCell_stage s x y :
  Grid_wf (grid s) →
  1 <= x <= width (grid s) - 2 → 1 <= y <= height (grid s) - 2 →
  gridStage (awayInside (width (grid s)) (height (grid s)) (playerX s) (playerY s))
            (λ t, t = DIRT ∨ t = BOULDER) s (terrainCell s (x, y)).
Proof.
  intros Hwf Hx Hy. unfold terrainCell.
  destruct (nearPlayer 1 x y s) eqn:Hnear; [by apply gridStage_refl|].
  apply nearPlayer_false in Hnear.
  unfold Math_random. cbn [randomStream randomCalls set_randomCalls].
  assert (Haway : awayInside (width (grid s)) (height (grid s))
                    (playerX s) (playerY s) x y) by done.
  destruct (Qltb _ _).
  - do 5 (split; [done|]). apply wroteIn_setTile; [done|]. intros _. auto.
  - destruct (Qltb _ _).
    + do 5 (split; [done|]). apply wroteIn_setTile; [done|]. intros _. auto.
    + do 5 (split; [done|]). by apply wroteIn_refl.
Qed.

Lemma addTerrain_stage s :
  Grid_wf (grid s) →
  gridStage (awayInside (width (grid s)) (height (grid s)) (playerX s) (playerY s))
            (λ t, t = DIRT ∨ t = BOULDER) s (addTerrain s).
Proof.
  intros Hwf. unfold addTerrain. apply gridStage_foldl; [done|].
  intros s' [x y] Hc Hs'. apply elem_of_interiorCells in Hc as [Hx Hy].
  destruct (gridStage_dims _ _ _ _ Hs') as [Hw Hh].
  destruct Hs' as (_ & Hpx & Hpy & _ & _ & Hwf' & _).
  rewrite <- Hw, <- Hh, <- Hpx, <- Hpy.
  apply terrainCell_stage; [done|lia|lia].
Qed.

(** The cell the diamond loop settles on is outside the spawn box, and
    inside the ring when [Math.random] keeps its contract. *)
Lemma pickDiamondCell_spec R P fuel s x y s' :
  Grid_wf (grid s) →
  pickDiamondCell fuel s = Some (x, y, s') →
  gridStage R P s s' ∧ grid s' = grid s ∧
  ¬ nearCell 1 (playerX s) (playerY s) x y ∧
  (randomInRange s → 3 <= width (grid s) → 3 <= height (grid s) →
   1 <= x <= width (grid s) - 2 ∧ 1 <= y <= height (grid s) - 2).
Proof.
  revert s. induction fuel as [|fuel IH]; intros s Hwf Hpick; [done|].
  cbn [pickDiamondCell] in Hpick. unfold getWidth, getHeight in Hpick.
  pose proof (randomCell_range (width (grid s) - 2) 1 s) as Hx.
  destruct (randomCell (width (grid s) - 2) 1 s) as [x1 s1] eqn:E1.
  assert (Hs1 : s1 = snd (Math_random s))
    by (rewrite <- (randomCell_state (width (grid s) - 2) 1 s), E1; done).
  assert (Hg1 : grid s1 = grid s) by (by rewrite Hs1).
  rewrite Hg1 in Hpick.
  pose proof (randomCell_range (height (grid s) - 2) 1 s1) as Hy.
  destruct (randomCell (height (grid s) - 2) 1 s1) as [y1 s2] eqn:E2.
  assert (Hs2 : s2 = snd (Math_random s1))
    by (rewrite <- (randomCell_state (height (grid s) - 2) 1 s1), E2; done).
  assert (Hst : gridStage R P s s2).
  { rewrite Hs2, Hs1. do 5 (split; [done|]). by apply wroteIn_refl. }
  assert (Hg2 : grid s2 = grid s) by (by rewrite Hs2, Hs1).
  assert (Hp2 : playerX s2 = playerX s ∧ playerY s2 = playerY s)
    by (by rewrite Hs2, Hs1).
  destruct Hp2 as [Hpx Hpy].
  destruct (nearPlayer 1 x1 y1 s2) eqn:Hnear.
  - destruct (IH s2) as (Hst' & Hg' & Hn' & Hr'); [by rewrite Hg2|done|].
    split; [by eapply gridStage_trans|]. split; [congruence|].
    rewrite Hpx, Hpy, Hg2 in *. split; [done|].
    intros Hr. apply Hr'. by eapply gridStage_randomInRange.
  - injection Hpick as <- <- <-. apply nearPlayer_false in Hnear.
    rewrite Hpx, Hpy in Hnear. do 3 (split; [done|]).
    intros Hr Hw Hh. cbn [fst] in Hx, Hy.
    assert (Hr1 : randomInRange s1) by (by rewrite Hs1).
    specialize (Hx Hr ltac:(lia)). specialize (Hy Hr1 ltac:(lia)). lia.
Qed.

Lemma addDiamonds_stage (C : Prop) rounds fuel s s' :
  Grid_wf (grid s) →
  (C → randomInRange s ∧ 3 <= width (grid s) ∧ 3 <= height (grid s)) →
  addDiamonds rounds fuel s = Some s' →
  gridStage (λ a b, ¬ nearCell 1 (playerX s) (playerY s) a b ∧
                    (C → 1 <= a <= width (grid s) - 2 ∧
                         1 <= b <= height (grid s) - 2))
            (λ t, t = DIAMOND) s s'.
Proof.
  revert s. induction rounds as [|rounds IH]; intros s Hwf HC Hadd.
  { injection Hadd as <-. by apply gridStage_refl. }
  cbn [addDiamonds] in Hadd.
  destruct (pickDiamondCell fuel s) as [[[x y] s1]|] eqn:Hpick; [|done].
  destruct (pickDiamondCell_spec
              (λ a b, ¬ nearCell 1 (playerX s) (playerY s) a b ∧
                      (C → 1 <= a <= width (grid s) - 2 ∧
                           1 <= b <= height (grid s) - 2))
              (λ t, t = DIAMOND) _ _ _ _ _ Hwf Hpick)
    as (Hst & Hg & Hnear & Hin).
  assert (Hwf1 := gridStage_wf _ _ _ _ Hst).
  assert (Hset : gridStage
                   (λ a b, ¬ nearCell 1 (playerX s) (playerY s) a b ∧
                           (C → 1 <= a <= width (grid s) - 2 ∧
                                1 <= b <= height (grid s) - 2))
                   (λ t, t = DIAMOND) s1 (setTileG x y DIAMOND s1)).
  { apply gridStage_setTileG; [done|]. intros _. split; [|done].
    split; [done|]. intros Hc. destruct (HC Hc) as (? & ? & ?). by apply Hin. }
  assert (Hst2 := gridStage_trans _ _ _ _ _ Hst Hset).
  destruct (gridStage_dims _ _ _ _ Hst2) as [Hw Hh].
  destruct Hst2 as (Hf2 & Hpx & Hpy & Hrest).
  eapply gridStage_trans; [exact (conj Hf2 (conj Hpx (conj Hpy Hrest)))|].
  rewrite <- Hpx, <- Hpy, <- Hw, <- Hh. apply IH; [| |done].
  - by apply setTile_wf.
  - intros Hc. destruct (HC Hc) as (Hr & ? & ?). rewrite Hw, Hh.
    split; [|done].
    eapply gridStage_randomInRange; [|exact Hr].
    exact (conj Hf2 (conj Hpx (conj Hpy Hrest))).
Qed.


(** Each round of the diamond loop adds at most one Diamond. *)
Lemma addDiamonds_count rounds fuel s s' :
  Grid_wf (grid s) → addDiamonds rounds fuel s = Some s' →
  (countTile DIAMOND (grid s') <= countTile DIAMOND (grid s) + rounds)%nat.
Proof.
  revert s. induction rounds as [|rounds IH]; intros s Hwf Hadd.
  { injection Hadd as <-. lia. }
  cbn [addDiamonds] in Hadd.
  destruct (pickDiamondCell fuel s) as [[[x y] s1]|] eqn:Hpick; [|done].
  destruct (pickDiamondCell_spec (λ _ _, True) (λ _, True) _ _ _ _ _ Hwf Hpick)
    as (_ & Hg & _).
  assert (Hwf1 : Grid_wf (grid s1)) by (by rewrite Hg).
  specialize (IH (setTileG x y DIAMOND s1) (setTile_wf _ x y DIAMOND Hwf1) Hadd).
  pose proof (countTile_setTile_le DIAMOND (grid s1) x y DIAMOND Hwf1) as Hle.
  rewrite bool_decide_eq_true_2 in Hle by done.
  unfold setTileG in IH. cbn [grid set_grid] in IH. rewrite Hg in *.
  simpl in Hle. lia.
Qed.

(** *** The spawn box *)

Lemma clearSpawn_stage s :
  Grid_wf (grid s) →
  gridStage (nearCell 1 (playerX s) (playerY s)) (λ t, t = EMPTY) s (clearSpawn s) ∧
  ∀ a b, nearCell 1 (playerX s) (playerY s) a b →
         0 <= a < width (grid s) ∧ 0 <= b < height (grid s) →
         getTile (grid (clearSpawn s)) a b = EMPTY.
Proof.
  intros Hwf. unfold clearSpawn.
  change (dy ← upTo (-1) 2; dx ← upTo (-1) 2; [(dy, dx)]) with (explosionOffsets 1).
  destruct (foldl_establish
              (λ s', gridStage (nearCell 1 (playerX s) (playerY s))
                               (λ t, t = EMPTY) s s')
              (λ d s', 0 <= playerX s + snd d < width (grid s) ∧
                       0 <= playerY s + fst d < height (grid s) →
                       getTile (grid s') (playerX s + snd d) (playerY s + fst d)
                         = EMPTY)
              (λ s0 d, setTileG (playerX s0 + snd d) (playerY s0 + fst d) EMPTY s0)
              (explosionOffsets 1) s) as [HI HE].
  - by apply gridStage_refl.
  - intros s0 [dy dx] Hd Hs0. apply elem_of_explosionOffsets in Hd. cbn [fst snd].
    destruct (gridStage_dims _ _ _ _ Hs0) as [Hw Hh].
    assert (Hwf0 := gridStage_wf _ _ _ _ Hs0).
    destruct Hs0 as (Hf0 & Hpx & Hpy & Hrest). rewrite Hpx, Hpy. split.
    + eapply gridStage_trans; [exact (conj Hf0 (conj Hpx (conj Hpy Hrest)))|].
      apply gridStage_setTileG; [done|]. intros _. split; [|done].
      unfold nearCell. lia.
    + intros [Hx Hy]. unfold setTileG; cbn [grid set_grid].
      apply getTile_setTile_eq; [done|by rewrite Hw|by rewrite Hh].
  - intros s0 [dy dx] c Hd Hs0 Hc Hin. apply elem_of_explosionOffsets in Hd.
    assert (Hwf0 := gridStage_wf _ _ _ _ Hs0).
    eapply (wroteIn_keeps (λ _ _, True) EMPTY (grid s0)); [|by apply Hc].
    unfold setTileG; cbn [grid set_grid]. by apply wroteIn_setTile.
  - split; [done|]. intros a b [Ha Hb] Hin.
    specialize (HE (b - playerY s, a - playerX s)). cbn [fst snd] in HE.
    replace (playerX s + (a - playerX s)) with a in HE by lia.
    replace (playerY s + (b - playerY s)) with b in HE by lia.
    apply HE; [|done]. apply elem_of_explosionOffsets. lia.
Qed.

(** *** The whole of [initializeLevel] *)

Lemma initializeLevel_stages fuel s s' :
  Grid_wf (grid s) → initializeLevel fuel s = Some s' →
  levelFields s' = levelFields s ∧
  Grid_wf (grid s') ∧
  width (grid s') = width (grid s) ∧ height (grid s') = height (grid s) ∧
  (∀ t, ¬ generated t →
        (countTile t (grid s') <= countTile t (grid s))%nat) ∧
  (countTile DIAMOND (grid s')
   <= countTile DIAMOND (grid s) + diamondRounds)%nat ∧
  cameraX s' = cameraTargetX s' ∧ cameraY s' = cameraTargetY s' ∧
  (∀ a b, getTile (grid s') a b = getTile (grid s) a b
          ∨ generated (getTile (grid s') a b)) ∧
  (∀ a b, nearCell 1 (playerX s') (playerY s') a b →
          0 <= a < width (grid s) ∧ 0 <= b < height (grid s) →
          getTile (grid s') a b = EMPTY) ∧
  (randomInRange s → 5 <= width (grid s) → 5 <= height (grid s) →
   (2 <= playerX s' <= width (grid s) - 3 ∧
    2 <= playerY s' <= height (grid s) - 3) ∧
   ∀ a b,
     (onRing (grid s) a b → getTile (grid s') a b = WALL) ∧
     (¬ onRing (grid s) a b → ¬ nearCell 1 (playerX s') (playerY s') a b →
      getTile (grid s') a b = getTile (grid s) a b
      ∨ getTile (grid s') a b = DIRT ∨ getTile (grid s') a b = BOULDER
      ∨ getTile (grid s') a b = DIAMOND)).
Proof.
  intros Hwf Hinit. unfold initializeLevel in Hinit.
  destruct (walls_stage s Hwf) as [Hst1 Hring1].
  set (s1 := wallColumns (wallRows s)) in *.
  destruct (gridStage_dims _ _ _ _ Hst1) as [Hw1 Hh1].
  assert (Hwf1 := gridStage_wf _ _ _ _ Hst1).
  destruct Hst1 as (Hf1 & _ & _ & _ & _ & Hg1).
  destruct (placePlayer_spec s1) as (Hg2 & Hf2 & _ & _ & _ & Hrange).
  set (s2 := placePlayer s1) in *.
  destruct (updateCameraPosition_spec s2)
    as (Hg3 & Hf3 & Hpx3 & Hpy3 & _ & Hcx3 & Hcy3).
  set (s3 := updateCameraPosition s2) in *.
  assert (Hwf3 : Grid_wf (grid s3)) by (by rewrite Hg3, Hg2).
  pose proof (addTerrain_stage s3 Hwf3) as Hst4.
  set (s4 := addTerrain s3) in *.
  destruct (addDiamonds diamondRounds fuel s4) as [s5|] eqn:Hadd; [|done].
  injection Hinit as <-.
  assert (Hwf4 := gridStage_wf _ _ _ _ Hst4).
  destruct (gridStage_dims _ _ _ _ Hst4) as [Hw4 Hh4].
  destruct Hst4 as (Hf4 & Hpx4 & Hpy4 & Hcx4 & Hcy4 & Hg4).
  assert (Hfs4 : levelFields s4 = levelFields s) by congruence.
  assert (Hws4 : width (grid s4) = width (grid s)) by congruence.
  assert (Hhs4 : height (grid s4) = height (grid s)) by congruence.
  pose proof (addDiamonds_stage
                (randomInRange s ∧ 5 <= width (grid s) ∧ 5 <= height (grid s))
                diamondRounds fuel s4 s5 Hwf4) as Hst5.
  specialize (Hst5 ltac:(intros (Hr & ? & ?); split;
                           [by eapply levelFields_randomInRange|lia]) Hadd).
  assert (Hwf5 := gridStage_wf _ _ _ _ Hst5).
  destruct (gridStage_dims _ _ _ _ Hst5) as [Hw5 Hh5].
  destruct Hst5 as (Hf5 & Hpx5 & Hpy5 & Hcx5 & Hcy5 & Hg5).
  destruct (clearSpawn_stage s5 Hwf5) as [Hst6 Hbox].
  assert (Hwf6 := gridStage_wf _ _ _ _ Hst6).
  destruct (gridStage_dims _ _ _ _ Hst6) as [Hw6 Hh6].
  destruct Hst6 as (Hf6 & Hpx6 & Hpy6 & Hcx6 & Hcy6 & Hg6).
  assert (Hpx : playerX (clearSpawn s5) = playerX s2) by congruence.
  assert (Hpy : playerY (clearSpawn s5) = playerY s2) by congruence.
  assert (Hpx' : playerX s5 = playerX s2) by congruence.
  assert (Hpy' : playerY s5 = playerY s2) by congruence.
  assert (Hpx'' : playerX s4 = playerX s2) by congruence.
  assert (Hpy'' : playerY s4 = playerY s2) by congruence.
  rewrite Hpx' , Hpy' in Hg6, Hbox. rewrite Hpx'', Hpy'', Hws4, Hhs4 in Hg5.
  rewrite Hpx3, Hpy3, Hg3, Hg2, Hw1, Hh1 in Hg4.
  rewrite Hw5, Hws4, Hh5, Hhs4 in Hbox.
  rewrite Hpx, Hpy.
  split; [congruence|]. split; [done|].
  split; [congruence|]. split; [congruence|].
  pose proof (addDiamonds_count _ _ _ _ Hwf4 Hadd) as Hcount.
  split.
  { intros t Ht. unfold generated in Ht.
    destruct Hg6 as (_ & _ & _ & _ & H6). destruct Hg5 as (_ & _ & _ & _ & H5).
    destruct Hg4 as (_ & _ & _ & _ & H4). destruct Hg1 as (_ & _ & _ & _ & H1).
    specialize (H6 t ltac:(tauto)). specialize (H5 t ltac:(tauto)).
    specialize (H4 t ltac:(tauto)). specialize (H1 t ltac:(tauto)). lia. }
  split.
  { destruct Hg6 as (_ & _ & _ & _ & H6).
    destruct Hg4 as (_ & _ & _ & _ & H4). destruct Hg1 as (_ & _ & _ & _ & H1).
    specialize (H6 DIAMOND ltac:(done)).
    specialize (H4 DIAMOND ltac:(intros [?|?]; done)).
    specialize (H1 DIAMOND ltac:(done)). lia. }
  split; [unfold cameraTargetX in *; congruence|].
  split; [unfold cameraTargetY in *; congruence|].
  split; [|split; [done|]].
  - intros a b. unfold generated.
    destruct Hg6 as (_ & _ & _ & H6 & _). destruct Hg5 as (_ & _ & _ & H5 & _).
    destruct Hg4 as (_ & _ & _ & H4 & _). destruct Hg1 as (_ & _ & _ & H1 & _).
    destruct (H6 a b) as [->|[_ ->]]; [|tauto].
    destruct (H5 a b) as [->|[_ ->]]; [|tauto].
    destruct (H4 a b) as [->|[_ [-> | ->]]]; [|tauto|tauto].
    destruct (H1 a b) as [->|[_ ->]]; tauto.
  - intros Hr Hw Hh.
    assert (Hr1 := levelFields_randomInRange s s1 Hf1 Hr).
    rewrite Hw1, Hh1 in Hrange. specialize (Hrange Hr1 Hw Hh).
    split; [done|]. intros a b. split.
    + intros Hring.
      rewrite (wroteIn_outside _ _ _ _ a b Hg6).
      2:{ destruct Hring as [_ Hring]. unfold nearCell. lia. }
      rewrite (wroteIn_outside _ _ _ _ a b Hg5).
      2:{ intros [_ Hi]. destruct Hring as [_ Hring]. specialize (Hi (conj Hr (conj Hw Hh))). lia. }
      rewrite (wroteIn_outside _ _ _ _ a b Hg4).
      2:{ intros [Hi _]. destruct Hring as [_ Hring]. lia. }
      by apply Hring1.
    + intros Hnring Hnnear.
      rewrite (wroteIn_outside _ _ _ _ a b Hg6) by done.
      destruct Hg5 as (_ & _ & _ & H5 & _). destruct Hg4 as (_ & _ & _ & H4 & _).
      destruct (H5 a b) as [->|[_ ->]]; [|tauto].
      destruct (H4 a b) as [->|[_ [-> | ->]]]; [|tauto|tauto].
      rewrite (wroteIn_outside _ _ _ _ a b Hg1) by done. tauto.
Qed.


(** *** The generator returns *)

Lemma pickDiamondCell_S fuel s :
  pickDiamondCell (S fuel) s =
    let s2 := set_randomCalls (S (S (randomCalls s))) s in
    if nearPlayer 1 (diamondDraw s (randomCalls s)).1
                    (diamondDraw s (randomCalls s)).2 s
    then pickDiamondCell fuel s2
    else Some ((diamondDraw s (randomCalls s)).1,
               (diamondDraw s (randomCalls s)).2, s2).
Proof. done. Qed.

Lemma pickDiamondCell_returns fuel s :
  (∃ k, (k < fuel)%nat ∧
        ¬ nearCell 1 (playerX s) (playerY s)
            (diamondDraw s (randomCalls s + 2 * k)).1
            (diamondDraw s (randomCalls s + 2 * k)).2) →
  ∃ x y s', pickDiamondCell fuel s = Some (x, y, s') ∧
            randomStream s' = randomStream s ∧ grid s' = grid s ∧
            playerX s' = playerX s ∧ playerY s' = playerY s.
Proof.
  revert s. induction fuel as [|fuel IH]; intros s (k & Hk & Hfar); [lia|].
  rewrite pickDiamondCell_S. cbv zeta.
  destruct (nearPlayer 1 _ _ s) eqn:Hnear.
  - destruct k as [|k].
    { apply nearPlayer_true in Hnear. rewrite Nat.add_0_r in Hfar. done. }
    destruct (IH (set_randomCalls (S (S (randomCalls s))) s))
      as (x & y & s' & Hpick & Hrest).
    + exists k. split; [lia|].
      replace (randomCalls (set_randomCalls (S (S (randomCalls s))) s) + 2 * k)%nat
        with (randomCalls s + 2 * S k)%nat by (cbn [randomCalls set_randomCalls]; lia).
      exact Hfar.
    + by exists x, y, s'.
  - by eexists _, _, _.
Qed.

Lemma diamondDraw_ext s s' n :
  randomStream s' = randomStream s →
  width (grid s') = width (grid s) → height (grid s') = height (grid s) →
  diamondDraw s' n = diamondDraw s n.
Proof. intros Hr Hw Hh. unfold diamondDraw, getWidth, getHeight. by rewrite Hr, Hw, Hh. Qed.

Lemma addDiamonds_returns rounds fuel s :
  (∀ n, ∃ k, (k < fuel)%nat ∧
             ¬ nearCell 1 (playerX s) (playerY s)
                 (diamondDraw s (n + 2 * k)).1 (diamondDraw s (n + 2 * k)).2) →
  is_Some (addDiamonds rounds fuel s).
Proof.
  revert s. induction rounds as [|rounds IH]; intros s Hfar; [done|].
  cbn [addDiamonds].
  destruct (pickDiamondCell_returns fuel s (Hfar (randomCalls s)))
    as (x & y & s' & -> & Hr & Hg & Hpx & Hpy).
  apply IH. intros n. destruct (Hfar n) as (k & Hk & Hn). exists k. split; [done|].
  rewrite (diamondDraw_ext s (setTileG x y DIAMOND s')).
  - unfold setTileG. cbn [playerX playerY set_grid]. by rewrite Hpx, Hpy.
  - done.
  - unfold setTileG. cbn [grid set_grid]. by rewrite setTile_width, Hg.
  - unfold setTileG. cbn [grid set_grid]. by rewrite setTile_height, Hg.
Qed.

Lemma walls_randomCalls s :
  randomCalls (wallColumns (wallRows s)) = randomCalls s.
Proof.
  unfold wallColumns. apply foldl_invariant; [|by intros].
  unfold wallRows. by apply foldl_invariant.
Qed.

Lemma placePlayer_spawn s :
  (playerX (placePlayer s), playerY (placePlayer s)) = spawnDraw s.
Proof. done. Qed.

Lemma terrain_randomStream s :
  Grid_wf (grid s) →
  let s4 := addTerrain (updateCameraPosition (placePlayer (wallColumns (wallRows s)))) in
  randomStream s4 = randomStream s ∧
  width (grid s4) = width (grid s) ∧ height (grid s4) = height (grid s) ∧
  (playerX s4, playerY s4) = spawnDraw s ∧ Grid_wf (grid s4).
Proof.
  intros Hwf. cbv zeta.
  destruct (walls_stage s Hwf) as [Hst1 _].
  pose proof (walls_randomCalls s) as Hc1.
  set (s1 := wallColumns (wallRows s)) in *.
  destruct (gridStage_dims _ _ _ _ Hst1) as [Hw1 Hh1].
  assert (Hwf1 := gridStage_wf _ _ _ _ Hst1).
  destruct Hst1 as (Hf1 & _). apply levelFields_randomStream in Hf1.
  pose proof (placePlayer_spawn s1) as Hsp.
  destruct (placePlayer_spec s1) as (Hg2 & Hf2 & _).
  set (s2 := placePlayer s1) in *. apply levelFields_randomStream in Hf2.
  assert (Hwf3 : Grid_wf (grid (updateCameraPosition s2))) by done.
  pose proof (addTerrain_stage _ Hwf3) as Hst4.
  destruct (gridStage_dims _ _ _ _ Hst4) as [Hw4 Hh4].
  assert (Hwf4 := gridStage_wf _ _ _ _ Hst4).
  destruct Hst4 as (Hf4 & Hpx4 & Hpy4 & _). apply levelFields_randomStream in Hf4.
  change (randomStream (updateCameraPosition s2)) with (randomStream s2) in Hf4.
  change (grid (updateCameraPosition s2)) with (grid s2) in Hw4, Hh4.
  split; [congruence|].
  split; [congruence|].
  split; [congruence|].
  split; [|done].
  rewrite Hpx4, Hpy4.
  change (playerX (updateCameraPosition s2)) with (playerX s2).
  change (playerY (updateCameraPosition s2)) with (playerY s2).
  rewrite Hsp. unfold spawnDraw, getWidth, getHeight. by rewrite Hf1, Hc1, Hw1, Hh1.
Qed.


Lemma pair_eq_parts {A B} (a : A) (b : B) (p : A * B) :
  (a, b) = p → a = p.1 ∧ b = p.2.
Proof. by intros <-. Qed.

Lemma initializeLevel_spawn fuel s s' :
  Grid_wf (grid s) → initializeLevel fuel s = Some s' →
  (playerX s', playerY s') = spawnDraw s.
Proof.
  intros Hwf Hinit. unfold initializeLevel in Hinit. cbv zeta in Hinit.
  destruct (terrain_randomStream s Hwf) as (_ & _ & _ & Hsp & Hwf4).
  cbv zeta in Hsp, Hwf4.
  set (s4 := addTerrain _) in *.
  destruct (addDiamonds diamondRounds fuel s4) as [s5|] eqn:Hadd; [|done].
  injection Hinit as <-.
  pose proof (addDiamonds_stage False diamondRounds fuel s4 s5 Hwf4
                ltac:(done) Hadd) as Hst5.
  assert (Hwf5 := gridStage_wf _ _ _ _ Hst5).
  destruct Hst5 as (_ & Hpx5 & Hpy5 & _).
  destruct (clearSpawn_stage s5 Hwf5) as [(_ & Hpx6 & Hpy6 & _) _].
  rewrite Hpx6, Hpy6, Hpx5, Hpy5. done.
Qed.

Lemma getTile_emptyGrid w h x y :
  getTile (emptyGrid w h) x y = EMPTY ∨ getTile (emptyGrid w h) x y = WALL.
Proof.
  unfold getTile. destruct (isInBounds (emptyGrid w h) x y) eqn:Hb; [left|by right].
  apply isInBounds_true in Hb. simpl in Hb. unfold cellAt. simpl.
  rewrite lookup_replicate_2 by lia. simpl.
  by rewrite lookup_replicate_2 by lia.
Qed.

Lemma newGame_unfold fuel random clock :
  newGame fuel random clock
  = initializeLevel fuel
      (session (emptyGrid GRID_WIDTH GRID_HEIGHT) 1 1 random clock).
Proof. reflexivity. Qed.

Lemma countTile_emptyGrid t w h : t ≠ EMPTY → countTile t (emptyGrid w h) = 0%nat.
Proof.
  intros Ht. unfold countTile. simpl.
  rewrite fmap_replicate, countRow_replicate, sum_list_replicate.
  rewrite bool_decide_eq_false_2 by done. simpl. lia.
Qed.

Lemma zero_unitDouble : unitDouble 0.
Proof. split; [|split]; done. Qed.

Lemma nearlyOne_unitDouble : unitDouble nearlyOne.
Proof. split; [|split]; [by vm_compute|done|done]. Qed.

Lemma spawnCorner_range n : unitDouble (spawnCorner n).
Proof.
  unfold spawnCorner.
  destruct (n <? 2)%nat; [apply zero_unitDouble|apply nearlyOne_unitDouble].
Qed.

Lemma firstLevel_made : initializeLevel 2 blankSession = Some firstLevel.
Proof. vm_compute. reflexivity. Qed.

(** X12. The layout of a generated level. On a grid of at least 5 × 5
    cells, when every random number is in [0, 1) and [initializeLevel]
    returns: the spawn point is the cell the first two draws give and lies
    at least two cells away from every edge; the grid keeps its shape and
    size; every cell of the outer ring is Wall; every cell of the 3 × 3
    box around the spawn point is Empty; and every other cell either keeps
    the tile it had before the call or holds Dirt, a Boulder or a
    Diamond. *)
Theorem initializeLevel_layout (fuel : nat) (s s' : Game) :
  Grid_wf (grid s) → randomInRange s →
  5 <= getWidth (grid s) → 5 <= getHeight (grid s) →
  initializeLevel fuel s = Some s' →
  (playerX s', playerY s') = spawnDraw s ∧
  2 <= playerX s' <= getWidth (grid s) - 3 ∧
  2 <= playerY s' <= getHeight (grid s) - 3 ∧
  Grid_wf (grid s') ∧
  getWidth (grid s') = getWidth (grid s) ∧
  getHeight (grid s') = getHeight (grid s) ∧
  ∀ a b,
    (onRing (grid s) a b → getTile (grid s') a b = WALL) ∧
    (nearCell 1 (playerX s') (playerY s') a b → getTile (grid s') a b = EMPTY) ∧
    (¬ onRing (grid s) a b → ¬ nearCell 1 (playerX s') (playerY s') a b →
     getTile (grid s') a b = getTile (grid s) a b
     ∨ getTile (grid s') a b = DIRT ∨ getTile (grid s') a b = BOULDER
     ∨ getTile (grid s') a b = DIAMOND).
Proof.
  unfold getWidth, getHeight. intros Hwf Hr Hw Hh Hinit.
  pose proof (initializeLevel_spawn _ _ _ Hwf Hinit) as Hsp.
  destruct (initializeLevel_stages _ _ _ Hwf Hinit)
    as (_ & Hwf' & Hw' & Hh' & _ & _ & _ & _ & _ & Hbox & Hlay).
  destruct (Hlay Hr Hw Hh) as [[Hpx Hpy] Hcells].
  do 6 (split; [done|]). intros a b.
  destruct (Hcells a b) as [Hring Hrest].
  split; [done|]. split; [|done].
  intros Hnear. apply Hbox; [done|]. unfold nearCell in Hnear. lia.
Qed.

Lemma initializeLevel_layout_witness :
  initializeLevel 2 blankSession = Some firstLevel ∧
  (playerX firstLevel, playerY firstLevel) = (2, 2) ∧
  getTile (grid firstLevel) 99 30 = WALL ∧
  getTile (grid firstLevel) 3 3 = EMPTY.
Proof.
  destruct (initializeLevel_layout 2 blankSession firstLevel)
    as (Hsp & _ & _ & _ & _ & _ & Hcells).
  - apply emptyGrid_wf.
  - exact spawnCorner_range.
  - vm_compute. discriminate.
  - vm_compute. discriminate.
  - exact firstLevel_made.
  - split; [exact firstLevel_made|]. split; [exact Hsp|].
    destruct (Hcells 99 30) as (Hring & _). destruct (Hcells 3 3) as (_ & Hbox & _).
    split.
    + apply Hring. clear. unfold onRing. cbn [grid blankSession session width height emptyGrid].
      unfold GRID_WIDTH, GRID_HEIGHT. lia.
    + apply Hbox. destruct (pair_eq_parts _ _ _ Hsp) as [-> ->]. clear.
      change (spawnDraw blankSession) with (2, 2). unfold nearCell.
      cbn [fst snd]. lia.
Defined.

(** X13. What generating a level leaves alone. [initializeLevel] writes
    only the grid, the player position, the camera position and the count
    of random numbers drawn: score, counters, flags, timers, exit
    coordinates, explosion fields, sound calls and the clock are as
    before. The camera ends snapped onto the spawn point. The call never
    writes an Exit or a Player tile: a cell either keeps its tile or holds
    Wall, Dirt, Boulder, Diamond or Empty, so any other tile is no more
    frequent than before; and the number of Diamonds grows by at most the
    38 rounds of the diamond loop. *)
Theorem initializeLevel_frame (fuel : nat) (s s' : Game) :
  Grid_wf (grid s) → initializeLevel fuel s = Some s' →
  levelFields s' = levelFields s ∧
  cameraX s' = cameraTargetX s' ∧ cameraY s' = cameraTargetY s' ∧
  (∀ a b, getTile (grid s') a b = getTile (grid s) a b
          ∨ generated (getTile (grid s') a b)) ∧
  (∀ t, ¬ generated t → (countTile t (grid s') <= countTile t (grid s))%nat) ∧
  (countTile DIAMOND (grid s') <= countTile DIAMOND (grid s) + 38)%nat.
Proof.
  intros Hwf Hinit.
  destruct (initializeLevel_stages _ _ _ Hwf Hinit)
    as (Hf & _ & _ & _ & Hcnt & Hd & Hcx & Hcy & Hcells & _).
  done.
Qed.

Lemma initializeLevel_frame_witness :
  initializeLevel 2 blankSession = Some firstLevel ∧
  levelFields firstLevel = levelFields blankSession ∧
  (countTile DIAMOND (grid firstLevel)
   <= countTile DIAMOND (grid blankSession) + 38)%nat.
Proof.
  destruct (initializeLevel_frame 2 blankSession firstLevel (emptyGrid_wf _ _)
              firstLevel_made) as (Hf & _ & _ & _ & _ & Hd).
  split; [exact firstLevel_made|]. split; [exact Hf|exact Hd].
Defined.

(** X14. [initializeLevel] returns as soon as its one open-ended loop
    lets it: if, from any point of the random stream on, one of the next
    [tries] diamond draws falls outside the 3 × 3 box around the spawn
    point, the call returns when each run of the [do ... while] is allowed
    [tries] rounds or more. The wall, terrain and clearing loops are
    bounded by the size of the grid. *)
Theorem initializeLevel_returns (tries fuel : nat) (s : Game) :
  Grid_wf (grid s) → diamondsPlaceable tries s → (tries <= fuel)%nat →
  is_Some (initializeLevel fuel s).
Proof.
  intros Hwf Hplace Hfuel. unfold initializeLevel. cbv zeta.
  destruct (terrain_randomStream s Hwf) as (Hr & Hw & Hh & Hsp & Hwf4).
  cbv zeta in Hr, Hw, Hh, Hsp, Hwf4.
  set (s4 := addTerrain _) in *.
  destruct (addDiamonds_returns diamondRounds fuel s4) as [s5 ->]; [|done].
  intros n. destruct (Hplace n) as (k & Hk & Hfar).
  exists k. split; [lia|].
  rewrite (diamondDraw_ext s s4 _ Hr Hw Hh).
  destruct (pair_eq_parts _ _ _ Hsp) as [Hpx Hpy].
  rewrite Hpx, Hpy. exact Hfar.
Qed.

Lemma blankSession_placeable : diamondsPlaceable 2 blankSession.
Proof.
  intros [|[|n]].
  - exists 1%nat. split; [lia|]. vm_compute. intros [H _]. by apply H.
  - exists 0%nat. split; [lia|]. vm_compute. intros [_ H]. by apply H.
  - exists 0%nat. split; [lia|]. rewrite Nat.add_0_r.
    change (diamondDraw blankSession (S (S n))) with (98, 58).
    vm_compute. intros [H _]. by apply H.
Qed.

Lemma initializeLevel_returns_witness : is_Some (initializeLevel 2 blankSession).
Proof.
  apply (initializeLevel_returns 2 2 blankSession);
    [apply emptyGrid_wf|exact blankSession_placeable|lia].
Defined.


(** X15. The level of a new game. Whatever the random numbers, the level
    the constructor generates holds no Exit and no Player tile (the player
    is a position, not a tile), at most 38 Diamonds, the spawn box is
    Empty, the exit is not revealed and the counters are at their start
    values. *)
Theorem newGame_level (fuel : nat) (random clock : nat → Q) (s : Game) :
  newGame fuel random clock = Some s →
  (∀ a b, getTile (grid s) a b ≠ EXIT ∧ getTile (grid s) a b ≠ PLAYER) ∧
  countTile EXIT (grid s) = 0%nat ∧ countTile PLAYER (grid s) = 0%nat ∧
  (countTile DIAMOND (grid s) <= 38)%nat ∧
  (∀ a b, nearCell 1 (playerX s) (playerY s) a b →
          0 <= a < GRID_WIDTH → 0 <= b < GRID_HEIGHT →
          getTile (grid s) a b = EMPTY) ∧
  exitRevealed s = false ∧ score s = 0 ∧ diamondsCollected s = 0 ∧
  timeRemaining s = TIME_LIMIT ∧ gameOver s = false ∧ gameWon s = false.
Proof.
  rewrite newGame_unfold. intros Hinit.
  destruct (initializeLevel_stages fuel
              (session (emptyGrid GRID_WIDTH GRID_HEIGHT) 1 1 random clock) s
              (emptyGrid_wf GRID_WIDTH GRID_HEIGHT) Hinit)
    as (Hf & _ & _ & _ & Hcnt & Hd & _ & _ & Hcells & Hbox & _).
  cbn [grid session] in Hcnt, Hd, Hcells, Hbox.
  split; [|split; [|split; [|split; [|split]]]].
  - intros a b.
    destruct (Hcells a b) as [->|Hg].
    + destruct (getTile_emptyGrid GRID_WIDTH GRID_HEIGHT a b) as [-> | ->]; done.
    + unfold generated in Hg. split; intros Heq; rewrite Heq in Hg;
        destruct Hg as [?|[?|[?|[?|?]]]]; done.
  - specialize (Hcnt EXIT). rewrite countTile_emptyGrid in Hcnt by done.
    assert (¬ generated EXIT) by (intros [?|[?|[?|[?|?]]]]; done).
    specialize (Hcnt ltac:(done)). lia.
  - specialize (Hcnt PLAYER). rewrite countTile_emptyGrid in Hcnt by done.
    assert (¬ generated PLAYER) by (intros [?|[?|[?|[?|?]]]]; done).
    specialize (Hcnt ltac:(done)). lia.
  - rewrite countTile_emptyGrid in Hd by done. exact Hd.
  - intros a b Hnear Ha Hb. apply Hbox; [done|]. cbn [width height emptyGrid]. lia.
  - unfold levelFields in Hf. injection Hf. intros. repeat split; assumption.
Qed.

Lemma newGame_level_witness :
  newGame 2 spawnCorner zeros = Some firstLevel ∧
  countTile EXIT (grid firstLevel) = 0%nat.
Proof.
  destruct (newGame_level 2 spawnCorner zeros firstLevel firstLevel_made)
    as (_ & H & _).
  split; [exact firstLevel_made|exact H].
Defined.


(** ** Reset *)

Lemma resetLevel_made : resetGame 1 wonSession = Some resetLevel.
Proof. vm_compute. reflexivity. Qed.

(** X16. What a reset does and what it leaves. When [resetGame] returns,
    score and diamond count are 0, the game is neither over nor won, the
    timer is back at the limit with the warning off, the exit is hidden
    with coordinates (-1, -1), the animation and all time stamps are
    cleared and the warning cue was stopped; the camera is snapped onto the
    new spawn point. The explosion fields are not reset, and the grid is
    not rebuilt: a cell either keeps the tile of the previous session or
    holds Wall, Dirt, Boulder, Diamond or Empty, so the previous session's
    Exit can survive but no Exit or Player tile is added. *)
Theorem resetGame_resets (fuel : nat) (s s' : Game) :
  Grid_wf (grid s) → resetGame fuel s = Some s' →
  (score s' = 0 ∧ diamondsCollected s' = 0 ∧
   gameOver s' = false ∧ gameWon s' = false ∧
   timeRemaining s' = TIME_LIMIT ∧ isTimeWarning s' = false ∧
   exitRevealed s' = false ∧ exitX s' = -1 ∧ exitY s' = -1 ∧
   playerAnimFrame s' = 0 ∧ playerFacingLeft s' = false) ∧
  (lastTime s' = 0%Q ∧ lastPlayerMoveTime s' = 0%Q ∧ lastTimeUpdate s' = 0%Q ∧
   lastAnimUpdate s' = 0%Q ∧ lastPhysicsUpdate s' = 0%Q ∧
   exitAppearTime s' = 0%Q) ∧
  soundCalls s' = Stop timeWarning :: soundCalls s ∧
  explosionFields s' = explosionFields s ∧
  (randomStream s' = randomStream s ∧ clockStream s' = clockStream s ∧
   clockCalls s' = clockCalls s) ∧
  (cameraX s' = cameraTargetX s' ∧ cameraY s' = cameraTargetY s') ∧
  Grid_wf (grid s') ∧
  (∀ a b, getTile (grid s') a b = getTile (grid s) a b
          ∨ generated (getTile (grid s') a b)) ∧
  (∀ t, ¬ generated t → (countTile t (grid s') <= countTile t (grid s))%nat).
Proof.
  intros Hwf Hreset. unfold resetGame in Hreset. cbv zeta in Hreset.
  set (s0 := set_exitAppearTime _ _) in Hreset.
  assert (Hg0 : grid s0 = setTile (grid s) (playerX s) (playerY s) EMPTY)
    by reflexivity.
  assert (Hwf0 : Grid_wf (grid s0)) by (rewrite Hg0; by apply setTile_wf).
  destruct (initializeLevel_stages fuel s0 s' Hwf0 Hreset)
    as (Hf & Hwf' & _ & _ & Hcnt & _ & Hcx & Hcy & Hcells & _).
  rewrite Hg0 in Hcnt, Hcells.
  unfold levelFields in Hf. injection Hf. intros.
  split; [repeat split; assumption|]. split; [repeat split; assumption|].
  split; [assumption|]. split; [unfold explosionFields; congruence|].
  split; [repeat split; assumption|]. split; [done|]. split; [done|]. split.
  - intros a b. destruct (Hcells a b) as [Heq|Hgen]; [|by right].
    rewrite Heq, getTile_setTile by done.
    case_decide; [right; unfold generated; tauto|by left].
  - intros t Ht. specialize (Hcnt t Ht).
    pose proof (countTile_setTile_le t (grid s) (playerX s) (playerY s) EMPTY Hwf)
      as Hle.
    rewrite bool_decide_eq_false_2 in Hle.
    + simpl in Hle. lia.
    + intros <-. apply Ht. unfold generated. tauto.
Qed.

Lemma resetGame_resets_witness :
  resetGame 1 wonSession = Some resetLevel ∧
  score resetLevel = 0 ∧ exitRevealed resetLevel = false ∧
  explosionFields resetLevel = explosionFields wonSession.
Proof.
  destruct (resetGame_resets 1 wonSession resetLevel (cave_wf _) resetLevel_made)
    as ((H1 & _ & _ & _ & _ & _ & H2 & _) & _ & _ & H3 & _).
  split; [exact resetLevel_made|]. split; [exact H1|]. split; [exact H2|exact H3].
Defined.

(** ** The score *)

Lemma stepTo_counters key x y s :
  score (stepTo key x y s) = score s ∧
  diamondsCollected (stepTo key x y s) = diamondsCollected s.
Proof.
  unfold stepTo, performance_now, tryPushBoulder.
  destruct key; cbn -[clampQ inject_Z Z.modulo]; repeat case_match; done.
Qed.

(** X17. The score follows the diamonds. A key press that is not a reset
    changes the score by the points per diamond times the change of the
    diamond count, and that count stays or grows by one; it grows only
    when the game is neither over nor won and the destination of the key
    holds a Diamond (for a key that is no arrow the destination is the
    player's own cell). A reset sets both to 0. So every key press keeps
    the score equal to the diamond count times the points per diamond. *)
Theorem handleInput_score (fuel : nat) (key : Key) (s s' : Game) :
  Grid_wf (grid s) → handleInput fuel key s = Some s' →
  (scoreInv s → scoreInv s') ∧
  (key = KeyR → score s' = 0 ∧ diamondsCollected s' = 0) ∧
  (key ≠ KeyR →
   score s' - score s
   = POINTS_PER_DIAMOND * (diamondsCollected s' - diamondsCollected s) ∧
   (diamondsCollected s' = diamondsCollected s
    ∨ diamondsCollected s' = diamondsCollected s + 1 ∧
      key ≠ KeyM ∧ gameOver s = false ∧ gameWon s = false ∧
      getTile (grid s) (applyKey key s).1.1 (applyKey key s).1.2 = DIAMOND)).
Proof.
  intros Hwf Hin.
  assert (Hmain :
    (key = KeyR → score s' = 0 ∧ diamondsCollected s' = 0) ∧
    (key ≠ KeyR →
     score s' - score s
     = POINTS_PER_DIAMOND * (diamondsCollected s' - diamondsCollected s) ∧
     (diamondsCollected s' = diamondsCollected s
      ∨ diamondsCollected s' = diamondsCollected s + 1 ∧
        key ≠ KeyM ∧ gameOver s = false ∧ gameWon s = false ∧
        getTile (grid s) (applyKey key s).1.1 (applyKey key s).1.2 = DIAMOND))).
  { destruct (decide (key = KeyR)) as [->|Hkey].
    - split; [|done]. intros _. cbn [handleInput] in Hin.
      unfold resetGame in Hin. cbv zeta in Hin.
      set (s0 := set_exitAppearTime _ _) in Hin.
      assert (Hwf0 : Grid_wf (grid s0))
        by (change (grid s0) with (setTile (grid s) (playerX s) (playerY s) EMPTY);
            by apply setTile_wf).
      destruct (initializeLevel_stages fuel s0 s' Hwf0 Hin) as (Hf & _).
      unfold levelFields in Hf. injection Hf. intros. split; assumption.
    - split; [done|]. intros _.
      assert (Hsame : ∀ s1, score s1 = score s →
                diamondsCollected s1 = diamondsCollected s →
                score s1 - score s
                = POINTS_PER_DIAMOND * (diamondsCollected s1 - diamondsCollected s) ∧
                (diamondsCollected s1 = diamondsCollected s
                 ∨ diamondsCollected s1 = diamondsCollected s + 1 ∧
                   key ≠ KeyM ∧ gameOver s = false ∧ gameWon s = false ∧
                   getTile (grid s) (applyKey key s).1.1 (applyKey key s).1.2
                   = DIAMOND)).
      { intros s1 -> ->. split; [lia|by left]. }
      destruct (decide (key = KeyM)) as [->|HkeyM].
      { injection Hin as <-. by apply Hsame. }
      assert (Hbody :
        (if gameOver s || gameWon s then Some s
         else
           if canMoveTo (applyKey key s).1.1 (applyKey key s).1.2 (applyKey key s).2
           then
             if tile_eqb (getTile (grid (applyKey key s).2)
                            (applyKey key s).1.1 (applyKey key s).1.2) DIAMOND
             then
               match collectDiamond fuel (applyKey key s).2 with
               | None => None
               | Some s2 =>
                   Some (stepTo key (applyKey key s).1.1 (applyKey key s).1.2
                           (soundPlay diamond s2))
               end
             else if tile_eqb (getTile (grid (applyKey key s).2)
                                 (applyKey key s).1.1 (applyKey key s).1.2) DIRT
             then Some (stepTo key (applyKey key s).1.1 (applyKey key s).1.2
                          (soundPlay walk (applyKey key s).2))
             else if tile_eqb (getTile (grid (applyKey key s).2)
                                 (applyKey key s).1.1 (applyKey key s).1.2) EXIT
                     && exitRevealed (applyKey key s).2
             then Some (soundPlay victory
                          (soundStop timeWarning (set_gameWon true (applyKey key s).2)))
             else Some (stepTo key (applyKey key s).1.1 (applyKey key s).1.2
                          (applyKey key s).2)
           else Some (applyKey key s).2) = Some s').
      { rewrite <- Hin. destruct key; done. }
      clear Hin.
      assert (Hk : score (applyKey key s).2 = score s ∧
                   diamondsCollected (applyKey key s).2 = diamondsCollected s ∧
                   grid (applyKey key s).2 = grid s)
        by (destruct key; done).
      destruct Hk as (Hks & Hkd & Hkg).
      destruct (gameOver s) eqn:Hover; [injection Hbody as <-; by apply Hsame|].
      destruct (gameWon s) eqn:Hwon; [injection Hbody as <-; by apply Hsame|].
      cbn [orb] in Hbody.
      destruct (canMoveTo _ _ _); [|injection Hbody as <-; by apply Hsame].
      destruct (tile_eqb _ DIAMOND) eqn:Hdia.
      + destruct (collectDiamond fuel (applyKey key s).2) as [s2|] eqn:Hcol; [|done].
        injection Hbody as <-.
        destruct (collectDiamond_grid _ _ _ Hcol) as (Hsc & Hdc & _).
        destruct (stepTo_counters key (applyKey key s).1.1 (applyKey key s).1.2
                    (soundPlay diamond s2)) as [-> ->].
        change (score (soundPlay diamond s2)) with (score s2).
        change (diamondsCollected (soundPlay diamond s2)) with (diamondsCollected s2).
        rewrite Hsc, Hdc, Hks, Hkd. split; [lia|]. right.
        do 4 (split; [done|]).
        unfold tile_eqb in Hdia. apply bool_decide_eq_true in Hdia.
        by rewrite <- Hkg.
      + destruct (tile_eqb _ DIRT).
        { injection Hbody as <-.
          destruct (stepTo_counters key (applyKey key s).1.1 (applyKey key s).1.2
                      (soundPlay walk (applyKey key s).2)) as [H1 H2].
          apply Hsame; [by rewrite H1|by rewrite H2]. }
        destruct (tile_eqb _ EXIT && _).
        { injection Hbody as <-. by apply Hsame. }
        injection Hbody as <-.
        destruct (stepTo_counters key (applyKey key s).1.1 (applyKey key s).1.2
                    (applyKey key s).2) as [H1 H2].
        apply Hsame; [by rewrite H1|by rewrite H2]. }
  split; [|done].
  destruct Hmain as [HR HnR]. unfold scoreInv. intros Hinv.
  destruct (decide (key = KeyR)) as [Hk|Hk].
  - destruct (HR Hk) as [-> ->]. unfold POINTS_PER_DIAMOND. lia.
  - destruct (HnR Hk) as [Hdiff _]. unfold POINTS_PER_DIAMOND in *. lia.
Qed.

Lemma handleInput_score_witness :
  ∃ s', handleInput 1 ArrowRight lastDiamond = Some s' ∧
        (scoreInv lastDiamond → scoreInv s').
Proof.
  destruct (handleInput 1 ArrowRight lastDiamond) as [s'|] eqn:H;
    [|vm_compute in H; discriminate H].
  exists s'. split; [reflexivity|].
  exact (proj1 (handleInput_score 1 ArrowRight lastDiamond s' (cave_wf _) H)).
Defined.


(** ** One frame of the game loop *)

Lemma quietFields_startExplosion s : quietFields (startExplosion s) = quietFields s.
Proof. unfold startExplosion. by destruct (gameOver s). Qed.

Lemma quietFields_crushAfterGrace s :
  quietFields (crushAfterGrace s) = quietFields s.
Proof.
  unfold crushAfterGrace, performance_now.
  destruct (Qleb _ _); [by rewrite quietFields_startExplosion|done].
Qed.

Lemma quietFields_physicsCell s c : quietFields (physicsCell s c) = quietFields s.
Proof.
  destruct c as [x y]. unfold physicsCell.
  repeat case_match; rewrite ?quietFields_crushAfterGrace; done.
Qed.

Lemma quietFields_updatePhysics s : quietFields (updatePhysics s) = quietFields s.
Proof.
  unfold updatePhysics, checkPlayerTile.
  assert (Hscan : ∀ cs s0, quietFields (scan cs s0) = quietFields s0).
  { unfold scan. induction cs as [|c cs IH]; intros s0; simpl; [done|].
    by rewrite IH, quietFields_physicsCell. }
  case_match; rewrite ?quietFields_crushAfterGrace; apply Hscan.
Qed.

Lemma quietFields_explosionCell s d : quietFields (explosionCell s d) = quietFields s.
Proof.
  destruct d as [y x]. destruct (explosionCell_cases s y x) as [->|(_ & _ & _ & ->)]; done.
Qed.

Lemma quietFields_updateExplosion t s :
  quietFields (updateExplosion t s) = quietFields s.
Proof.
  unfold updateExplosion. repeat case_match; try done.
  apply (foldl_invariant (λ s', quietFields s' = quietFields s)); [done|].
  intros s' d _ Hs'. by rewrite quietFields_explosionCell.
Qed.

Lemma frameFields_updateTime t s : frameFields (updateTime t s) = frameFields s.
Proof. unfold updateTime. repeat case_match; done. Qed.

Lemma frameFields_updateAnimation t s :
  frameFields (updateAnimation t s) = frameFields s.
Proof. unfold updateAnimation. repeat case_match; done. Qed.

Lemma grid_updateTime t s : grid (updateTime t s) = grid s.
Proof. unfold updateTime. repeat case_match; done. Qed.

Lemma grid_updateAnimation t s : grid (updateAnimation t s) = grid s.
Proof. unfold updateAnimation. repeat case_match; done. Qed.

Lemma gameOver_updateTime t s :
  gameOver s = true → gameOver (updateTime t s) = true.
Proof. intros H. unfold updateTime. rewrite H. simpl. by case_match. Qed.

Lemma gameOver_updateExplosion t s :
  gameOver (updateExplosion t s) = gameOver s.
Proof.
  unfold updateExplosion. repeat case_match; try done.
  by destruct (explosion_fold_fields
                 (explosionOffsets
                    (explosionRadius
                       (set_lastExplosionUpdate t
                          (set_explosionRadius
                             (explosionFrame
                                (set_explosionFrame (explosionFrame s + 1) s) / 2)
                             (set_explosionFrame (explosionFrame s + 1) s)))))
                 (set_lastExplosionUpdate t
                    (set_explosionRadius
                       (explosionFrame
                          (set_explosionFrame (explosionFrame s + 1) s) / 2)
                       (set_explosionFrame (explosionFrame s + 1) s)))) as [_ ->].
Qed.

Lemma gameOver_updateAnimation t s :
  gameOver (updateAnimation t s) = gameOver s.
Proof. unfold updateAnimation. repeat case_match; done. Qed.

Lemma gameOver_updatePhysics s :
  gameOver s = true → gameOver (updatePhysics s) = true.
Proof.
  intros H. destruct (explosionStep_updatePhysics s) as [[-> _]|[H' _]]; congruence.
Qed.

(** The explosion only turns cells that are not Wall into Empty. *)
Lemma updateExplosion_wrote t s :
  Grid_wf (grid s) →
  wroteIn (λ a b, getTile (grid s) a b ≠ WALL) (λ u, u = EMPTY)
          (grid s) (grid (updateExplosion t s)).
Proof.
  intros Hwf. unfold updateExplosion.
  repeat case_match; try by apply wroteIn_refl.
  apply (foldl_invariant
           (λ s', wroteIn (λ a b, getTile (grid s) a b ≠ WALL) (λ u, u = EMPTY)
                          (grid s) (grid s'))); [by apply wroteIn_refl|].
  intros s' [y x] _ Hs'.
  destruct (explosionCell_cases s' y x) as [->|(_ & Hin & Hnw & ->)]; [done|].
  eapply wroteIn_trans; [exact Hs'|].
  unfold setTileG. cbn [grid set_grid].
  apply wroteIn_setTile; [by destruct Hs'|]. intros _. split; [|done].
  destruct Hs' as (_ & _ & _ & Hc & _).
  destruct (Hc (explosionX s' + x) (explosionY s' + y)) as [Heq|[Hr _]];
    [by rewrite <- Heq|done].
Qed.

Lemma visit_effect_static_back s x y g' a b :
  Grid_wf (grid s) → visit_effect s x y g' →
  static (getTile g' a b) → getTile (grid s) a b = getTile g' a b.
Proof.
  intros Hwf Heff. destruct (visit_effect_inv _ _ _ _ Heff)
    as [->|(x' & t & -> & Ht & Hsrc & Hdst & _)]; [done|].
  destruct (object_not_WALL t Ht) as [HtW HtE].
  rewrite getTile_moved; [|done|by rewrite Hsrc|done].
  unfold static. repeat case_decide; [|tauto|done].
  destruct Ht as [-> | ->]; tauto.
Qed.

Lemma scan_static_back cs s a b :
  Grid_wf (grid s) → static (getTile (grid (scan cs s)) a b) →
  getTile (grid s) a b = getTile (grid (scan cs s)) a b.
Proof.
  unfold scan. revert s. induction cs as [|[x y] cs IH]; intros s Hwf Hst; [done|].
  cbn [foldl] in *.
  pose proof (IH _ (physicsCell_wf s (x, y) Hwf) Hst) as Heq.
  rewrite <- Heq.
  apply (visit_effect_static_back s x y); [done|apply physicsCell_effect|].
  by rewrite Heq.
Qed.

(** What the physics step of a frame does to the grid. *)
Lemma physicsIfDue_grid t s :
  Grid_wf (grid s) →
  Grid_wf (grid (physicsIfDue t s)) ∧
  width (grid (physicsIfDue t s)) = width (grid s) ∧
  height (grid (physicsIfDue t s)) = height (grid s) ∧
  (∀ u, countTile u (grid (physicsIfDue t s)) = countTile u (grid s)) ∧
  (∀ a b, static (getTile (grid s) a b) →
          getTile (grid (physicsIfDue t s)) a b = getTile (grid s) a b) ∧
  (∀ a b, static (getTile (grid (physicsIfDue t s)) a b) →
          getTile (grid s) a b = getTile (grid (physicsIfDue t s)) a b).
Proof.
  intros Hwf. unfold physicsIfDue. case_match; [|done].
  cbn [grid set_lastPhysicsUpdate]. rewrite grid_updatePhysics.
  destruct (scan_keeps (scanOrder (grid s)) s Hwf)
    as (Hwf' & Hw & Hh & _ & _ & Hcnt & Hst).
  do 5 (split; [done|]). intros a b. by apply scan_static_back.
Qed.


Lemma quietFields_frameFields s s' :
  quietFields s' = quietFields s → frameFields s' = frameFields s.
Proof. intros H. exact (f_equal (λ q, q.1.1.1.1.1.1) H). Qed.

Lemma gameOver_physicsIfDue t s :
  gameOver s = true → gameOver (physicsIfDue t s) = true.
Proof.
  intros H. unfold physicsIfDue. case_match; [|done].
  cbn [gameOver set_lastPhysicsUpdate]. by apply gameOver_updatePhysics.
Qed.

Lemma quietFields_physicsIfDue t s :
  quietFields (physicsIfDue t s) = quietFields s.
Proof.
  unfold physicsIfDue. case_match; [|done].
  rewrite <- (quietFields_updatePhysics s). done.
Qed.

Lemma explosionFields_updateTime t s :
  explosionFields (updateTime t s) = explosionFields s.
Proof. unfold updateTime. repeat case_match; done. Qed.

Lemma explosionFields_updateAnimation t s :
  explosionFields (updateAnimation t s) = explosionFields s.
Proof. unfold updateAnimation. repeat case_match; done. Qed.

Lemma explosionFields_physicsIfDue t s :
  gameOver s = true →
  explosionFields (physicsIfDue t s) = explosionFields s.
Proof.
  intros H. unfold physicsIfDue. case_match; [|done].
  destruct (explosionStep_updatePhysics s) as [[_ Hf]|[H' _]]; [|congruence].
  rewrite <- Hf. done.
Qed.

Lemma playerAnimFrame_updateAnimation t s :
  0 <= playerAnimFrame s <= 3 →
  0 <= playerAnimFrame (updateAnimation t s) <= 3.
Proof.
  intros H. unfold updateAnimation. repeat case_match; try done.
  cbn [playerAnimFrame set_lastAnimUpdate set_playerAnimFrame].
  pose proof (Z.mod_pos_bound (playerAnimFrame s + 1) 4). lia.
Qed.

Lemma gameLoop_keeps (timestamp : Q) (reads : nat) (s : Game) :
  Grid_wf (grid s) →
  frameFields (gameLoop timestamp reads s) = frameFields s ∧
  lastTime (gameLoop timestamp reads s) = timestamp ∧
  (gameOver s = true → gameOver (gameLoop timestamp reads s) = true) ∧
  (0 <= playerAnimFrame s <= 3 →
   0 <= playerAnimFrame (gameLoop timestamp reads s) <= 3) ∧
  Grid_wf (grid (gameLoop timestamp reads s)) ∧
  getWidth (grid (gameLoop timestamp reads s)) = getWidth (grid s) ∧
  getHeight (grid (gameLoop timestamp reads s)) = getHeight (grid s) ∧
  (∀ a b, getTile (grid (gameLoop timestamp reads s)) a b = WALL
          ↔ getTile (grid s) a b = WALL) ∧
  (∀ a b, static (getTile (grid (gameLoop timestamp reads s)) a b) →
          getTile (grid s) a b = getTile (grid (gameLoop timestamp reads s)) a b) ∧
  (∀ u, u ≠ EMPTY →
        (countTile u (grid (gameLoop timestamp reads s)) <= countTile u (grid s))%nat) ∧
  (gameOver (gameLoop timestamp reads s) = false →
   ∀ u, countTile u (grid (gameLoop timestamp reads s)) = countTile u (grid s)).
Proof.
  intros Hwf. unfold gameLoop, render, getWidth, getHeight. cbv zeta.
  set (s1 := set_lastTime timestamp s).
  set (s2 := updateTime timestamp s1).
  set (s3 := updateExplosion timestamp s2).
  set (s4 := updateAnimation timestamp s3).
  set (s5 := physicsIfDue timestamp s4).
  assert (Hg2 : grid s2 = grid s) by exact (grid_updateTime timestamp s1).
  assert (Hwf2 : Grid_wf (grid s2)) by (by rewrite Hg2).
  pose proof (updateExplosion_wrote timestamp s2 Hwf2) as Hexp. fold s3 in Hexp.
  rewrite Hg2 in Hexp.
  destruct Hexp as (Hwf3 & Hw3 & Hh3 & Hc3 & Hn3).
  assert (Hg4 : grid s4 = grid s3) by apply grid_updateAnimation.
  assert (Hwf4 : Grid_wf (grid s4)) by (by rewrite Hg4).
  destruct (physicsIfDue_grid timestamp s4 Hwf4)
    as (Hwf5 & Hw5 & Hh5 & Hn5 & Hst5 & Hback5).
  fold s5 in Hwf5, Hw5, Hh5, Hn5, Hst5, Hback5.
  rewrite Hg4 in Hw5, Hh5, Hn5, Hst5, Hback5.
  assert (Hq5 : quietFields s5 = quietFields s4) by apply quietFields_physicsIfDue.
  assert (Hq3 : quietFields s3 = quietFields s2) by apply quietFields_updateExplosion.
  assert (Hback : ∀ a b, static (getTile (grid s5) a b) →
                         getTile (grid s) a b = getTile (grid s5) a b).
  { intros a b Hst. pose proof (Hback5 a b Hst) as Heq. rewrite <- Heq in *.
    destruct (Hc3 a b) as [->|[_ He]]; [done|].
    rewrite He in Hst. by destruct Hst. }
  cbn [frameFields lastTime gameOver playerAnimFrame grid set_clockCalls].
  change (frameFields (set_clockCalls (clockCalls s5 + reads) s5))
    with (frameFields s5).
  split.
  { rewrite (quietFields_frameFields _ _ Hq5).
    unfold s4. rewrite frameFields_updateAnimation.
    rewrite (quietFields_frameFields _ _ Hq3).
    unfold s2. exact (frameFields_updateTime timestamp s1). }
  split.
  { change (lastTime s5 = timestamp).
    transitivity (lastTime s4); [exact (f_equal (λ q, q.1.1.1.1.1.2) Hq5)|].
    transitivity (lastTime s3).
    { unfold s4, updateAnimation. repeat case_match; done. }
    transitivity (lastTime s2); [exact (f_equal (λ q, q.1.1.1.1.1.2) Hq3)|].
    unfold s2, updateTime. repeat case_match; done. }
  split.
  { intros Hover. change (gameOver s5 = true).
    apply gameOver_physicsIfDue.
    unfold s4. rewrite gameOver_updateAnimation.
    unfold s3. rewrite gameOver_updateExplosion.
    by apply gameOver_updateTime. }
  split.
  { intros Hanim. change (0 <= playerAnimFrame s5 <= 3).
    rewrite (f_equal (λ q, q.1.1.1.1.2) Hq5 : playerAnimFrame s5 = playerAnimFrame s4).
    apply playerAnimFrame_updateAnimation.
    rewrite (f_equal (λ q, q.1.1.1.1.2) Hq3 : playerAnimFrame s3 = playerAnimFrame s2).
    unfold s2, updateTime. repeat case_match; done. }
  change (grid (set_clockCalls (clockCalls s5 + reads) s5)) with (grid s5).
  split; [done|]. split; [congruence|]. split; [congruence|].
  split.
  { intros a b. split.
    - intros Hwall. rewrite (Hback a b); [done|]. rewrite Hwall. done.
    - intros Hwall. rewrite Hst5.
      + destruct (Hc3 a b) as [->|[Hnw _]]; done.
      + destruct (Hc3 a b) as [->|[Hnw _]]; [by rewrite Hwall|done]. }
  split; [done|]. split.
  { intros u Hu. rewrite Hn5. by apply Hn3. }
  intros Hover u. change (gameOver s5 = false) in Hover.
  assert (Hover4 : gameOver s4 = false).
  { destruct (gameOver s4) eqn:E; [|done].
    pose proof (gameOver_physicsIfDue timestamp s4 E) as E5. fold s5 in E5.
    congruence. }
  unfold s4 in Hover4. rewrite gameOver_updateAnimation in Hover4.
  unfold s3 in Hover4. rewrite gameOver_updateExplosion in Hover4.
  rewrite Hn5. unfold s3.
  rewrite (updateExplosion_idle timestamp s2) by (by left). by rewrite Hg2.
Qed.

(** X18. What one frame of the game loop can and cannot change. A frame
    never writes the player position or facing, the time of the last move,
    the score, the diamond count, the win flag, the exit, the camera
    (its smoothing routine is not called) or the random numbers; it stamps
    [lastTime]; a game that is over stays over; the animation frame stays
    in 0..3. On the grid it keeps shape and size, a cell is Wall after the
    frame exactly when it was before, no Wall, Dirt, Exit or Player tile
    appears where there was none, no tile other than Empty becomes more
    frequent, and as long as the game is not over after the frame the
    number of tiles of every kind is unchanged. *)
Theorem gameLoop_frame (timestamp : Q) (reads : nat) (s : Game) :
  Grid_wf (grid s) →
  frameFields (gameLoop timestamp reads s) = frameFields s ∧
  lastTime (gameLoop timestamp reads s) = timestamp ∧
  (gameOver s = true → gameOver (gameLoop timestamp reads s) = true) ∧
  (0 <= playerAnimFrame s <= 3 →
   0 <= playerAnimFrame (gameLoop timestamp reads s) <= 3) ∧
  Grid_wf (grid (gameLoop timestamp reads s)) ∧
  getWidth (grid (gameLoop timestamp reads s)) = getWidth (grid s) ∧
  getHeight (grid (gameLoop timestamp reads s)) = getHeight (grid s) ∧
  (∀ a b, getTile (grid (gameLoop timestamp reads s)) a b = WALL
          ↔ getTile (grid s) a b = WALL) ∧
  (∀ a b, static (getTile (grid (gameLoop timestamp reads s)) a b) →
          getTile (grid s) a b = getTile (grid (gameLoop timestamp reads s)) a b) ∧
  (∀ u, u ≠ EMPTY →
        (countTile u (grid (gameLoop timestamp reads s)) <= countTile u (grid s))%nat) ∧
  (gameOver (gameLoop timestamp reads s) = false →
   ∀ u, countTile u (grid (gameLoop timestamp reads s)) = countTile u (grid s)).
Proof. apply gameLoop_keeps. Qed.

Lemma gameLoop_frame_witness :
  Grid_wf (grid fallingBoulder) ∧
  frameFields (gameLoop 1000 0 fallingBoulder) = frameFields fallingBoulder ∧
  lastTime (gameLoop 1000 0 fallingBoulder) = 1000%Q.
Proof.
  destruct (gameLoop_frame 1000 0 fallingBoulder (cave_wf _)) as (H1 & H2 & _).
  split; [exact (cave_wf _)|]. split; [exact H1|exact H2].
Defined.


Lemma explosionFields_parts s s' :
  explosionFields s' = explosionFields s →
  explosionX s' = explosionX s ∧ explosionY s' = explosionY s ∧
  explosionRadius s' = explosionRadius s ∧ explosionFrame s' = explosionFrame s ∧
  lastExplosionUpdate s' = lastExplosionUpdate s.
Proof. unfold explosionFields. intros [= -> -> -> -> ->]. done. Qed.

(** X19. The frame in which the timer runs out. When a running game with
    at most one second left gets a frame at least 1000 ms after the last
    tick, the frame ends with the game over, the timer at 0 and the warning
    off. [startExplosion] is not called on this path: the explosion centre
    stays where it was (the cell of an earlier crush, or (0, 0) if there
    was none), the player is not moved, and the explosion of this very
    frame advances from the stored frame counter when it is due; if the
    stored radius is already the maximum, the explosion is left alone. *)
Theorem gameLoop_timeout (timestamp : Q) (reads : nat) (s : Game) :
  gameOver s = false → gameWon s = false → timeRemaining s <= 1 →
  (1000 <= timestamp - lastTimeUpdate s)%Q →
  gameOver (gameLoop timestamp reads s) = true ∧
  timeRemaining (gameLoop timestamp reads s) = 0 ∧
  isTimeWarning (gameLoop timestamp reads s) = false ∧
  explosionX (gameLoop timestamp reads s) = explosionX s ∧
  explosionY (gameLoop timestamp reads s) = explosionY s ∧
  playerX (gameLoop timestamp reads s) = playerX s ∧
  playerY (gameLoop timestamp reads s) = playerY s ∧
  (explosionRadius s < explosionMaxRadius →
   (EXPLOSION_DURATION <= timestamp - lastExplosionUpdate s)%Q →
   explosionFrame (gameLoop timestamp reads s) = explosionFrame s + 1 ∧
   explosionRadius (gameLoop timestamp reads s) = (explosionFrame s + 1) / 2) ∧
  (explosionMaxRadius <= explosionRadius s →
   explosionFields (gameLoop timestamp reads s) = explosionFields s).
Proof.
  intros Hover Hwon Hrem Hdue. unfold gameLoop, render. cbv zeta.
  set (s1 := set_lastTime timestamp s).
  set (s2 := updateTime timestamp s1).
  set (s3 := updateExplosion timestamp s2).
  set (s4 := updateAnimation timestamp s3).
  set (s5 := physicsIfDue timestamp s4).
  assert (Ht2 : timeRemaining s2 = 0 ∧ gameOver s2 = true ∧ isTimeWarning s2 = false).
  { destruct (updateTime_running timestamp s1 Hover Hwon) as [[Hnd _]|(_ & _ & _ & Hcase)].
    - apply Qleb_false in Hnd. change (lastTimeUpdate s1) with (lastTimeUpdate s) in Hnd.
      lra.
    - change (timeRemaining s1) with (timeRemaining s) in Hcase.
      destruct (timeRemaining s - 1 <=? 0) eqn:E; [|lia].
      destruct Hcase as (H1 & H2 & H3 & _). done. }
  destruct Ht2 as (Hrem2 & Hover2 & Hwarn2).
  assert (Hf2 : explosionFields s2 = explosionFields s)
    by exact (explosionFields_updateTime timestamp s1).
  destruct (explosionFields_parts _ _ Hf2) as (Hx2 & Hy2 & Hr2 & Hfr2 & Hl2).
  assert (Hq3 : quietFields s3 = quietFields s2) by apply quietFields_updateExplosion.
  assert (Hover3 : gameOver s3 = true)
    by (unfold s3; by rewrite gameOver_updateExplosion).
  assert (Hover4 : gameOver s4 = true)
    by (unfold s4; by rewrite gameOver_updateAnimation).
  assert (Hf4 : explosionFields s4 = explosionFields s3)
    by apply explosionFields_updateAnimation.
  assert (Hf5 : explosionFields s5 = explosionFields s4)
    by (by apply explosionFields_physicsIfDue).
  assert (Hq5 : quietFields s5 = quietFields s4) by apply quietFields_physicsIfDue.
  assert (Hf53 : explosionFields s5 = explosionFields s3) by congruence.
  destruct (explosionFields_parts _ _ Hf53) as (Hx5 & Hy5 & Hr5 & Hfr5 & Hl5).
  assert (Hxy3 : explosionX s3 = explosionX s2 ∧ explosionY s3 = explosionY s2).
  { destruct (decide (explosionRadius s2 < explosionMaxRadius)) as [Hlt|Hge].
    - destruct (Qleb EXPLOSION_DURATION (timestamp - lastExplosionUpdate s2)) eqn:Hd.
      + apply Qleb_true in Hd.
        destruct (updateExplosion_due timestamp s2 Hover2 Hlt Hd)
          as (_ & _ & _ & H4 & H5 & _). done.
      + apply Qleb_false in Hd. unfold s3.
        rewrite (updateExplosion_idle timestamp s2) by (right; by right). done.
    - unfold s3.
      rewrite (updateExplosion_idle timestamp s2) by (right; left; lia). done. }
  destruct Hxy3 as [Hx3 Hy3].
  cbn [gameOver timeRemaining isTimeWarning explosionX explosionY playerX playerY
       explosionFrame explosionRadius set_clockCalls].
  change (explosionFields (set_clockCalls (clockCalls s5 + reads) s5))
    with (explosionFields s5).
  split; [by apply gameOver_physicsIfDue|].
  split.
  { transitivity (timeRemaining s4); [exact (f_equal (λ q, q.1.1.2) Hq5)|].
    transitivity (timeRemaining s3).
    { unfold s4, updateAnimation. repeat case_match; done. }
    transitivity (timeRemaining s2); [exact (f_equal (λ q, q.1.1.2) Hq3)|done]. }
  split.
  { transitivity (isTimeWarning s4); [exact (f_equal (λ q, q.1.2) Hq5)|].
    transitivity (isTimeWarning s3).
    { unfold s4, updateAnimation. repeat case_match; done. }
    transitivity (isTimeWarning s2); [exact (f_equal (λ q, q.1.2) Hq3)|done]. }
  split; [congruence|]. split; [congruence|].
  assert (Hff : frameFields s5 = frameFields s).
  { rewrite (quietFields_frameFields _ _ Hq5).
    unfold s4. rewrite frameFields_updateAnimation.
    rewrite (quietFields_frameFields _ _ Hq3).
    exact (frameFields_updateTime timestamp s1). }
  split; [exact (f_equal (λ q, q.1.1.1.1.1.1.1.1.1.1.1.1.1.1.1.1.1) Hff)|].
  split; [exact (f_equal (λ q, q.1.1.1.1.1.1.1.1.1.1.1.1.1.1.1.1.2) Hff)|].
  split.
  - intros Hlt Hd. rewrite Hfr5, Hr5.
    rewrite <- Hr2 in Hlt. rewrite <- Hl2 in Hd.
    destruct (updateExplosion_due timestamp s2 Hover2 Hlt Hd) as (H1 & H2 & _).
    fold s3 in H1, H2. rewrite H1, H2, Hfr2. done.
  - intros Hge. rewrite <- Hf2, Hf53. unfold s3.
    rewrite (updateExplosion_idle timestamp s2) by (right; left; lia). done.
Qed.

Lemma gameLoop_timeout_witness :
  gameOver lastSecond = false ∧
  gameOver (gameLoop 1000 0 lastSecond) = true ∧
  explosionX (gameLoop 1000 0 lastSecond) = explosionX lastSecond.
Proof.
  destruct (gameLoop_timeout 1000 0 lastSecond)
    as (H1 & _ & _ & H2 & _).
  - reflexivity.
  - reflexivity.
  - vm_compute. discriminate.
  - vm_compute. discriminate.
  - split; [reflexivity|]. split; [exact H1|exact H2].
Defined.

(** ** Keys outside the switch *)

(** X20. A key that is no arrow, M or R still counts as a move. In a
    running game whose player stands on an Empty cell, such a key press
    returns, leaves the player, the grid cells, the score and the facing
    as they are, but advances the walking animation by one frame and sets
    the time of the last move to the clock reading, exactly as a real step
    does; it never pushes a boulder. *)
Theorem handleInput_other_key (fuel : nat) (s : Game) :
  Grid_wf (grid s) →
  gameOver s = false → gameWon s = false →
  getTile (grid s) (playerX s) (playerY s) = EMPTY →
  ∃ s', handleInput fuel OtherKey s = Some s' ∧
        playerX s' = playerX s ∧ playerY s' = playerY s ∧
        (∀ a b, getTile (grid s') a b = getTile (grid s) a b) ∧
        score s' = score s ∧ diamondsCollected s' = diamondsCollected s ∧
        playerFacingLeft s' = playerFacingLeft s ∧
        soundCalls s' = soundCalls s ∧
        playerAnimFrame s' = (playerAnimFrame s + 1) mod 4 ∧
        lastPlayerMoveTime s' = clockStream s (clockCalls s) ∧
        clockCalls s' = S (clockCalls s).
Proof.
  intros Hwf Hover Hwon Htile.
  exists (stepTo OtherKey (playerX s) (playerY s) s). split.
  { cbn [handleInput applyKey]. rewrite Hover, Hwon. cbn [orb].
    unfold canMoveTo. rewrite Htile. done. }
  destruct (stepTo_position OtherKey (playerX s) (playerY s) s) as [Hx Hy].
  destruct (stepTo_grid OtherKey (playerX s) (playerY s) s Hwf)
    as (Hg & Hsnd & _ & Hsc & Hdc).
  do 2 (split; [done|]). split.
  { intros a b. rewrite Hg, getTile_setTile by done.
    case_decide as Hc; [|done]. by destruct Hc as [[= -> ->] _]. }
  do 2 (split; [done|]).
  unfold stepTo, updateCameraPosition, performance_now.
  cbn -[clampQ inject_Z Z.modulo]. done.
Qed.

Lemma handleInput_other_key_witness :
  getTile (grid (boulderOverhead lateClock)) 3 4 = EMPTY ∧
  ∃ s', handleInput 1 OtherKey (boulderOverhead lateClock) = Some s' ∧
        lastPlayerMoveTime s' = 1000%Q.
Proof.
  destruct (handleInput_other_key 1 (boulderOverhead lateClock))
    as (s' & H1 & _ & _ & _ & _ & _ & _ & _ & _ & H2 & _).
  - exact (cave_wf _).
  - reflexivity.
  - reflexivity.
  - vm_compute. reflexivity.
  - split; [vm_compute; reflexivity|]. exists s'. split; [exact H1|exact H2].
Defined.


(** ** The invariant of a session *)

Lemma sessionInv_ext w h s s' :
  invFields s' = invFields s → sessionInv w h s → sessionInv w h s'.
Proof.
  unfold invFields. intros [= Hg Hx Hy Hr Hs Hd Hf Hrad Ht Ha].
  unfold sessionInv, levelInv, randomInRange, playerCellEmpty, scoreInv,
    explosionInv.
  by rewrite Hg, Hx, Hy, Hr, Hs, Hd, Hf, Hrad, Ht, Ha.
Qed.

Lemma levelInv_ext w h s s' :
  invFields s' = invFields s → levelInv w h s → levelInv w h s'.
Proof.
  unfold invFields. intros [= Hg Hx Hy Hr Hs Hd Hf Hrad Ht Ha].
  unfold levelInv, randomInRange, scoreInv, explosionInv.
  by rewrite Hg, Hr, Hs, Hd, Hf, Hrad, Ht, Ha.
Qed.

Lemma ringWalled_not_WALL g a b :
  ringWalled g → getTile g a b ≠ WALL →
  (1 <= a <= width g - 2 ∧ 1 <= b <= height g - 2) ∧ ¬ onRing g a b.
Proof.
  intros Hring Hnw. pose proof (getTile_not_WALL_inside _ _ _ Hnw) as Hin.
  assert (Hnr : ¬ onRing g a b) by (intros Hr; by apply Hnw, Hring).
  split; [|done]. unfold onRing in Hnr. lia.
Qed.

(** Writing a tile that is not Wall into a cell that is not Wall keeps the
    ring. *)
Lemma ringWalled_setTile g x y t :
  Grid_wf g → ringWalled g → getTile g x y ≠ WALL →
  ringWalled (setTile g x y t).
Proof.
  intros Hwf Hring Hnw a b Hon.
  unfold onRing in Hon. rewrite setTile_width, setTile_height in Hon.
  rewrite getTile_setTile_ne; [by apply Hring|].
  intros [= -> ->]. by apply Hnw, Hring.
Qed.



(** [handleInput] for a key that is neither M nor R. *)
Lemma handleInput_move fuel key s :
  key ≠ KeyM → key ≠ KeyR →
  handleInput fuel key s =
    if gameOver s || gameWon s then Some s
    else
      if canMoveTo (applyKey key s).1.1 (applyKey key s).1.2 (applyKey key s).2
      then
        if tile_eqb (getTile (grid (applyKey key s).2)
                       (applyKey key s).1.1 (applyKey key s).1.2) DIAMOND
        then
          match collectDiamond fuel (applyKey key s).2 with
          | None => None
          | Some s2 =>
              Some (stepTo key (applyKey key s).1.1 (applyKey key s).1.2
                      (soundPlay diamond s2))
          end
        else if tile_eqb (getTile (grid (applyKey key s).2)
                            (applyKey key s).1.1 (applyKey key s).1.2) DIRT
        then Some (stepTo key (applyKey key s).1.1 (applyKey key s).1.2
                     (soundPlay walk (applyKey key s).2))
        else if tile_eqb (getTile (grid (applyKey key s).2)
                            (applyKey key s).1.1 (applyKey key s).1.2) EXIT
                && exitRevealed (applyKey key s).2
        then Some (soundPlay victory
                     (soundStop timeWarning (set_gameWon true (applyKey key s).2)))
        else Some (stepTo key (applyKey key s).1.1 (applyKey key s).1.2
                     (applyKey key s).2)
      else Some (applyKey key s).2.
Proof. intros HM HR. destruct key; done. Qed.

Lemma invFields_applyKey key s : invFields (applyKey key s).2 = invFields s.
Proof. destruct key; done. Qed.

Lemma stepTo_invFields key x y s :
  Grid_wf (grid s) →
  invFields (stepTo key x y s) =
    (setTile (grid s) x y EMPTY, x, y, randomStream s, score s,
     diamondsCollected s, explosionFrame s, explosionRadius s, timeRemaining s,
     (playerAnimFrame s + 1) mod 4).
Proof.
  intros Hwf. destruct (stepTo_grid key x y s Hwf) as (Hg & _).
  destruct (stepTo_position key x y s) as [Hx Hy].
  unfold invFields. rewrite Hg, Hx, Hy.
  unfold stepTo, performance_now, tryPushBoulder.
  destruct key; cbn -[clampQ inject_Z Z.modulo setTile]; repeat case_match; done.
Qed.

(** What collecting a diamond does to the fields the invariant reads. *)
Lemma collectDiamond_invFields fuel s s2 :
  collectDiamond fuel s = Some s2 →
  ∃ g, invFields s2 =
         (g, playerX s, playerY s, randomStream s,
          score s + POINTS_PER_DIAMOND, diamondsCollected s + 1,
          explosionFrame s, explosionRadius s, timeRemaining s,
          playerAnimFrame s) ∧
       (g = grid s ∨
        ∃ k, g = setTile (grid s) (exitCandidate s k).1 (exitCandidate s k).2 EXIT).
Proof.
  unfold collectDiamond. cbv zeta.
  set (s1 := set_diamondsCollected _ _).
  destruct ((DIAMONDS_REQUIRED <=? diamondsCollected s1) && negb (exitRevealed s1)).
  - unfold revealExit.
    destruct (pickExit fuel s1) as [s3|] eqn:Hpick; [|done].
    destruct (pickExit_candidate _ _ _ Hpick) as (Hf & k & Hk).
    intros [= <-].
    exists (setTile (grid s) (exitX s3) (exitY s3) EXIT). split.
    + unfold invFields in *. injection Hf as Hg Hx Hy Hr Hs Hd Hfr Hrad Ht Ha.
      unfold performance_now, soundPlay, setTileG.
      cbn [grid playerX playerY randomStream score diamondsCollected
           explosionFrame explosionRadius timeRemaining playerAnimFrame
           set_soundCalls set_grid set_exitAppearTime set_clockCalls
           set_exitRevealed exitX exitY].
      rewrite Hg, Hx, Hy, Hr, Hs, Hd, Hfr, Hrad, Ht, Ha. done.
    + right. exists k.
      destruct (pair_eq_parts _ _ _ Hk) as [-> ->]. done.
  - intros [= <-]. exists (grid s). split; [done|by left].
Qed.

(** A step onto a cell that is not Wall keeps the invariant. *)
Lemma sessionInv_stepTo w h key x y s :
  levelInv w h s → getTile (grid s) x y ≠ WALL →
  sessionInv w h (stepTo key x y s).
Proof.
  intros (Hwf & Hw & Hh & Hring & Hr & Hsc & Hdc & Hex & Ht & Ha) Hnw.
  pose proof (stepTo_invFields key x y s Hwf) as Hf.
  unfold invFields in Hf. injection Hf as Hg Hx Hy Hr' Hs' Hd' Hfr' Hrad' Ht' Ha'.
  pose proof (getTile_not_WALL_inside _ _ _ Hnw) as [Hinx Hiny].
  unfold sessionInv, levelInv, randomInRange, playerCellEmpty, scoreInv,
    explosionInv in *.
  rewrite Hg, Hx, Hy, Hr', Hs', Hd', Hfr', Hrad', Ht', Ha'.
  rewrite setTile_width, setTile_height.
  split.
  - split; [by apply setTile_wf|]. do 2 (split; [done|]).
    split; [by apply ringWalled_setTile|]. do 5 (split; [done|]).
    pose proof (Z.mod_pos_bound (playerAnimFrame s + 1) 4). lia.
  - by apply getTile_setTile_eq.
Qed.

(** Collecting a diamond keeps the level part of the invariant, and the
    cells that are not Wall. *)
Lemma levelInv_collectDiamond w h fuel s s2 :
  5 <= w → 5 <= h →
  levelInv w h s → collectDiamond fuel s = Some s2 →
  levelInv w h s2 ∧
  ∀ x y, getTile (grid s) x y ≠ WALL → getTile (grid s2) x y ≠ WALL.
Proof.
  intros Hw5 Hh5 (Hwf & Hw & Hh & Hring & Hr & Hsc & Hdc & Hex & Ht & Ha) Hcol.
  destruct (collectDiamond_invFields _ _ _ Hcol) as (g & Hf & Hg).
  unfold invFields in Hf. injection Hf as Hg' Hx Hy Hr' Hs' Hd' Hfr' Hrad' Ht' Ha'.
  assert (Hgrid : Grid_wf g ∧ width g = w ∧ height g = h ∧ ringWalled g ∧
                  ∀ x y, getTile (grid s) x y ≠ WALL → getTile g x y ≠ WALL).
  { destruct Hg as [->|(k & ->)]; [done|].
    destruct (exitCandidate_range s k Hr) as [Hcx Hcy]; [lia|lia|].
    generalize dependent ((exitCandidate s k).1).
    generalize dependent ((exitCandidate s k).2). intros ey Hcy ex Hcx.
    rewrite setTile_width, setTile_height.
    split; [by apply setTile_wf|]. do 2 (split; [done|]). split.
    - intros a b Hon. unfold onRing in Hon.
      rewrite setTile_width, setTile_height in Hon.
      rewrite getTile_setTile_ne; [by apply Hring|].
      intros [= -> ->]. lia.
    - intros x y Hnw. rewrite getTile_setTile by done.
      case_decide; done. }
  destruct Hgrid as (Hwfg & Hwg & Hhg & Hringg & Hkeep).
  unfold levelInv, randomInRange, scoreInv, explosionInv in *.
  rewrite Hg', Hr', Hs', Hd', Hfr', Hrad', Ht', Ha'.
  split; [|done]. do 5 (split; [done|]).
  split; [unfold POINTS_PER_DIAMOND in *; lia|]. split; [lia|done].
Qed.

Lemma canMoveTo_not_WALL x y s :
  canMoveTo x y s = true → getTile (grid s) x y ≠ WALL.
Proof.
  unfold canMoveTo, tile_eqb. cbv zeta. intros Hcan Hw. rewrite Hw in Hcan.
  done.
Qed.

(** A key press other than a reset keeps the invariant. *)
Lemma sessionInv_handleInput w h fuel key s s' :
  5 <= w → 5 <= h → key ≠ KeyR →
  sessionInv w h s → handleInput fuel key s = Some s' → sessionInv w h s'.
Proof.
  intros Hw5 Hh5 HR Hinv Hin.
  destruct (decide (key = KeyM)) as [->|HM].
  { injection Hin as <-. by apply (sessionInv_ext w h s). }
  rewrite handleInput_move in Hin by done.
  pose proof (invFields_applyKey key s) as Hk.
  pose proof (sessionInv_ext w h s _ Hk Hinv) as [Hlev2 Hcell2].
  assert (Hgk : grid (applyKey key s).2 = grid s)
    by exact (f_equal (λ q, q.1.1.1.1.1.1.1.1.1) Hk).
  destruct (gameOver s || gameWon s); [by injection Hin as <-|].
  destruct (canMoveTo _ _ _) eqn:Hcan; [|by injection Hin as <-].
  apply canMoveTo_not_WALL in Hcan.
  destruct (tile_eqb _ DIAMOND).
  { destruct (collectDiamond fuel _) as [s2|] eqn:Hcol; [|done].
    injection Hin as <-.
    destruct (levelInv_collectDiamond w h _ _ _ Hw5 Hh5 Hlev2 Hcol) as [Hlev Hkeep].
    apply sessionInv_stepTo.
    - by apply (levelInv_ext w h s2).
    - by apply Hkeep. }
  destruct (tile_eqb _ DIRT).
  { injection Hin as <-. apply sessionInv_stepTo; [|done].
    by apply (levelInv_ext w h (applyKey key s).2). }
  destruct (tile_eqb _ EXIT && _).
  { injection Hin as <-. by apply (sessionInv_ext w h (applyKey key s).2). }
  injection Hin as <-. by apply sessionInv_stepTo.
Qed.


(** The generator establishes the grid part of the invariant. *)
Lemma initializeLevel_establishes w h fuel s s' :
  5 <= w → 5 <= h →
  Grid_wf (grid s) → width (grid s) = w → height (grid s) = h →
  randomInRange s → initializeLevel fuel s = Some s' →
  levelFields s' = levelFields s ∧
  Grid_wf (grid s') ∧ width (grid s') = w ∧ height (grid s') = h ∧
  ringWalled (grid s') ∧ randomInRange s' ∧ playerCellEmpty s'.
Proof.
  intros Hw5 Hh5 Hwf Hw Hh Hr Hinit.
  destruct (initializeLevel_stages _ _ _ Hwf Hinit)
    as (Hf & Hwf' & Hw' & Hh' & _ & _ & _ & _ & _ & Hbox & Hlay).
  destruct (Hlay Hr ltac:(lia) ltac:(lia)) as [[Hpx Hpy] Hcells].
  split; [done|]. split; [done|]. split; [congruence|]. split; [congruence|].
  split; [|split].
  - intros a b Hon. apply (Hcells a b). unfold onRing in *. by rewrite <- Hw', <- Hh'.
  - by apply (levelFields_randomInRange s).
  - apply Hbox; [unfold nearCell; lia|lia].
Qed.

Lemma sessionInv_resetGame w h fuel s s' :
  5 <= w → 5 <= h →
  sessionInv w h s → resetGame fuel s = Some s' → sessionInv w h s'.
Proof.
  intros Hw5 Hh5 [(Hwf & Hw & Hh & Hring & Hr & Hsc & Hdc & Hex & Ht & Ha) _] Hreset.
  unfold resetGame in Hreset. cbv zeta in Hreset.
  set (s0 := set_exitAppearTime _ _) in Hreset.
  assert (Hg0 : grid s0 = setTile (grid s) (playerX s) (playerY s) EMPTY)
    by reflexivity.
  destruct (initializeLevel_establishes w h fuel s0 s' Hw5 Hh5)
    as (Hf & Hwf' & Hw' & Hh' & Hring' & Hr' & Hcell'); try done.
  - rewrite Hg0. by apply setTile_wf.
  - by rewrite Hg0, setTile_width.
  - by rewrite Hg0, setTile_height.
  - unfold levelFields in Hf. injection Hf. intros.
    split; [|done]. do 5 (split; [done|]).
    unfold scoreInv, explosionInv, TIME_LIMIT in *.
    split; [lia|]. split; [lia|]. split; [|lia].
    congruence.
Qed.

Lemma sessionInv_newGame fuel random clock s :
  (∀ n, unitDouble (random n)) →
  newGame fuel random clock = Some s →
  sessionInv GRID_WIDTH GRID_HEIGHT s.
Proof.
  intros Hr Hnew. rewrite newGame_unfold in Hnew.
  destruct (initializeLevel_establishes GRID_WIDTH GRID_HEIGHT fuel
              (session (emptyGrid GRID_WIDTH GRID_HEIGHT) 1 1 random clock) s)
    as (Hf & Hwf' & Hw' & Hh' & Hring' & Hr' & Hcell'); try done.
  - apply emptyGrid_wf.
  - unfold levelFields in Hf. injection Hf. intros.
    split; [|done]. do 5 (split; [done|]).
    unfold scoreInv, explosionInv, TIME_LIMIT, explosionMaxRadius in *.
    split; [lia|]. split; [lia|]. split; [|lia].
    split; [lia|]. replace (explosionFrame s) with 0 by done.
    replace (explosionRadius s) with 0 by done. done.
Qed.

(** *** A frame keeps the invariant *)

Lemma scan_spares_player cs s :
  Grid_wf (grid s) → playerCellEmpty s → playerCellEmpty (scan cs s).
Proof.
  unfold scan, playerCellEmpty. revert s.
  induction cs as [|c cs IH]; intros s Hwf Hcell; [done|].
  cbn [foldl]. apply IH; [by apply physicsCell_wf|].
  rewrite playerX_physicsCell, playerY_physicsCell.
  by apply physicsCell_spares_player.
Qed.

Lemma playerCellEmpty_physicsIfDue t s :
  Grid_wf (grid s) → playerCellEmpty s → playerCellEmpty (physicsIfDue t s).
Proof.
  intros Hwf Hcell.
  pose proof (quietFields_frameFields _ _ (quietFields_physicsIfDue t s)) as Hff.
  unfold playerCellEmpty.
  rewrite (f_equal (λ q, q.1.1.1.1.1.1.1.1.1.1.1.1.1.1.1.1.1) Hff
           : playerX (physicsIfDue t s) = playerX s).
  rewrite (f_equal (λ q, q.1.1.1.1.1.1.1.1.1.1.1.1.1.1.1.1.2) Hff
           : playerY (physicsIfDue t s) = playerY s).
  unfold physicsIfDue. case_match; [|done].
  cbn [grid set_lastPhysicsUpdate]. rewrite grid_updatePhysics.
  pose proof (scan_spares_player (scanOrder (grid s)) s Hwf Hcell) as Hsp.
  unfold playerCellEmpty in Hsp. by rewrite playerX_scan, playerY_scan in Hsp.
Qed.

Lemma playerCellEmpty_updateExplosion t s :
  Grid_wf (grid s) → playerCellEmpty s → playerCellEmpty (updateExplosion t s).
Proof.
  intros Hwf Hcell.
  pose proof (quietFields_frameFields _ _ (quietFields_updateExplosion t s)) as Hff.
  unfold playerCellEmpty in *.
  rewrite (f_equal (λ q, q.1.1.1.1.1.1.1.1.1.1.1.1.1.1.1.1.1) Hff
           : playerX (updateExplosion t s) = playerX s).
  rewrite (f_equal (λ q, q.1.1.1.1.1.1.1.1.1.1.1.1.1.1.1.1.2) Hff
           : playerY (updateExplosion t s) = playerY s).
  destruct (updateExplosion_wrote t s Hwf) as (_ & _ & _ & Hc & _).
  destruct (Hc (playerX s) (playerY s)) as [->|[_ ->]]; done.
Qed.

Lemma timeRemaining_updateTime t s :
  0 <= timeRemaining s <= TIME_LIMIT →
  0 <= timeRemaining (updateTime t s) <= TIME_LIMIT.
Proof.
  intros Ht. destruct (gameOver s) eqn:Hover.
  { unfold updateTime. rewrite Hover. cbn [orb]. by case_match. }
  destruct (gameWon s) eqn:Hwon.
  { unfold updateTime. rewrite Hover, Hwon. cbn [orb]. by case_match. }
  destruct (updateTime_running t s Hover Hwon) as [[_ ->]|(_ & _ & _ & Hcase)];
    [done|].
  destruct (timeRemaining s - 1 <=? 0) eqn:E.
  - destruct Hcase as (-> & _). unfold TIME_LIMIT. lia.
  - destruct Hcase as (-> & _). apply Z.leb_gt in E. lia.
Qed.

Lemma explosionInv_ext s s' :
  explosionFields s' = explosionFields s → explosionInv s → explosionInv s'.
Proof.
  intros Hf. destruct (explosionFields_parts _ _ Hf) as (_ & _ & Hr & Hfr & _).
  unfold explosionInv. by rewrite Hr, Hfr.
Qed.

Lemma explosionInv_physicsIfDue t s :
  explosionInv s → explosionInv (physicsIfDue t s).
Proof.
  intros Hinv. unfold physicsIfDue. case_match; [|done].
  destruct (explosionStep_updatePhysics s) as [[_ Hf]|(_ & _ & _ & _ & Hr & Hfr)].
  - by apply (explosionInv_ext s).
  - unfold explosionInv, explosionMaxRadius.
    cbn [explosionFrame explosionRadius set_lastPhysicsUpdate].
    rewrite Hr, Hfr. done.
Qed.

Lemma sessionInv_gameLoop w h timestamp reads s :
  sessionInv w h s → sessionInv w h (gameLoop timestamp reads s).
Proof.
  intros [(Hwf & Hw & Hh & Hring & Hr & Hsc & Hdc & Hex & Ht & Ha) Hcell].
  destruct (gameLoop_keeps timestamp reads s Hwf)
    as (Hff & _ & _ & Hanim & Hwf' & Hw' & Hh' & Hwall & _).
  unfold getWidth, getHeight in Hw', Hh'.
  assert (Hr' : randomStream (gameLoop timestamp reads s) = randomStream s)
    by exact (f_equal (λ q, q.1.1.2) Hff).
  assert (Hs' : score (gameLoop timestamp reads s) = score s)
    by exact (f_equal (λ q, q.1.1.1.1.1.1.1.1.1.1.1.1.1.2) Hff).
  assert (Hd' : diamondsCollected (gameLoop timestamp reads s) = diamondsCollected s)
    by exact (f_equal (λ q, q.1.1.1.1.1.1.1.1.1.1.1.1.2) Hff).
  unfold gameLoop, render in *. cbv zeta in *.
  set (s1 := set_lastTime timestamp s) in *.
  set (s2 := updateTime timestamp s1) in *.
  set (s3 := updateExplosion timestamp s2) in *.
  set (s4 := updateAnimation timestamp s3) in *.
  set (s5 := physicsIfDue timestamp s4) in *.
  assert (Hg2 : grid s2 = grid s) by exact (grid_updateTime timestamp s1).
  assert (Hff2 : frameFields s2 = frameFields s)
    by exact (frameFields_updateTime timestamp s1).
  assert (Hcell2 : playerCellEmpty s2).
  { unfold playerCellEmpty. rewrite Hg2.
    rewrite (f_equal (λ q, q.1.1.1.1.1.1.1.1.1.1.1.1.1.1.1.1.1) Hff2
             : playerX s2 = playerX s).
    rewrite (f_equal (λ q, q.1.1.1.1.1.1.1.1.1.1.1.1.1.1.1.1.2) Hff2
             : playerY s2 = playerY s). done. }
  assert (Hwf2 : Grid_wf (grid s2)) by (by rewrite Hg2).
  assert (Hcell3 : playerCellEmpty s3) by (by apply playerCellEmpty_updateExplosion).
  assert (Hwf3 : Grid_wf (grid s3)) by (by destruct (updateExplosion_wrote timestamp s2 Hwf2)).
  assert (Hg4 : grid s4 = grid s3) by apply grid_updateAnimation.
  assert (Hff4 : frameFields s4 = frameFields s3) by apply frameFields_updateAnimation.
  assert (Hcell4 : playerCellEmpty s4).
  { unfold playerCellEmpty. rewrite Hg4.
    rewrite (f_equal (λ q, q.1.1.1.1.1.1.1.1.1.1.1.1.1.1.1.1.1) Hff4
             : playerX s4 = playerX s3).
    rewrite (f_equal (λ q, q.1.1.1.1.1.1.1.1.1.1.1.1.1.1.1.1.2) Hff4
             : playerY s4 = playerY s3). done. }
  assert (Hwf4 : Grid_wf (grid s4)) by (by rewrite Hg4).
  assert (Hcell5 : playerCellEmpty s5) by (by apply playerCellEmpty_physicsIfDue).
  assert (Hex5 : explosionInv s5).
  { apply explosionInv_physicsIfDue.
    apply (explosionInv_ext s3); [apply explosionFields_updateAnimation|].
    apply explosionInv_updateExplosion.
    apply (explosionInv_ext s1); [apply explosionFields_updateTime|done]. }
  assert (Ht5 : 0 <= timeRemaining s5 <= TIME_LIMIT).
  { rewrite (f_equal (λ q, q.1.1.2) (quietFields_physicsIfDue timestamp s4)
             : timeRemaining s5 = timeRemaining s4).
    replace (timeRemaining s4) with (timeRemaining s3)
      by (unfold s4, updateAnimation; repeat case_match; done).
    rewrite (f_equal (λ q, q.1.1.2) (quietFields_updateExplosion timestamp s2)
             : timeRemaining s3 = timeRemaining s2).
    by apply timeRemaining_updateTime. }
  split; [|exact Hcell5].
  split; [done|]. split; [congruence|]. split; [congruence|]. split.
  { intros a b Hon. apply Hwall, Hring. unfold onRing in *.
    by rewrite <- Hw', <- Hh'. }
  split; [unfold randomInRange in *; by rewrite Hr'|].
  split; [unfold scoreInv in *; by rewrite Hs', Hd'|].
  split; [by rewrite Hd'|]. split; [exact Hex5|]. split; [exact Ht5|].
  by apply Hanim.
Qed.


(** *** Winning *)

Lemma stepTo_flags key x y s :
  gameWon (stepTo key x y s) = gameWon s ∧
  exitRevealed (stepTo key x y s) = exitRevealed s.
Proof.
  unfold stepTo, performance_now, tryPushBoulder.
  destruct key; cbn -[clampQ inject_Z Z.modulo]; repeat case_match; done.
Qed.

Lemma pickExit_flags fuel s s1 :
  pickExit fuel s = Some s1 →
  gameWon s1 = gameWon s ∧ exitRevealed s1 = exitRevealed s.
Proof.
  revert s. induction fuel as [|fuel IH]; intros s Hpick; [done|].
  cbn [pickExit] in Hpick. destruct (exitRejected (drawExit s)).
  - destruct (IH _ Hpick) as [-> ->]. done.
  - by injection Hpick as <-.
Qed.

Lemma collectDiamond_flags fuel s s2 :
  collectDiamond fuel s = Some s2 →
  gameWon s2 = gameWon s ∧
  (exitRevealed s2 = exitRevealed s
   ∨ DIAMONDS_REQUIRED <= diamondsCollected s + 1).
Proof.
  unfold collectDiamond. cbv zeta.
  set (s1 := set_diamondsCollected _ _).
  destruct ((DIAMONDS_REQUIRED <=? diamondsCollected s1) && negb (exitRevealed s1))
    eqn:Hdue.
  - unfold revealExit.
    destruct (pickExit fuel s1) as [s3|] eqn:Hpick; [|done].
    destruct (pickExit_flags _ _ _ Hpick) as [Hwon _].
    intros [= <-]. split; [exact Hwon|]. right.
    apply andb_true_iff in Hdue as [Hdue _]. apply Z.leb_le in Hdue. exact Hdue.
  - intros [= <-]. split; [done|by left].
Qed.

Lemma winInv_handleInput fuel key s s' :
  Grid_wf (grid s) → 0 <= diamondsCollected s →
  winInv s → handleInput fuel key s = Some s' → winInv s'.
Proof.
  intros Hwf Hdc [Hwon Hrev] Hin.
  destruct (decide (key = KeyM)) as [->|HM].
  { by injection Hin as <-. }
  destruct (decide (key = KeyR)) as [->|HR].
  { cbn [handleInput] in Hin. unfold resetGame in Hin. cbv zeta in Hin.
    set (s0 := set_exitAppearTime _ _) in Hin.
    assert (Hwf0 : Grid_wf (grid s0))
      by (change (grid s0) with (setTile (grid s) (playerX s) (playerY s) EMPTY);
          by apply setTile_wf).
    destruct (initializeLevel_stages fuel s0 s' Hwf0 Hin) as (Hf & _).
    unfold levelFields in Hf. injection Hf. intros. unfold winInv.
    split; intros; congruence. }
  rewrite handleInput_move in Hin by done.
  assert (Hk : gameWon (applyKey key s).2 = gameWon s ∧
               exitRevealed (applyKey key s).2 = exitRevealed s ∧
               diamondsCollected (applyKey key s).2 = diamondsCollected s)
    by (destruct key; done).
  destruct Hk as (Hkw & Hkr & Hkd).
  destruct (gameOver s || gameWon s); [by injection Hin as <-|].
  assert (Hstep : ∀ s1, gameWon s1 = gameWon s → exitRevealed s1 = exitRevealed s →
                        diamondsCollected s1 = diamondsCollected s →
                        winInv (stepTo key (applyKey key s).1.1 (applyKey key s).1.2 s1)).
  { intros s1 H1 H2 H3.
    destruct (stepTo_flags key (applyKey key s).1.1 (applyKey key s).1.2 s1) as [Hw' Hr'].
    destruct (stepTo_counters key (applyKey key s).1.1 (applyKey key s).1.2 s1) as [_ Hd'].
    unfold winInv. rewrite Hw', Hr', Hd', H1, H2, H3. done. }
  destruct (canMoveTo _ _ _).
  2:{ injection Hin as <-. unfold winInv. by rewrite Hkw, Hkr, Hkd. }
  destruct (tile_eqb _ DIAMOND).
  { destruct (collectDiamond fuel _) as [s2|] eqn:Hcol; [|done].
    injection Hin as <-.
    destruct (collectDiamond_flags _ _ _ Hcol) as [Hw2 Hr2].
    destruct (collectDiamond_grid _ _ _ Hcol) as (_ & Hd2 & _).
    destruct (stepTo_flags key (applyKey key s).1.1 (applyKey key s).1.2
                (soundPlay diamond s2)) as [Hw' Hr'].
    destruct (stepTo_counters key (applyKey key s).1.1 (applyKey key s).1.2
                (soundPlay diamond s2)) as [_ Hd'].
    unfold winInv. rewrite Hw', Hr', Hd'.
    change (gameWon (soundPlay diamond s2)) with (gameWon s2).
    change (exitRevealed (soundPlay diamond s2)) with (exitRevealed s2).
    change (diamondsCollected (soundPlay diamond s2)) with (diamondsCollected s2).
    rewrite Hw2, Hd2, Hkw, Hkd. rewrite Hkr, Hkd in Hr2.
    destruct Hr2 as [Hr2|Hr2].
    - rewrite Hr2. split; [done|]. intros H. specialize (Hrev H). lia.
    - split; [|done]. intros H. pose proof (Hwon H) as Hrs.
      destruct (exitRevealed s2) eqn:E; [done|].
      destruct (collectDiamond_grid _ _ _ Hcol) as (_ & _ & [[_ Heq]|(Hf & _)]);
        congruence. }
  destruct (tile_eqb _ DIRT).
  { injection Hin as <-. by apply Hstep. }
  destruct (tile_eqb _ EXIT && _) eqn:Hexit.
  { injection Hin as <-. apply andb_true_iff in Hexit as [_ Hexit].
    unfold winInv. cbn [gameWon exitRevealed diamondsCollected soundPlay soundStop
                        set_soundCalls set_gameWon].
    rewrite Hkr in *. rewrite Hkd. done. }
  injection Hin as <-. by apply Hstep.
Qed.

Lemma winInv_gameLoop timestamp reads s :
  Grid_wf (grid s) → winInv s → winInv (gameLoop timestamp reads s).
Proof.
  intros Hwf Hinv.
  destruct (gameLoop_keeps timestamp reads s Hwf) as (Hff & _).
  unfold winInv.
  rewrite (f_equal (λ q, q.1.1.1.1.1.1.1.1.1.1.1.2) Hff
           : gameWon (gameLoop timestamp reads s) = gameWon s).
  rewrite (f_equal (λ q, q.1.1.1.1.1.1.1.1.2) Hff
           : exitRevealed (gameLoop timestamp reads s) = exitRevealed s).
  rewrite (f_equal (λ q, q.1.1.1.1.1.1.1.1.1.1.1.1.2) Hff
           : diamondsCollected (gameLoop timestamp reads s) = diamondsCollected s).
  done.
Qed.

(** *** Sessions *)

Lemma play_invariant w h fuel events s s' :
  5 <= w → 5 <= h →
  sessionInv w h s ∧ winInv s → play fuel events s = Some s' →
  sessionInv w h s' ∧ winInv s'.
Proof.
  intros Hw Hh. revert s. induction events as [|e events IH]; intros s Hinv Hplay.
  { by injection Hplay as <-. }
  cbn [play] in Hplay.
  destruct (dispatch fuel e s) as [s1|] eqn:Hd; [|done].
  apply (IH s1); [|done]. clear IH Hplay.
  destruct Hinv as [Hinv Hwin].
  pose proof Hinv as [(Hwf & _ & _ & _ & _ & _ & Hdc & _) _].
  destruct e as [key|timestamp reads]; cbn [dispatch] in Hd.
  - split; [|by eapply winInv_handleInput].
    destruct (decide (key = KeyR)) as [->|HR].
    + by eapply sessionInv_resetGame.
    + by eapply sessionInv_handleInput.
  - injection Hd as <-.
    split; [by apply sessionInv_gameLoop|by apply winInv_gameLoop].
Qed.

(** X21. The invariant of a session. On a grid of at least 5 × 5 cells,
    a state with a well-formed grid, a Wall ring, random numbers in
    [0, 1), the player on an Empty cell, the score equal to the points per
    diamond times the diamond count, the explosion counters in step, the
    timer between 0 and the limit and the animation frame in 0..3 keeps
    all of that under every sequence of key presses (resets included) and
    frames, in any interleaving; so does the rule that a won game has its
    exit revealed and a revealed exit has the required diamonds behind
    it. *)
Theorem session_invariant (w h : Z) (fuel : nat) (events : list Event)
    (s s' : Game) :
  5 <= w → 5 <= h →
  sessionInv w h s → winInv s →
  play fuel events s = Some s' →
  sessionInv w h s' ∧ winInv s'.
Proof. intros Hw Hh Hinv Hwin. by apply play_invariant. Qed.

Lemma winInv_newGame fuel random clock s :
  newGame fuel random clock = Some s → winInv s.
Proof.
  rewrite newGame_unfold. intros Hnew.
  destruct (initializeLevel_stages fuel
              (session (emptyGrid GRID_WIDTH GRID_HEIGHT) 1 1 random clock) s
              (emptyGrid_wf GRID_WIDTH GRID_HEIGHT) Hnew) as (Hf & _).
  unfold levelFields in Hf. injection Hf. intros. unfold winInv.
  split; intros; congruence.
Qed.

Lemma session_invariant_witness :
  sessionInv GRID_WIDTH GRID_HEIGHT firstLevel ∧
  ∃ s', play 2 shortSession firstLevel = Some s' ∧
        sessionInv GRID_WIDTH GRID_HEIGHT s'.
Proof.
  pose proof (sessionInv_newGame 2 spawnCorner zeros firstLevel
                spawnCorner_range firstLevel_made) as Hinv.
  pose proof (winInv_newGame 2 spawnCorner zeros firstLevel firstLevel_made) as Hwin.
  split; [exact Hinv|].
  destruct (play 2 shortSession firstLevel) as [s'|] eqn:H;
    [|vm_compute in H; discriminate H].
  exists s'. split; [reflexivity|].
  refine (proj1 (session_invariant GRID_WIDTH GRID_HEIGHT 2 shortSession
                   firstLevel s' _ _ Hinv Hwin H)).
  - unfold GRID_WIDTH. lia.
  - unfold GRID_HEIGHT. lia.
Defined.

(** X22. Every state a game can reach. Start from the constructor with
    random numbers in [0, 1) and let the browser deliver any sequence of
    key presses and frames. In every state reached: the grid is 100 × 60
    and well formed with its outer ring all Wall; the player is strictly
    inside the ring, on an Empty cell; no Boulder or Diamond lies in the
    last column or the bottom row, the cells the physics scan never
    visits; the score is the diamond count times the points per diamond;
    the timer is between 0 and the limit; and the game is won only with
    the exit revealed and at least the required diamonds collected. *)
Theorem reachable_states (fuel : nat) (random clock : nat → Q)
    (events : list Event) (s0 s : Game) :
  (∀ n, unitDouble (random n)) →
  newGame fuel random clock = Some s0 →
  play fuel events s0 = Some s →
  Grid_wf (grid s) ∧
  getWidth (grid s) = GRID_WIDTH ∧ getHeight (grid s) = GRID_HEIGHT ∧
  (∀ a b, onRing (grid s) a b → getTile (grid s) a b = WALL) ∧
  (1 <= playerX s <= GRID_WIDTH - 2 ∧ 1 <= playerY s <= GRID_HEIGHT - 2) ∧
  getTile (grid s) (playerX s) (playerY s) = EMPTY ∧
  (∀ a b, getTile (grid s) a b = BOULDER ∨ getTile (grid s) a b = DIAMOND →
          1 <= a <= GRID_WIDTH - 2 ∧ 1 <= b <= GRID_HEIGHT - 2) ∧
  score s = POINTS_PER_DIAMOND * diamondsCollected s ∧
  0 <= timeRemaining s <= TIME_LIMIT ∧
  (gameWon s = true →
   exitRevealed s = true ∧ DIAMONDS_REQUIRED <= diamondsCollected s).
Proof.
  intros Hr Hnew Hplay.
  pose proof (sessionInv_newGame _ _ _ _ Hr Hnew) as Hinv0.
  pose proof (winInv_newGame _ _ _ _ Hnew) as Hwin0.
  destruct (play_invariant GRID_WIDTH GRID_HEIGHT fuel events s0 s)
    as [[(Hwf & Hw & Hh & Hring & _ & Hsc & _ & _ & Ht & _) Hcell] [Hwon Hrev]];
    [unfold GRID_WIDTH; lia|unfold GRID_HEIGHT; lia|done|done|].
  unfold getWidth, getHeight.
  do 4 (split; [done|]).
  assert (Hobj : ∀ a b, getTile (grid s) a b ≠ WALL →
                        1 <= a <= GRID_WIDTH - 2 ∧ 1 <= b <= GRID_HEIGHT - 2).
  { intros a b Hnw. destruct (ringWalled_not_WALL _ _ _ Hring Hnw) as [Hin _].
    by rewrite Hw, Hh in Hin. }
  split; [apply Hobj; by rewrite Hcell|]. split; [done|].
  split; [intros a b [H|H]; apply Hobj; by rewrite H|].
  do 2 (split; [done|]). intros H. auto.
Qed.

Lemma reachable_states_witness :
  ∃ s, play 2 shortSession firstLevel = Some s ∧
       1 <= playerX s <= GRID_WIDTH - 2.
Proof.
  destruct (play 2 shortSession firstLevel) as [s|] eqn:H;
    [|vm_compute in H; discriminate H].
  exists s. split; [reflexivity|].
  destruct (reachable_states 2 spawnCorner zeros shortSession firstLevel s
              spawnCorner_range firstLevel_made H)
    as (_ & _ & _ & _ & [Hx _] & _).
  exact Hx.
Defined.


(** ** The camera of a session *)

Lemma cameraSnapped_stepTo key x y s : cameraSnapped (stepTo key x y s).
Proof.
  unfold cameraSnapped, stepTo, updateCameraPosition, performance_now,
    tryPushBoulder.
  destruct key; cbn -[clampQ inject_Z Z.modulo Z.div]; repeat case_match; done.
Qed.

Lemma cameraSnapped_handleInput fuel key s s' :
  Grid_wf (grid s) → cameraSnapped s →
  handleInput fuel key s = Some s' → cameraSnapped s'.
Proof.
  intros Hwf Hcam Hin.
  destruct (decide (key = KeyM)) as [->|HM].
  { by injection Hin as <-. }
  destruct (decide (key = KeyR)) as [->|HR].
  { cbn [handleInput] in Hin. unfold resetGame in Hin. cbv zeta in Hin.
    set (s0 := set_exitAppearTime _ _) in Hin.
    assert (Hwf0 : Grid_wf (grid s0))
      by (change (grid s0) with (setTile (grid s) (playerX s) (playerY s) EMPTY);
          by apply setTile_wf).
    destruct (initializeLevel_stages fuel s0 s' Hwf0 Hin)
      as (_ & _ & _ & _ & _ & _ & Hx & Hy & _).
    split; [exact Hx|exact Hy]. }
  rewrite handleInput_move in Hin by done.
  assert (Hk : cameraSnapped (applyKey key s).2) by (destruct key; exact Hcam).
  destruct (gameOver s || gameWon s); [by injection Hin as <-|].
  destruct (canMoveTo _ _ _); [|by injection Hin as <-].
  destruct (tile_eqb _ DIAMOND).
  { destruct (collectDiamond fuel _) as [s2|]; [|done].
    injection Hin as <-. apply cameraSnapped_stepTo. }
  destruct (tile_eqb _ DIRT).
  { injection Hin as <-. apply cameraSnapped_stepTo. }
  destruct (tile_eqb _ EXIT && _).
  { injection Hin as <-. exact Hk. }
  injection Hin as <-. apply cameraSnapped_stepTo.
Qed.

Lemma cameraSnapped_gameLoop timestamp reads s :
  Grid_wf (grid s) → cameraSnapped s → cameraSnapped (gameLoop timestamp reads s).
Proof.
  intros Hwf [Hx Hy].
  destruct (gameLoop_keeps timestamp reads s Hwf) as (Hff & _).
  unfold frameFields in Hff. injection Hff. intros.
  unfold cameraSnapped. split; congruence.
Qed.

Lemma play_cameraSnapped w h fuel events s s' :
  5 <= w → 5 <= h →
  sessionInv w h s ∧ winInv s → cameraSnapped s →
  play fuel events s = Some s' → cameraSnapped s'.
Proof.
  intros Hw Hh. revert s.
  induction events as [|e events IH]; intros s Hinv Hcam Hplay.
  { by injection Hplay as <-. }
  cbn [play] in Hplay.
  destruct (dispatch fuel e s) as [s1|] eqn:Hd; [|done].
  assert (Hinv1 : sessionInv w h s1 ∧ winInv s1).
  { apply (play_invariant w h fuel [e] s s1 Hw Hh Hinv).
    cbn [play]. by rewrite Hd. }
  apply (IH s1 Hinv1); [|done].
  destruct Hinv as [[(Hwf & _) _] _].
  destruct e as [key|timestamp reads]; cbn [dispatch] in Hd.
  - by eapply cameraSnapped_handleInput.
  - injection Hd as <-. by apply cameraSnapped_gameLoop.
Qed.

Lemma cameraSnapped_onTiles s : cameraSnapped s → cameraOnTiles s.
Proof.
  intros [Hx Hy].
  exists (Z.max 0 (Z.min (playerX s - VIEWPORT_WIDTH / 2) (GRID_WIDTH - VIEWPORT_WIDTH))),
         (Z.max 0 (Z.min (playerY s - VIEWPORT_HEIGHT / 2) (GRID_HEIGHT - VIEWPORT_HEIGHT))).
  rewrite Hx, Hy.
  split; [by apply clampQ_whole|]. split; [by apply clampQ_whole|].
  unfold GRID_WIDTH, GRID_HEIGHT, VIEWPORT_WIDTH, VIEWPORT_HEIGHT. lia.
Qed.

(** X24. The camera of a session. In every state a game can reach from
    the constructor, under any sequence of key presses and frames, the
    camera is exactly where the snap puts it for the player's position:
    the player-centred view clamped to the level. So it is always a whole
    number of tiles on each axis within
    [0, GRID_WIDTH - VIEWPORT_WIDTH] × [0, GRID_HEIGHT - VIEWPORT_HEIGHT],
    and a smoothed camera update would find it on its target, with
    nothing left to move. *)
Theorem camera_follows_player (fuel : nat) (random clock : nat → Q)
    (events : list Event) (s0 s : Game) (deltaTime : Q) :
  (∀ n, unitDouble (random n)) →
  newGame fuel random clock = Some s0 →
  play fuel events s0 = Some s →
  cameraX s = cameraTargetX s ∧ cameraY s = cameraTargetY s ∧
  cameraOnTiles s ∧ cameraInBounds s ∧
  cameraX (updateCamera deltaTime s) = cameraX s ∧
  cameraY (updateCamera deltaTime s) = cameraY s.
Proof.
  intros Hr Hnew Hplay.
  pose proof (sessionInv_newGame _ _ _ _ Hr Hnew) as Hinv0.
  pose proof (winInv_newGame _ _ _ _ Hnew) as Hwin0.
  assert (Hcam0 : cameraSnapped s0).
  { rewrite newGame_unfold in Hnew.
    destruct (initializeLevel_stages fuel
                (session (emptyGrid GRID_WIDTH GRID_HEIGHT) 1 1 random clock) s0
                (emptyGrid_wf GRID_WIDTH GRID_HEIGHT) Hnew)
      as (_ & _ & _ & _ & _ & _ & Hx & Hy & _).
    split; [exact Hx|exact Hy]. }
  assert (Hcam : cameraSnapped s).
  { apply (play_cameraSnapped GRID_WIDTH GRID_HEIGHT fuel events s0 s);
      [unfold GRID_WIDTH; lia|unfold GRID_HEIGHT; lia|done|done|done]. }
  pose proof (cameraSnapped_onTiles s Hcam) as Htiles.
  destruct Hcam as [Hx Hy].
  split; [exact Hx|]. split; [exact Hy|]. split; [exact Htiles|].
  split.
  { destruct Htiles as (cx & cy & Hcx & Hcy & Hbx & Hby).
    unfold cameraInBounds. rewrite Hcx, Hcy.
    change 0%Q with (inject_Z 0). rewrite <- !Zle_Qle. lia. }
  assert (Hstill : ∀ c : Q, Qltb CAMERA_DEADZONE (Qabs (jsSub c c)) = false).
  { intros c. apply Qltb_false. unfold jsSub.
    rewrite (round64_zero (c - c)%Q) by ring. by vm_compute. }
  unfold updateCamera.
  cbn [cameraX cameraY targetCameraX targetCameraY playerX playerY
       set_cameraX set_cameraY set_targetCameraX set_targetCameraY].
  rewrite <- Hx, <- Hy, !Hstill. done.
Qed.

Lemma camera_follows_player_witness :
  ∃ s, play 2 shortSession firstLevel = Some s ∧ cameraOnTiles s.
Proof.
  destruct (play 2 shortSession firstLevel) as [s|] eqn:H;
    [|vm_compute in H; discriminate H].
  exists s. split; [reflexivity|].
  destruct (camera_follows_player 2 spawnCorner zeros shortSession firstLevel s 16
              spawnCorner_range firstLevel_made H)
    as (_ & _ & Htiles & _).
  exact Htiles.
Defined.


(** ** The diamond loop that does not end *)

Lemma pickDiamondCell_stuck fuel s :
  (∀ n, nearCell 1 (playerX s) (playerY s)
          (diamondDraw s n).1 (diamondDraw s n).2) →
  pickDiamondCell fuel s = None.
Proof.
  revert s. induction fuel as [|fuel IH]; intros s Hnear; [done|].
  rewrite pickDiamondCell_S. cbv zeta.
  rewrite (proj2 (nearPlayer_true 1 _ _ s) (Hnear (randomCalls s))).
  apply IH. exact Hnear.
Qed.

Lemma diamondRounds_pos : ∃ r, diamondRounds = S r.
Proof. by exists 37%nat. Qed.

(** X23. The converse of X14: the diamond loop can spin for ever. If
    every cell the random stream can offer to the diamond loop lies in the
    3 × 3 box around the spawn point, [initializeLevel] does not return,
    however many rounds the [do ... while] is allowed; so neither does
    the constructor or a reset. Random numbers stuck near 1 on the
    100 × 60 grid are such a stream, although each is a legal value of
    [Math.random]. *)
Theorem initializeLevel_stuck (fuel : nat) (s : Game) :
  Grid_wf (grid s) →
  (∀ n, nearCell 1 (spawnDraw s).1 (spawnDraw s).2
          (diamondDraw s n).1 (diamondDraw s n).2) →
  initializeLevel fuel s = None.
Proof.
  intros Hwf Hnear. unfold initializeLevel. cbv zeta.
  destruct (terrain_randomStream s Hwf) as (Hr & Hw & Hh & Hsp & Hwf4).
  cbv zeta in Hr, Hw, Hh, Hsp, Hwf4.
  set (s4 := addTerrain _) in *.
  destruct diamondRounds_pos as [r ->]. cbn [addDiamonds].
  rewrite pickDiamondCell_stuck; [done|].
  intros n. rewrite (diamondDraw_ext s s4 _ Hr Hw Hh).
  destruct (pair_eq_parts _ _ _ Hsp) as [-> ->]. apply Hnear.
Qed.

Lemma initializeLevel_stuck_witness :
  randomInRange stuckSession ∧ initializeLevel 1000 stuckSession = None.
Proof.
  split; [intros n; apply nearlyOne_unitDouble|].
  apply (initializeLevel_stuck 1000 stuckSession); [apply emptyGrid_wf|].
  intros n. change (spawnDraw stuckSession) with (97, 57).
  change (diamondDraw stuckSession n) with (98, 58).
  unfold nearCell. cbn [fst snd]. lia.
Defined.
